(** * XtalOpt / RandomDock: a shallow embedding of the search engine

  This development embeds the parts of [src/xtalopt/xtalopt.cpp] and
  [src/randomdock/structures/substrate.cpp] that the specification talks
  about, and proves the specification's statements about them.

  Conventions of the embedding.
  - A C++ [double] that is an input of a function (an energy, a volume, a
    tolerance, a random draw) is a rational [Q]: inputs are finite numbers
    and rounding is not modelled.  Where the code divides, the result is
    a [dbl], which adds the IEEE values a division by zero produces.
    The probability list of a [Substrate] is given a second time with
    every operation followed by a rounding, for what holds of it
    however the operations round.
  - [uint] and [int] loop counters and identifiers are [nat]; an [int]
    that results from a conversion is a [Z].
  - A [QString] is a [string], a [QList] is a [list], indexed with stdpp's
    lookup [!!] and updated with insert and [alter].
  - Methods of classes that live outside the repository's sources
    (Avogadro's molecule, OpenBabel's unit cell, the optimizer plugins,
    the random number generator) are variables of a [Section]. *)

From Stdlib Require Import QArith Qabs Qround Lqa Ascii String DecimalString.
From stdpp Require Import base list strings gmap pretty.

Local Open Scope Q_scope.

(** ** Doubles *)

Module Double.

(** A double that may come out of a division: a finite value, an
    infinity, or not-a-number.  Zero is taken as [+0], which is what
    [x - x] and [0 / n] produce under round-to-nearest. *)
Inductive dbl : Type :=
| Fin (q : Q)
| PInf
| NInf
| NaN.

Definition Qltb (a b : Q) : bool := negb (Qle_bool b a).

Definition dneg (x : dbl) : dbl :=
  match x with
  | Fin q => Fin (- q)
  | PInf => NInf
  | NInf => PInf
  | NaN => NaN
  end.

Definition dadd (x y : dbl) : dbl :=
  match x, y with
  | NaN, _ | _, NaN => NaN
  | Fin a, Fin b => Fin (a + b)
  | PInf, NInf | NInf, PInf => NaN
  | PInf, _ | _, PInf => PInf
  | NInf, _ | _, NInf => NInf
  end.

Definition dsub (x y : dbl) : dbl := dadd x (dneg y).

(** IEEE division: [0/0] is NaN, [x/0] is an infinity of the sign of
    [x], a finite value over an infinity is zero. *)
Definition ddiv (x y : dbl) : dbl :=
  match x, y with
  | NaN, _ | _, NaN => NaN
  | Fin a, Fin b =>
      if Qeq_bool b 0 then
        if Qeq_bool a 0 then NaN else if Qltb 0 a then PInf else NInf
      else Fin (a / b)
  | Fin _, (PInf | NInf) => Fin 0
  | PInf, Fin b => if Qltb b 0 then NInf else PInf
  | NInf, Fin b => if Qltb b 0 then PInf else NInf
  | (PInf | NInf), (PInf | NInf) => NaN
  end.

(** IEEE multiplication: zero times an infinity is NaN. *)
Definition dmul (x y : dbl) : dbl :=
  let signed (a : Q) (positive : bool) : dbl :=
    if Qeq_bool a 0 then NaN
    else if Bool.eqb (Qltb 0 a) positive then PInf else NInf in
  match x, y with
  | NaN, _ | _, NaN => NaN
  | Fin a, Fin b => Fin (a * b)
  | Fin a, PInf | PInf, Fin a => signed a true
  | Fin a, NInf | NInf, Fin a => signed a false
  | PInf, PInf | NInf, NInf => PInf
  | PInf, NInf | NInf, PInf => NInf
  end.

(** [x < y] on doubles; every comparison with NaN is false. *)
Definition dltb (x y : dbl) : bool :=
  match x, y with
  | NaN, _ | _, NaN => false
  | Fin a, Fin b => Qltb a b
  | Fin _, PInf => true
  | Fin _, NInf => false
  | PInf, _ => false
  | NInf, NInf => false
  | NInf, _ => true
  end.

(** [x <= y] on doubles, as a proposition; false when either is NaN. *)
Definition dle (x y : dbl) : Prop :=
  match x, y with
  | NaN, _ | _, NaN => False
  | Fin a, Fin b => a <= b
  | NInf, _ => True
  | _, PInf => True
  | _, _ => False
  end.

(** Conversion of a double to [int]: truncation toward zero. *)
Definition double_to_int (r : Q) : Z := Z.quot (Qnum r) (Zpos (Qden r)).

Lemma Qltb_lt a b : Qltb a b = true <-> a < b.
Proof.
  unfold Qltb. rewrite negb_true_iff.
  destruct (Qle_bool b a) eqn:E.
  - apply Qle_bool_iff in E. split; [discriminate | intros H; lra].
  - split; [intros _ | reflexivity].
    apply Qnot_le_lt. intros H. apply Qle_bool_iff in H. congruence.
Qed.

Lemma Qltb_ge a b : Qltb a b = false <-> b <= a.
Proof.
  unfold Qltb. rewrite negb_false_iff. apply Qle_bool_iff.
Qed.

Lemma dadd_Fin a b : dadd (Fin a) (Fin b) = Fin (a + b).
Proof. reflexivity. Qed.

Lemma dsub_Fin a b : dsub (Fin a) (Fin b) = Fin (a + - b).
Proof. reflexivity. Qed.

Lemma ddiv_Fin a b : ~ b == 0 -> ddiv (Fin a) (Fin b) = Fin (a / b).
Proof.
  intros Hb. simpl. destruct (Qeq_bool b 0) eqn:E; [|reflexivity].
  apply Qeq_bool_iff in E. contradiction.
Qed.

Lemma ddiv_zero_zero a b : a == 0 -> b == 0 -> ddiv (Fin a) (Fin b) = NaN.
Proof.
  intros Ha Hb. simpl.
  apply Qeq_bool_iff in Ha, Hb. now rewrite Ha, Hb.
Qed.

Lemma double_to_int_unit r : 0 <= r -> r < 1 -> double_to_int r = 0%Z.
Proof.
  destruct r as [n d]. unfold Qle, Qlt, double_to_int. simpl. intros H0 H1.
  apply Z.quot_small. lia.
Qed.

End Double.
Export Double.

(** ** RandomDock: [Substrate] (substrate.cpp) *)

Module Substrate.

(** A conformer is a vector of atom positions
    ([std::vector<Eigen::Vector3d>]). *)
Definition Conformer : Type := list (Q * Q * Q).

(** The part of a [Substrate] the functions below read and write: the
    conformers and energies of the underlying molecule, and [m_probs]. *)
Record Substrate : Type := mkSubstrate {
  conformers : list Conformer;
  energies_ : list Q;
  m_probs : list dbl
}.

Definition numConformers (s : Substrate) : nat := length (conformers s).

(** [energies()]: called by [sortConformers] to "make sure that
    energies().size() == numConformers". *)
Definition energies (s : Substrate) : Substrate :=
  mkSubstrate (conformers s) (resize (numConformers s) 0 (energies_ s))
              (m_probs s).

(** [energy(i)]; the molecule answers [0.0] out of range. *)
Definition energy (s : Substrate) (i : nat) : Q :=
  default 0 (energies_ s !! i).

Definition conformer (s : Substrate) (i : nat) : Conformer :=
  default [] (conformers s !! i).

(** [addConformer(c, i)] stores [c] as the conformer of index [i]; the
    sort calls it below [numConformers()] only. *)
Definition addConformer (c : Conformer) (i : nat) (s : Substrate)
  : Substrate :=
  mkSubstrate (<[i := c]> (conformers s)) (energies_ s) (m_probs s).

Definition setEnergy (i : nat) (e : Q) (s : Substrate) : Substrate :=
  mkSubstrate (conformers s) (<[i := e]> (energies_ s)) (m_probs s).

(** Body of the [if (energy(j) < energy(i))] of [sortConformers]. *)
Definition swapConformers (i j : nat) (s : Substrate) : Substrate :=
  let tmp := conformer s i in
  let s := addConformer (conformer s j) i s in
  let s := addConformer tmp j s in
  let tmp_e := energy s i in
  let s := setEnergy i (energy s j) s in
  setEnergy j tmp_e s.

(** [for (uint j = i; j < numConformers(); j++)] *)
Definition sortInner (i : nat) (s : Substrate) : Substrate :=
  foldl (fun s j => if Qltb (energy s j) (energy s i)
                    then swapConformers i j s else s)
        s (seq i (numConformers s - i)).

(** [Substrate::sortConformers]: the "simple selection sort". *)
Definition sortConformers (s : Substrate) : Substrate :=
  let s := energies s in
  foldl (fun s i => sortInner i s) s (seq 0 (numConformers s)).

(** First loop: [m_probs.append((energy(i) - lowest) / spread)]. *)
Definition scaledEnergies (s : Substrate) (lowest : Q) (spread : dbl)
  : list dbl :=
  map (fun i => ddiv (Fin (energy s i - lowest)) spread)
      (seq 0 (numConformers s)).

(** Second loop: replace each value by one minus it, and sum. *)
Fixpoint complementAndSum (probs : list dbl) (sum : dbl)
  : list dbl * dbl :=
  match probs with
  | [] => ([], sum)
  | p :: probs' =>
      let p' := dsub (Fin 1) p in
      let '(rest, sum') := complementAndSum probs' (dadd sum p') in
      (p' :: rest, sum')
  end.

(** Third loop: divide each value by the sum. *)
Definition normalize (probs : list dbl) (sum : dbl) : list dbl :=
  map (fun p => ddiv p sum) probs.

(** Fourth loop: replace each entry with the cumulative total. *)
Fixpoint cumulate (probs : list dbl) (sum : dbl) : list dbl :=
  match probs with
  | [] => []
  | p :: probs' => let sum' := dadd sum p in sum' :: cumulate probs' sum'
  end.

(** The part of [generateProbabilities] after the singleton guard
    (lines 86-117).  Without conformers the loops run over nothing and
    [lowest], [highest] and [spread] are not used. *)
Definition generateProbabilities_general (s : Substrate) : Substrate :=
  let s := sortConformers s in
  let n := numConformers s in
  let lowest := energy s 0 in
  let highest := energy s (n - 1) in
  let spread :=
    dadd (Fin (highest - lowest))
         (ddiv (Fin (highest - lowest)) (Fin (inject_Z (Z.of_nat n)))) in
  let probs := scaledEnergies s lowest spread in
  let '(probs, sum) := complementAndSum probs (Fin 0) in
  let probs := normalize probs sum in
  let probs := cumulate probs (Fin 0) in
  mkSubstrate (conformers s) (energies_ s) probs.

(** [Substrate::generateProbabilities]. *)
Definition generateProbabilities (s : Substrate) : Substrate :=
  if Nat.eqb (numConformers s) 1 then
    mkSubstrate (conformers s) (energies_ s) [Fin 1]
  else generateProbabilities_general s.

(** The selection loop of [getRandomConformerIndex]:
    [for (ind = 0; ind < m_probs.size(); ind++) if (r < m_probs.at(ind)) break;] *)
Fixpoint chosenIndex (r : dbl) (probs : list dbl) (ind : nat) : nat :=
  match probs with
  | [] => ind
  | p :: probs' => if dltb r p then ind else chosenIndex r probs' (S ind)
  end.

(** [Substrate::getRandomConformerIndex]; [r] is the value drawn by
    [rand.NextFloat()].  The function ends with [return r;] and its
    return type is [int]. *)
Definition getRandomConformerIndex (s : Substrate) (r : Q) : Z :=
  let ind := chosenIndex (Fin r) (m_probs s) 0 in
  double_to_int r.

(** The example of the source's comments: energies -5 -2 -1 3 5. *)
Definition example_substrate : Substrate :=
  mkSubstrate [[]; []; []; []; []] [3; -5; 5; -1; -2] [].

End Substrate.

(** ** Properties of [Substrate] *)

Module SubstrateProps.
Import Substrate.

(** The specification's reading of a cumulative probability list:
    non-decreasing, first value at least 0, last value at most 1.  A NaN
    entry satisfies none of the comparisons. *)
Definition nondecreasing (probs : list dbl) : Prop :=
  forall i j x y, (i <= j)%nat ->
    probs !! i = Some x -> probs !! j = Some y -> dle x y.

Definition is_probability_list (probs : list dbl) : Prop :=
  nondecreasing probs
  /\ (forall x, head probs = Some x -> dle (Fin 0) x)
  /\ (forall x, last probs = Some x -> dle x (Fin 1)).

(** Energies in ascending order, as a check on adjacent values. *)
Fixpoint is_ascending (es : list Q) : bool :=
  match es with
  | e1 :: ((e2 :: _) as es') => Qle_bool e1 e2 && is_ascending es'
  | _ => true
  end.

(** Exact sums and running sums of finite values. *)
Definition Qsum (l : list Q) : Q := foldr Qplus 0 l.

Fixpoint Qcumulate (l : list Q) (acc : Q) : list Q :=
  match l with
  | [] => []
  | p :: l' => (acc + p) :: Qcumulate l' (acc + p)
  end.

Lemma foldl_fixed {A B} (f : A -> B -> A) (a : A) (l : list B) :
  (forall x, x ∈ l -> f a x = a) -> foldl f a l = a.
Proof.
  induction l as [|x l IH]; simpl; intros H; [reflexivity|].
  rewrite (H x) by (left). apply IH. intros y Hy. apply H. now right.
Qed.

Lemma is_ascending_lookup (es : list Q) :
  is_ascending es = true ->
  forall i j a b, (i <= j)%nat -> es !! i = Some a -> es !! j = Some b ->
    a <= b.
Proof.
  induction es as [|e1 es IH]; intros Hasc i j a b Hij Hi Hj.
  - discriminate.
  - assert (Htl : is_ascending es = true).
    { destruct es; [reflexivity|]. simpl in Hasc.
      apply andb_true_iff in Hasc. tauto. }
    assert (Hhd : forall k c, es !! k = Some c -> e1 <= c).
    { intros k. induction k as [|k IHk]; intros c Hc.
      - destruct es as [|e2 es]; [discriminate|]. simpl in Hc, Hasc.
        injection Hc as <-. apply andb_true_iff in Hasc.
        apply Qle_bool_iff. tauto.
      - destruct es as [|e2 es]; [discriminate|].
        assert (He2 : e1 <= e2).
        { simpl in Hasc. apply andb_true_iff in Hasc.
          apply Qle_bool_iff. tauto. }
        apply Qle_trans with e2; [exact He2|].
        apply (IH Htl 0%nat (S k) e2 c); [lia|reflexivity|exact Hc]. }
    destruct i as [|i], j as [|j]; simpl in Hi, Hj.
    + injection Hi as <-. injection Hj as <-. apply Qle_refl.
    + injection Hi as <-. eapply Hhd, Hj.
    + lia.
    + apply (IH Htl i j); [lia|assumption..].
Qed.

Lemma energy_lookup s i e : energies_ s !! i = Some e -> energy s i = e.
Proof. unfold energy. now intros ->. Qed.

(** On an ascending list the selection sort swaps nothing. *)
Lemma sortConformers_ascending cs es p :
  length es = length cs -> is_ascending es = true ->
  sortConformers (mkSubstrate cs es p) = mkSubstrate cs es p.
Proof.
  intros Hlen Hasc. unfold sortConformers, energies, numConformers. simpl.
  rewrite <- Hlen, resize_all.
  apply foldl_fixed. intros i Hi. unfold sortInner.
  apply foldl_fixed. intros j Hj.
  apply elem_of_seq in Hi, Hj. unfold numConformers in Hj. simpl in Hj.
  destruct (lookup_lt_is_Some_2 es i) as [a Ha]; [lia|].
  destruct (lookup_lt_is_Some_2 es j) as [b Hb]; [lia|].
  unfold energy. simpl. rewrite Ha, Hb. simpl.
  assert (Hab : a <= b) by (eapply (is_ascending_lookup es Hasc i j); [lia|eauto..]).
  apply Qltb_ge in Hab. now rewrite Hab.
Qed.

Lemma complementAndSum_Fin (xs : list Q) (a : Q) :
  complementAndSum (map Fin xs) (Fin a)
  = (map Fin (map (fun x => 1 + - x) xs),
     Fin (foldl Qplus a (map (fun x => 1 + - x) xs))).
Proof.
  revert a. induction xs as [|x xs IH]; intros a; simpl; [reflexivity|].
  rewrite IH. reflexivity.
Qed.

Lemma normalize_Fin (ws : list Q) (sum : Q) :
  ~ sum == 0 ->
  normalize (map Fin ws) (Fin sum) = map Fin (map (fun w => w / sum) ws).
Proof.
  intros Hs. unfold normalize. rewrite map_map.
  rewrite map_map. apply map_ext. intros w. now apply ddiv_Fin.
Qed.

Lemma cumulate_Fin (ps : list Q) (a : Q) :
  cumulate (map Fin ps) (Fin a) = map Fin (Qcumulate ps a).
Proof.
  revert a. induction ps as [|p ps IH]; intros a; simpl; [reflexivity|].
  now rewrite IH.
Qed.

Lemma foldl_Qplus_Qsum (l : list Q) (a : Q) : foldl Qplus a l == a + Qsum l.
Proof.
  revert a. induction l as [|x l IH]; intros a; simpl.
  - unfold Qsum. simpl. lra.
  - rewrite IH. unfold Qsum. simpl. lra.
Qed.

Lemma Qsum_pos (l : list Q) :
  l <> [] -> (forall x, x ∈ l -> 0 < x) -> 0 < Qsum l.
Proof.
  induction l as [|x l IH]; intros Hne Hpos; [congruence|].
  unfold Qsum. simpl. assert (0 < x) by (apply Hpos; left).
  destruct l as [|y l].
  - simpl. lra.
  - assert (0 < Qsum (y :: l)).
    { apply IH; [congruence|]. intros z Hz. apply Hpos. now right. }
    unfold Qsum in *. simpl in *. lra.
Qed.

Lemma Qsum_scale (l : list Q) (s : Q) :
  Qsum (map (fun w => w / s) l) == Qsum l / s.
Proof.
  induction l as [|x l IH]; unfold Qsum in *; simpl.
  - unfold Qdiv. lra.
  - rewrite IH. unfold Qdiv. lra.
Qed.

Lemma Qcumulate_lookup_ge (ps : list Q) (a : Q) i x :
  (forall p, p ∈ ps -> 0 <= p) -> Qcumulate ps a !! i = Some x -> a <= x.
Proof.
  revert a i. induction ps as [|p ps IH]; intros a i Hpos Hx; [discriminate|].
  assert (0 <= p) by (apply Hpos; left).
  assert (Hpos' : forall q, q ∈ ps -> 0 <= q) by (intros q Hq; apply Hpos; now right).
  destruct i as [|i]; simpl in Hx.
  - injection Hx as <-. lra.
  - specialize (IH _ _ Hpos' Hx). lra.
Qed.

Lemma Qcumulate_mono (ps : list Q) (a : Q) i j x y :
  (forall p, p ∈ ps -> 0 <= p) -> (i <= j)%nat ->
  Qcumulate ps a !! i = Some x -> Qcumulate ps a !! j = Some y -> x <= y.
Proof.
  revert a i j. induction ps as [|p ps IH]; intros a i j Hpos Hij Hx Hy;
    [discriminate|].
  assert (Hpos' : forall q, q ∈ ps -> 0 <= q) by (intros q Hq; apply Hpos; now right).
  destruct i as [|i], j as [|j]; simpl in Hx, Hy; try lia.
  - injection Hx as <-. injection Hy as <-. lra.
  - injection Hx as <-. eapply Qcumulate_lookup_ge; eauto.
  - eapply (IH (a + p) i j); eauto. lia.
Qed.

Lemma Qcumulate_last (ps : list Q) (a : Q) x :
  last (Qcumulate ps a) = Some x -> x == a + Qsum ps.
Proof.
  revert a. induction ps as [|p ps IH]; intros a Hx; [discriminate|].
  simpl in Hx. destruct (Qcumulate ps (a + p)) as [|c cs] eqn:E.
  - destruct ps; [|discriminate]. simpl in Hx. injection Hx as <-.
    unfold Qsum. simpl. lra.
  - rewrite <- E in Hx.
    assert (Hl : last (Qcumulate ps (a + p)) = Some x).
    { rewrite E in *. exact Hx. }
    rewrite (IH _ Hl). unfold Qsum. simpl. lra.
Qed.

Lemma lookup_map {A B} (f : A -> B) (l : list A) i :
  map f l !! i = f <$> (l !! i).
Proof.
  revert i. induction l as [|x l IH]; intros [|i]; simpl; auto.
Qed.

Lemma last_map {A B} (f : A -> B) (l : list A) :
  last (map f l) = f <$> last l.
Proof.
  induction l as [|x l IH]; [reflexivity|].
  destruct l as [|y l]; [reflexivity|]. exact IH.
Qed.

Lemma head_lookup {A} (l : list A) : head l = l !! 0%nat.
Proof. now destruct l. Qed.

Lemma Qdiv_pos a b : 0 < a -> 0 < b -> 0 < a / b.
Proof.
  intros Ha Hb. apply Qlt_shift_div_l; [exact Hb|]. lra.
Qed.

Lemma inject_nat_pos n : (0 < n)%nat -> 0 < inject_Z (Z.of_nat n).
Proof.
  intros H. change 0 with (inject_Z 0). rewrite <- Zlt_Qlt. lia.
Qed.

(** Away from the degenerate case the construction, computed with exact
    numbers, does give a cumulative probability list: for conformers in
    ascending order of energy, at least two of them, whose lowest and
    highest energies differ. *)
Lemma generateProbabilities_cumulative cs es p lo hi :
  (2 <= length cs)%nat -> length es = length cs ->
  is_ascending es = true ->
  head es = Some lo -> last es = Some hi -> lo < hi ->
  is_probability_list (m_probs (generateProbabilities (mkSubstrate cs es p))).
Proof.
  intros Hn Hlen Hasc Hlo Hhi Hlt.
  unfold generateProbabilities.
  destruct (Nat.eqb_spec (numConformers (mkSubstrate cs es p)) 1) as [E|_].
  { unfold numConformers in E. simpl in E. lia. }
  unfold generateProbabilities_general.
  rewrite sortConformers_ascending by assumption.
  unfold numConformers. simpl conformers.
  set (s := mkSubstrate cs es p). set (n := length cs).
  assert (E0 : energy s 0 = lo).
  { apply energy_lookup. simpl. now rewrite <- head_lookup. }
  assert (E1 : energy s (n - 1) = hi).
  { apply energy_lookup. simpl. rewrite last_lookup in Hhi.
    rewrite Hlen in Hhi. replace (n - 1)%nat with (Nat.pred n) by lia.
    exact Hhi. }
  rewrite E0, E1.
  assert (Hnq : 0 < inject_Z (Z.of_nat n)) by (apply inject_nat_pos; lia).
  rewrite ddiv_Fin by lra. rewrite dadd_Fin.
  set (sp := hi - lo + (hi - lo) / inject_Z (Z.of_nat n)).
  assert (Hq : 0 < (hi - lo) / inject_Z (Z.of_nat n)) by (apply Qdiv_pos; lra).
  assert (Hsp : hi - lo < sp) by (unfold sp; lra).
  assert (Hsc : scaledEnergies s lo (Fin sp)
                = map Fin (map (fun i => (energy s i - lo) / sp) (seq 0 n))).
  { unfold scaledEnergies, numConformers. simpl conformers. fold n.
    rewrite map_map. apply map_ext. intros i. apply ddiv_Fin. lra. }
  rewrite Hsc. set (xs := map (fun i => (energy s i - lo) / sp) (seq 0 n)).
  assert (Hxs : forall x, In x xs -> 0 <= x /\ x < 1).
  { intros x Hx. apply in_map_iff in Hx as (i & <- & Hi).
    apply in_seq in Hi.
    destruct (lookup_lt_is_Some_2 es i) as [e He]; [lia|].
    rewrite (energy_lookup s i e He).
    assert (lo <= e).
    { rewrite head_lookup in Hlo.
      apply (is_ascending_lookup es Hasc 0%nat i); [lia|assumption..]. }
    assert (e <= hi).
    { rewrite last_lookup in Hhi.
      apply (is_ascending_lookup es Hasc i (Nat.pred (length es)));
        [lia|assumption..]. }
    split.
    - apply Qle_shift_div_l; lra.
    - apply Qlt_shift_div_r; lra. }
  rewrite complementAndSum_Fin.
  set (ws := map (fun x => 1 + - x) xs).
  assert (Hws : forall w, w ∈ ws -> 0 < w).
  { intros w Hw. apply list_elem_of_In, in_map_iff in Hw as (x & <- & Hx).
    apply Hxs in Hx. lra. }
  assert (Hne : ws <> []).
  { intros Hnil. apply (f_equal length) in Hnil. unfold ws, xs in Hnil.
    rewrite !length_map, length_seq in Hnil. simpl in Hnil. lia. }
  pose proof (Qsum_pos ws Hne Hws) as Hsum.
  pose proof (foldl_Qplus_Qsum ws 0) as Hfold.
  set (sum := foldl Qplus 0 ws) in *.
  assert (Hsum' : 0 < sum) by lra.
  rewrite normalize_Fin by lra.
  set (ps := map (fun w => w / sum) ws).
  assert (Hps : forall q, q ∈ ps -> 0 <= q).
  { intros q Hin. apply list_elem_of_In, in_map_iff in Hin as (w & <- & Hw).
    apply list_elem_of_In, Hws in Hw. apply Qlt_le_weak, Qdiv_pos; lra. }
  rewrite cumulate_Fin. simpl m_probs.
  split; [|split].
  - intros i j x y Hij Hx Hy. rewrite lookup_map in Hx, Hy.
    destruct (Qcumulate ps 0 !! i) as [a|] eqn:Ea; [|discriminate].
    destruct (Qcumulate ps 0 !! j) as [b|] eqn:Eb; [|discriminate].
    injection Hx as <-. injection Hy as <-. simpl.
    eapply Qcumulate_mono; eauto.
  - intros x Hx. rewrite head_lookup, lookup_map in Hx.
    destruct (Qcumulate ps 0 !! 0%nat) as [a|] eqn:Ea; [|discriminate].
    injection Hx as <-. simpl. eapply Qcumulate_lookup_ge; eauto.
  - intros x Hx. rewrite last_map in Hx.
    destruct (last (Qcumulate ps 0)) as [a|] eqn:Ea; [|discriminate].
    injection Hx as <-. simpl. apply Qcumulate_last in Ea.
    rewrite Ea. unfold ps. rewrite Qsum_scale.
    assert (Qsum ws / sum == 1).
    { rewrite Hfold. field. lra. }
    lra.
Qed.

Lemma Qltb_irrefl e : Qltb e e = false.
Proof. apply Qltb_ge, Qle_refl. Qed.

Lemma sortConformers_singleton c es p e :
  resize 1 0 es = [e] ->
  sortConformers (mkSubstrate [c] es p) = mkSubstrate [c] [e] p.
Proof.
  intros He. unfold sortConformers, energies, numConformers.
  simpl conformers. simpl length. simpl energies_. rewrite He.
  change (seq 0 1) with [0%nat]. cbn [foldl].
  unfold sortInner, numConformers. simpl conformers. simpl length.
  change (seq 0 (1 - 0)) with [0%nat]. cbn [foldl].
  unfold energy. simpl. now rewrite Qltb_irrefl.
Qed.

(** C2 (the code departs from the claim on equal energies).  The claim
    asks, for every ascending input of length at least 2, for a
    non-decreasing list that starts at 0 or above and ends at 1 or below.
    Two conformers of the same energy are such an input, and there
    [highest - lowest] is zero, so is [spread], and every entry is
    [0.0 / 0.0]: the list that comes out is [NaN, NaN], which is no
    probability list.  Only the one-conformer case is guarded in the
    source. *)
Theorem generateProbabilities_equal_energies_nan :
  forall (c1 c2 : Conformer) (e : Q) (p : list dbl),
    m_probs (generateProbabilities (mkSubstrate [c1; c2] [e; e] p))
    = [NaN; NaN]
    /\ ~ is_probability_list [NaN; NaN].
Proof.
  intros c1 c2 e p. split.
  - unfold generateProbabilities. simpl Nat.eqb. cbv iota.
    unfold generateProbabilities_general.
    rewrite sortConformers_ascending; [|reflexivity|].
    2:{ simpl. rewrite andb_true_r. apply Qle_bool_iff, Qle_refl. }
    unfold numConformers, scaledEnergies, energy. simpl conformers.
    simpl length. simpl energies_. simpl seq. simpl Nat.sub. cbn [map].
    simpl lookup. simpl default.
    rewrite (ddiv_Fin (e - e)) by (intros H; inversion H).
    rewrite dadd_Fin.
    rewrite !ddiv_zero_zero by (try field; lra).
    reflexivity.
  - intros (_ & H & _). exact (H NaN eq_refl).
Qed.

(** C8.  [getRandomConformerIndex] returns the draw [r] converted to
    [int], whatever the probability list holds; a draw of [NextFloat] lies
    in [0, 1), so the value returned is 0, and it is not in general the
    index [ind] the loop selected. *)
Theorem getRandomConformerIndex_returns_draw :
  (forall (s : Substrate) (r : Q),
      getRandomConformerIndex s r = double_to_int r)
  /\ (forall (s : Substrate) (r : Q),
         0 <= r -> r < 1 -> getRandomConformerIndex s r = 0%Z)
  /\ (exists (s : Substrate) (r : Q),
         0 <= r /\ r < 1
         /\ getRandomConformerIndex s r
            <> Z.of_nat (chosenIndex (Fin r) (m_probs s) 0)).
Proof.
  split; [|split].
  - intros s r. reflexivity.
  - intros s r H0 H1. unfold getRandomConformerIndex.
    now apply double_to_int_unit.
  - exists (mkSubstrate [[]; []] [0; 1] [Fin (2 # 5); Fin 1]), (1 # 2).
    split; [|split]; [lra | lra |]. vm_compute. discriminate.
Qed.

Lemma getRandomConformerIndex_returns_draw_witness :
  getRandomConformerIndex
    (generateProbabilities example_substrate) (9 # 10) = 0%Z.
Proof.
  apply (proj1 (proj2 getRandomConformerIndex_returns_draw)); lra.
Defined.

(** C10.  With exactly one conformer [generateProbabilities] sets the
    list to [1.0] and returns: the conformers and energies are left as
    they were (nothing is sorted), and no spread is computed.  The code
    after the guard, run on the same substrate, would divide zero by a
    zero spread and store NaN. *)
Theorem generateProbabilities_singleton (s : Substrate) :
  numConformers s = 1%nat ->
  generateProbabilities s = mkSubstrate (conformers s) (energies_ s) [Fin 1]
  /\ m_probs (generateProbabilities_general s) = [NaN].
Proof.
  intros Hn. split.
  - unfold generateProbabilities. now rewrite Hn.
  - destruct s as [cs es p]. unfold numConformers in *. simpl in Hn.
    destruct cs as [|c [|c' cs]]; try discriminate.
    assert (Hres : exists e, resize 1 0 es = [e]).
    { destruct es as [|e es]; [exists 0 | exists e]; [reflexivity|].
      simpl. now rewrite resize_0. }
    destruct Hres as [e He].
    unfold generateProbabilities_general.
    rewrite (sortConformers_singleton c es p e He).
    unfold numConformers, scaledEnergies, energy. simpl conformers.
    simpl length. simpl energies_. simpl seq. simpl Nat.sub. cbn [map].
    simpl lookup. simpl default.
    rewrite (ddiv_Fin (e - e)) by (intros H; inversion H).
    rewrite dadd_Fin.
    rewrite !ddiv_zero_zero by (try field; lra).
    reflexivity.
Qed.

Lemma generateProbabilities_singleton_witness :
  generateProbabilities (mkSubstrate [[(0, 0, 0)]] [-3] [])
  = mkSubstrate [[(0, 0, 0)]] [-3] [Fin 1]
  /\ m_probs (generateProbabilities_general
                (mkSubstrate [[(0, 0, 0)]] [-3] [])) = [NaN].
Proof.
  apply (generateProbabilities_singleton
           (mkSubstrate [[(0, 0, 0)]] [-3] [])).
  reflexivity.
Defined.

(** The list of the source's comment (energies -5 -2 -1 3 5) is a
    probability list, by the lemma for the non-degenerate case. *)
Example generateProbabilities_example :
  is_probability_list
    (m_probs (generateProbabilities
                (mkSubstrate [[]; []; []; []; []] [-5; -2; -1; 3; 5] []))).
Proof.
  apply (generateProbabilities_cumulative _ _ _ (-5) 5);
    try reflexivity; simpl; lia.
Qed.

(** *** The selection sort *)

(** The conformers with their energies. *)
Definition rows (s : Substrate) : list (Conformer * Q) :=
  zip (conformers s) (energies_ s).

Definition sized (s : Substrate) (n : nat) : Prop :=
  length (conformers s) = n /\ length (energies_ s) = n.

Lemma energy_swapConformers s n i j k :
  sized s n -> (i < n)%nat -> (j < n)%nat ->
  energy (swapConformers i j s) k
  = if Nat.eqb k j then energy s i
    else if Nat.eqb k i then energy s j else energy s k.
Proof.
  intros [_ He] Hi Hj. unfold swapConformers, setEnergy, addConformer, energy.
  cbn [energies_].
  case Nat.eqb_spec; [intros ->|intros Hkj].
  { now rewrite list_lookup_insert_eq by (rewrite length_insert; lia). }
  rewrite list_lookup_insert_ne by congruence.
  case Nat.eqb_spec; [intros ->|intros Hki].
  { now rewrite list_lookup_insert_eq by lia. }
  now rewrite list_lookup_insert_ne by congruence.
Qed.

Lemma sized_swapConformers s n i j :
  sized s n -> sized (swapConformers i j s) n.
Proof.
  intros [Hc He]. unfold sized, swapConformers, setEnergy, addConformer.
  cbn [conformers energies_]. now rewrite !length_insert.
Qed.

Lemma rows_swapConformers s n i j :
  sized s n -> (i < n)%nat -> (j < n)%nat ->
  rows (swapConformers i j s) ≡ₚ rows s.
Proof.
  intros [Hc He] Hi Hj.
  destruct (lookup_lt_is_Some_2 (conformers s) i) as [ci Hci]; [lia|].
  destruct (lookup_lt_is_Some_2 (conformers s) j) as [cj Hcj]; [lia|].
  destruct (lookup_lt_is_Some_2 (energies_ s) i) as [ei Hei]; [lia|].
  destruct (lookup_lt_is_Some_2 (energies_ s) j) as [ej Hej]; [lia|].
  unfold rows, swapConformers, setEnergy, addConformer, energy, conformer.
  cbn [conformers energies_]. unfold Conformer in *.
  rewrite Hci, Hcj, Hei, Hej. simpl.
  rewrite <- (insert_zip_with pair _ _ j ci ei).
  rewrite <- (insert_zip_with pair _ _ i cj ej).
  apply Permutation_insert_swap; apply lookup_zip_with_Some; eauto.
Qed.

(** The inner loop, after the first [m] values of [j]. *)
Lemma sortInner_prefix s n i m :
  sized s n -> (i + m <= n)%nat ->
  let s' := foldl (fun s j => if Qltb (energy s j) (energy s i)
                              then swapConformers i j s else s)
                  s (seq i m) in
  sized s' n /\ rows s' ≡ₚ rows s /\ m_probs s' = m_probs s
  /\ (forall k, (k < i)%nat -> energy s' k = energy s k)
  /\ (forall k, (i <= k < i + m)%nat -> energy s' i <= energy s' k)
  /\ (forall k, (i <= k < n)%nat ->
        exists k', (i <= k' < n)%nat /\ energy s' k = energy s k').
Proof.
  intros Hs. induction m as [|m IH]; intros Hm; cbv zeta.
  - simpl. split; [exact Hs|]. split; [reflexivity|]. split; [reflexivity|].
    split; [reflexivity|]. split; [intros k Hk; lia|]. intros k Hk. eauto.
  - rewrite seq_S, foldl_app. cbn [foldl].
    destruct IH as (Hs' & Hp & Hpr & Hlt & Hmin & Hfrom); [lia|].
    set (s' := foldl _ s (seq i m)) in *.
    destruct (Qltb (energy s' (i + m)) (energy s' i)) eqn:Hcmp.
    + apply Qltb_lt in Hcmp.
      assert (Hne : (i + m)%nat <> i).
      { intros E. rewrite E in Hcmp. revert Hcmp. apply Qlt_irrefl. }
      split; [now apply sized_swapConformers|].
      split; [rewrite (rows_swapConformers s' n) by (assumption || lia);
              exact Hp|].
      split; [exact Hpr|].
      split; [|split].
      * intros k Hk. rewrite (energy_swapConformers s' n) by (assumption || lia).
        repeat case Nat.eqb_spec; try lia. intros _ _. now apply Hlt.
      * intros k Hk.
        rewrite !(energy_swapConformers s' n) by (assumption || lia).
        rewrite (proj2 (Nat.eqb_neq i (i + m))) by lia.
        rewrite Nat.eqb_refl.
        repeat case Nat.eqb_spec; intros; subst;
          try apply Qle_refl; try (now apply Qlt_le_weak).
        apply Qle_trans with (energy s' i); [now apply Qlt_le_weak|].
        apply Hmin. lia.
      * intros k Hk. rewrite (energy_swapConformers s' n) by (assumption || lia).
        repeat case Nat.eqb_spec; intros; subst; apply Hfrom; lia.
    + apply Qltb_ge in Hcmp. split; [exact Hs'|]. split; [exact Hp|].
      split; [exact Hpr|]. split; [exact Hlt|]. split; [|exact Hfrom].
      intros k Hk. destruct (decide (k = (i + m)%nat)) as [->|Hk'];
        [exact Hcmp|]. apply Hmin. lia.
Qed.

Lemma sortInner_spec s n i :
  sized s n -> (i < n)%nat ->
  sized (sortInner i s) n /\ rows (sortInner i s) ≡ₚ rows s
  /\ m_probs (sortInner i s) = m_probs s
  /\ (forall k, (k < i)%nat -> energy (sortInner i s) k = energy s k)
  /\ (forall k, (i <= k < n)%nat ->
        energy (sortInner i s) i <= energy (sortInner i s) k)
  /\ (forall k, (i <= k < n)%nat ->
        exists k', (i <= k' < n)%nat
                   /\ energy (sortInner i s) k = energy s k').
Proof.
  intros Hs Hi. unfold sortInner, numConformers. rewrite (proj1 Hs).
  destruct (sortInner_prefix s n i (n - i) Hs) as (H1 & H2 & H3 & H4 & H5 & H6);
    [lia|].
  repeat (split; [assumption|]). split; [|exact H6].
  intros k Hk. apply H5. lia.
Qed.

(** The outer loop, after the first [m] values of [i]. *)
Lemma sortOuter_prefix s n m :
  sized s n -> (m <= n)%nat ->
  let s' := foldl (fun s i => sortInner i s) s (seq 0 m) in
  sized s' n /\ rows s' ≡ₚ rows s /\ m_probs s' = m_probs s
  /\ (forall a b, (a < m)%nat -> (a <= b < n)%nat ->
        energy s' a <= energy s' b).
Proof.
  intros Hs. induction m as [|m IH]; intros Hm; cbv zeta.
  - simpl. split; [exact Hs|]. split; [reflexivity|]. split; [reflexivity|].
    intros a b Ha. lia.
  - rewrite seq_S, foldl_app. cbn [foldl]. simpl (0 + m)%nat.
    destruct IH as (Hs' & Hp & Hpr & Hsorted); [lia|].
    set (s' := foldl _ s (seq 0 m)) in *.
    destruct (sortInner_spec s' n m Hs') as (H1 & H2 & H3 & H4 & H5 & H6);
      [lia|].
    split; [exact H1|]. split; [now rewrite H2|]. split; [congruence|].
    intros a b Ha Hb. destruct (decide (a = m)) as [->|Ham].
    + apply H5. lia.
    + rewrite (H4 a) by lia. destruct (decide (b < m)%nat) as [Hbm|Hbm].
      * rewrite (H4 b) by lia. apply Hsorted; lia.
      * destruct (H6 b) as (b' & Hb' & ->); [lia|]. apply Hsorted; lia.
Qed.

Lemma sortConformers_spec (s : Substrate) :
  let s' := sortConformers s in
  sized s' (numConformers s)
  /\ (forall a b, (a <= b < numConformers s)%nat ->
        energy s' a <= energy s' b)
  /\ rows s' ≡ₚ rows (energies s)
  /\ m_probs s' = m_probs s.
Proof.
  cbv zeta. unfold sortConformers.
  assert (Hs : sized (energies s) (numConformers s)).
  { split; [reflexivity|]. unfold energies. cbn [energies_].
    apply length_resize. }
  assert (Hn : numConformers (energies s) = numConformers s) by reflexivity.
  rewrite Hn.
  destruct (sortOuter_prefix (energies s) (numConformers s) (numConformers s)
              Hs) as (H1 & H2 & H3 & H4); [lia|].
  split; [exact H1|]. split; [|split; [exact H2|exact H3]].
  intros a b Hab. apply H4; lia.
Qed.

(** X3.  [sortConformers] sorts: afterwards the energies are in
    ascending order, the number of conformers is the same, and the
    conformers with their energies are a rearrangement of those before
    (the energies first resized to the number of conformers, as
    [energies()] does), so each conformer keeps its energy.  The
    probability list is not touched. *)
Theorem sortConformers_sorts (s : Substrate) :
  let s' := sortConformers s in
  numConformers s' = numConformers s
  /\ length (energies_ s') = numConformers s
  /\ (forall a b, (a <= b < numConformers s)%nat ->
        energy s' a <= energy s' b)
  /\ zip (conformers s') (energies_ s')
     ≡ₚ zip (conformers s) (resize (numConformers s) 0 (energies_ s))
  /\ m_probs s' = m_probs s.
Proof.
  destruct (sortConformers_spec s) as ([H1 H2] & H3 & H4 & H5).
  cbv zeta. repeat split; assumption.
Qed.

(** *** The probability list under rounding *)

Lemma Qdiv_le_mono a b c : 0 < c -> a <= b -> a / c <= b / c.
Proof.
  intros Hc Hab. unfold Qdiv. apply Qmult_le_compat_r; [exact Hab|].
  apply Qlt_le_weak, Qinv_lt_0_compat, Hc.
Qed.

Lemma rows_energy s n k :
  sized s n -> (k < n)%nat -> exists c, (c, energy s k) ∈ rows s.
Proof.
  intros [Hc He] Hk.
  destruct (lookup_lt_is_Some_2 (conformers s) k) as [c Hck]; [lia|].
  destruct (lookup_lt_is_Some_2 (energies_ s) k) as [e Hek]; [lia|].
  exists c. rewrite (energy_lookup s k e Hek). apply list_elem_of_lookup.
  exists k. apply lookup_zip_with_Some. eauto.
Qed.

Lemma rows_energy_inv s n c e :
  sized s n -> (c, e) ∈ rows s ->
  exists k, (k < n)%nat /\ energy s k = e.
Proof.
  intros [Hc He] [k Hk]%list_elem_of_lookup.
  apply lookup_zip_with_Some in Hk as (c' & e' & Heq & H1 & H2).
  injection Heq as -> ->. exists k.
  split; [apply lookup_lt_Some in H2; lia|]. now apply energy_lookup.
Qed.

(** The selection loop stops at the first entry above the draw. *)
Lemma chosenIndex_spec r probs :
  forall k,
    let c := chosenIndex r probs k in
    (k <= c <= k + length probs)%nat
    /\ (forall i p, (k + i < c)%nat -> probs !! i = Some p ->
          dltb r p = false)
    /\ ((c < k + length probs)%nat ->
        exists p, probs !! (c - k)%nat = Some p /\ dltb r p = true).
Proof.
  induction probs as [|p probs IH]; intros k; cbv zeta; simpl.
  - split; [lia|]. split; [intros i p Hi; lia|]. intros Hc. lia.
  - destruct (dltb r p) eqn:E.
    + split; [lia|]. split; [intros i q Hi; lia|]. intros _.
      rewrite Nat.sub_diag. simpl. eauto.
    + destruct (IH (S k)) as (H1 & H2 & H3). split; [lia|]. split.
      * intros [|i] q Hi Hq; simpl in Hq; [congruence|].
        apply (H2 i); [lia|exact Hq].
      * intros Hc. destruct H3 as (q & Hq & Hr); [lia|]. exists q.
        split; [|exact Hr].
        replace (chosenIndex r probs (S k) - k)%nat
          with (S (chosenIndex r probs (S k) - S k)) by lia.
        exact Hq.
Qed.

Section Rounding.

(** [generateProbabilities_general] computes with exact numbers.  In
    the source every operation of lines 89-116 yields a double, its
    exact result rounded; [rnd] is that rounding, on finite values. *)
Variable rnd : Q -> Q.

Definition rounded (d : dbl) : dbl :=
  match d with Fin q => Fin (rnd q) | _ => d end.

Definition scaledEnergies_rounded (s : Substrate) (lowest : Q)
    (spread : dbl) : list dbl :=
  map (fun i => rounded (ddiv (Fin (rnd (energy s i - lowest))) spread))
      (seq 0 (numConformers s)).

Fixpoint complementAndSum_rounded (probs : list dbl) (sum : dbl)
  : list dbl * dbl :=
  match probs with
  | [] => ([], sum)
  | p :: probs' =>
      let p' := rounded (dsub (Fin 1) p) in
      let '(rest, sum') :=
        complementAndSum_rounded probs' (rounded (dadd sum p')) in
      (p' :: rest, sum')
  end.

Definition normalize_rounded (probs : list dbl) (sum : dbl) : list dbl :=
  map (fun p => rounded (ddiv p sum)) probs.

Fixpoint cumulate_rounded (probs : list dbl) (sum : dbl) : list dbl :=
  match probs with
  | [] => []
  | p :: probs' =>
      let sum' := rounded (dadd sum p) in
      sum' :: cumulate_rounded probs' sum'
  end.

(** Lines 86-117, each operation rounded. *)
Definition generateProbabilities_general_rounded (s : Substrate)
  : Substrate :=
  let s := sortConformers s in
  let n := numConformers s in
  let lowest := energy s 0 in
  let highest := energy s (n - 1) in
  let spread :=
    rounded
      (dadd (Fin (rnd (highest - lowest)))
            (rounded (ddiv (Fin (rnd (highest - lowest)))
                           (Fin (inject_Z (Z.of_nat n)))))) in
  let probs := scaledEnergies_rounded s lowest spread in
  let '(probs, sum) := complementAndSum_rounded probs (Fin 0) in
  let probs := normalize_rounded probs sum in
  let probs := cumulate_rounded probs (Fin 0) in
  mkSubstrate (conformers s) (energies_ s) probs.

Definition generateProbabilities_rounded (s : Substrate) : Substrate :=
  if Nat.eqb (numConformers s) 1 then
    mkSubstrate (conformers s) (energies_ s) [Fin 1]
  else generateProbabilities_general_rounded s.

(** The rounded sums on finite values. *)
Definition rsum (ws : list Q) (acc : Q) : Q :=
  foldl (fun acc w => rnd (acc + w)) acc ws.

Fixpoint rcumulate (ps : list Q) (acc : Q) : list Q :=
  match ps with
  | [] => []
  | p :: ps' => rnd (acc + p) :: rcumulate ps' (rnd (acc + p))
  end.

Lemma complementAndSum_rounded_Fin (xs : list Q) (a : Q) :
  complementAndSum_rounded (map Fin xs) (Fin a)
  = (map Fin (map (fun x => rnd (1 + - x)) xs),
     Fin (rsum (map (fun x => rnd (1 + - x)) xs) a)).
Proof.
  revert a. induction xs as [|x xs IH]; intros a; simpl; [reflexivity|].
  rewrite IH. reflexivity.
Qed.

Lemma normalize_rounded_Fin (ws : list Q) (sum : Q) :
  ~ sum == 0 ->
  normalize_rounded (map Fin ws) (Fin sum)
  = map Fin (map (fun w => rnd (w / sum)) ws).
Proof.
  intros Hs. unfold normalize_rounded. rewrite !map_map.
  apply map_ext. intros w. now rewrite ddiv_Fin.
Qed.

Lemma cumulate_rounded_Fin (ps : list Q) (a : Q) :
  cumulate_rounded (map Fin ps) (Fin a) = map Fin (rcumulate ps a).
Proof.
  revert a. induction ps as [|p ps IH]; intros a; simpl; [reflexivity|].
  now rewrite IH.
Qed.

Lemma length_rcumulate ps a : length (rcumulate ps a) = length ps.
Proof.
  revert a. induction ps as [|p ps IH]; intros a; simpl; [reflexivity|].
  now rewrite IH.
Qed.

(** What is asked of the rounding: it keeps the order, it leaves a
    value it produced, 0 and 1 as they are, and a positive value does
    not become 0 (no underflow). *)
Hypothesis rnd_mono : forall a b, a <= b -> rnd a <= rnd b.
Hypothesis rnd_idem : forall a, rnd (rnd a) == rnd a.
Hypothesis rnd_0 : rnd 0 == 0.
Hypothesis rnd_1 : rnd 1 == 1.
Hypothesis rnd_pos : forall a, 0 < a -> 0 < rnd a.

Lemma rnd_compat a b : a == b -> rnd a == rnd b.
Proof.
  intros H. apply Qle_antisym; apply rnd_mono; rewrite H; apply Qle_refl.
Qed.

Lemma rnd_nonneg a : 0 <= a -> 0 <= rnd a.
Proof. intros H. rewrite <- rnd_0. now apply rnd_mono. Qed.

Lemma rnd_le_1 a : a <= 1 -> rnd a <= 1.
Proof. intros H. rewrite <- rnd_1. now apply rnd_mono. Qed.

(** Adding a value that is not negative to a double does not give
    less. *)
Lemma rnd_add_ge acc w : rnd acc == acc -> 0 <= w -> acc <= rnd (acc + w).
Proof.
  intros Hacc Hw. rewrite <- Hacc at 1. apply rnd_mono. lra.
Qed.

Lemma rsum_ge (ws : list Q) :
  (forall w, w ∈ ws -> 0 <= w) ->
  forall acc, rnd acc == acc -> acc <= rsum ws acc.
Proof.
  induction ws as [|w ws IH]; intros Hws acc Hacc; [apply Qle_refl|].
  unfold rsum. cbn [foldl]. fold (rsum ws (rnd (acc + w))).
  apply Qle_trans with (rnd (acc + w)).
  - apply rnd_add_ge; [exact Hacc|]. apply Hws. left.
  - apply IH; [|apply rnd_idem]. intros w' Hw'. apply Hws. now right.
Qed.

Lemma rcumulate_ge (ps : list Q) :
  (forall p, p ∈ ps -> 0 <= p) ->
  forall acc i x, rnd acc == acc -> rcumulate ps acc !! i = Some x ->
    acc <= x.
Proof.
  induction ps as [|p ps IH]; intros Hps acc i x Hacc Hx; [discriminate|].
  assert (Hp : 0 <= p) by (apply Hps; left).
  assert (Hps' : forall q, q ∈ ps -> 0 <= q)
    by (intros q Hq; apply Hps; now right).
  pose proof (rnd_add_ge acc p Hacc Hp) as Hge.
  destruct i as [|i]; cbn in Hx.
  - now injection Hx as <-.
  - apply Qle_trans with (rnd (acc + p)); [exact Hge|].
    eapply IH; [exact Hps'|apply rnd_idem|exact Hx].
Qed.

Lemma rcumulate_mono (ps : list Q) :
  (forall p, p ∈ ps -> 0 <= p) ->
  forall acc i j x y, rnd acc == acc -> (i <= j)%nat ->
    rcumulate ps acc !! i = Some x -> rcumulate ps acc !! j = Some y ->
    x <= y.
Proof.
  induction ps as [|p ps IH]; intros Hps acc i j x y Hacc Hij Hx Hy;
    [discriminate|].
  assert (Hps' : forall q, q ∈ ps -> 0 <= q)
    by (intros q Hq; apply Hps; now right).
  destruct i as [|i], j as [|j]; cbn in Hx, Hy; try lia.
  - injection Hx as <-. injection Hy as <-. apply Qle_refl.
  - injection Hx as <-.
    eapply rcumulate_ge; [exact Hps'|apply rnd_idem|exact Hy].
  - eapply (IH Hps' (rnd (acc + p)) i j); [apply rnd_idem|lia|eauto..].
Qed.


(** Two conformers of equal energies: the spread is zero and every
    entry is [0.0 / 0.0], however the operations round. *)
Lemma generateProbabilities_rounded_equal_energies
    (c1 c2 : Conformer) (e : Q) (p : list dbl) :
  m_probs (generateProbabilities_rounded (mkSubstrate [c1; c2] [e; e] p))
  = [NaN; NaN].
Proof.
  unfold generateProbabilities_rounded. simpl Nat.eqb. cbv iota.
  unfold generateProbabilities_general_rounded.
  rewrite sortConformers_ascending; [|reflexivity|].
  2:{ simpl. rewrite andb_true_r. apply Qle_bool_iff, Qle_refl. }
  unfold numConformers, scaledEnergies_rounded, energy. simpl conformers.
  simpl length. simpl energies_. simpl seq. simpl Nat.sub. cbn [map].
  simpl lookup. simpl default.
  assert (Hd : rnd (e - e) == 0).
  { apply Qeq_trans with (rnd 0); [|exact rnd_0]. apply rnd_compat. lra. }
  rewrite (ddiv_Fin (rnd (e - e))) by (intros H; inversion H).
  cbn [rounded]. rewrite dadd_Fin. cbn [rounded].
  assert (Hsp : rnd (rnd (e - e)
                     + rnd (rnd (e - e) / inject_Z (Z.of_nat 2))) == 0).
  { apply Qeq_trans with (rnd 0); [|exact rnd_0]. apply rnd_compat.
    assert (E : rnd (rnd (e - e) / inject_Z (Z.of_nat 2)) == 0).
    { apply Qeq_trans with (rnd 0); [|exact rnd_0]. apply rnd_compat.
      rewrite Hd. reflexivity. }
    rewrite E, Hd. reflexivity. }
  rewrite !ddiv_zero_zero by assumption.
  reflexivity.
Qed.

(** With two conformers of different energies the list stored is the
    list of the rounded running sums of weights that are not negative,
    the first of them positive. *)
Lemma generateProbabilities_rounded_list (s : Substrate) (a b : nat) :
  (a < numConformers s)%nat -> (b < numConformers s)%nat ->
  energy (energies s) a < energy (energies s) b ->
  exists p0 ps,
    m_probs (generateProbabilities_rounded s)
    = map Fin (rcumulate (p0 :: ps) 0)
    /\ S (length ps) = numConformers s
    /\ 0 < p0
    /\ (forall p, p ∈ ps -> 0 <= p).
Proof.
  intros Ha Hb Hab.
  assert (Hn : (2 <= numConformers s)%nat).
  { destruct (decide (a = b)) as [->|];
      [exfalso; revert Hab; apply Qlt_irrefl|lia]. }
  unfold generateProbabilities_rounded.
  destruct (Nat.eqb_spec (numConformers s) 1) as [E|_]; [lia|].
  unfold generateProbabilities_general_rounded.
  destruct (sortConformers_spec s) as (Hs' & Hsorted & Hperm & _).
  assert (Hsz : sized (energies s) (numConformers s)).
  { split; [reflexivity|]. unfold energies. cbn [energies_].
    apply length_resize. }
  destruct (rows_energy (energies s) _ a Hsz Ha) as [ca Hca].
  destruct (rows_energy (energies s) _ b Hsz Hb) as [cb Hcb].
  rewrite <- Hperm in Hca, Hcb.
  set (s' := sortConformers s) in *. set (n := numConformers s) in *.
  assert (Hn' : numConformers s' = n) by apply Hs'.
  rewrite Hn'.
  destruct (rows_energy_inv s' n _ _ Hs' Hca) as (a' & Ha' & Ea).
  destruct (rows_energy_inv s' n _ _ Hs' Hcb) as (b' & Hb' & Eb).
  set (lo := energy s' 0). set (hi := energy s' (n - 1)).
  assert (Hlo : forall k, (k < n)%nat -> lo <= energy s' k)
    by (intros k Hk; apply Hsorted; lia).
  assert (Hhi : forall k, (k < n)%nat -> energy s' k <= hi)
    by (intros k Hk; apply Hsorted; lia).
  assert (Hlt : lo < hi).
  { pose proof (Hlo a' Ha') as H1. pose proof (Hhi b' Hb') as H2.
    rewrite Ea in H1. rewrite Eb in H2. lra. }
  assert (Hnq : 0 < inject_Z (Z.of_nat n)) by (apply inject_nat_pos; lia).
  (* the spread *)
  set (d := rnd (hi - lo)).
  assert (Hd : 0 < d) by (apply rnd_pos; lra).
  assert (Hdd : rnd d == d) by apply rnd_idem.
  rewrite ddiv_Fin by lra. cbn [rounded]. rewrite dadd_Fin. cbn [rounded].
  set (q := rnd (d / inject_Z (Z.of_nat n))).
  assert (Hq : 0 < q) by (apply rnd_pos, Qdiv_pos; lra).
  set (sp := rnd (d + q)).
  assert (Hsp : d <= sp) by (apply rnd_add_ge; [exact Hdd|lra]).
  assert (Hsp0 : 0 < sp) by lra.
  (* the scaled energies *)
  set (g := fun i => rnd (rnd (energy s' i - lo) / sp)).
  assert (Hsc : scaledEnergies_rounded s' lo (Fin sp)
                = map Fin (map g (seq 0 n))).
  { unfold scaledEnergies_rounded. rewrite Hn', map_map.
    apply map_ext. intros i. unfold g. rewrite ddiv_Fin by lra.
    reflexivity. }
  rewrite Hsc, complementAndSum_rounded_Fin.
  assert (Hg : forall i, (i < n)%nat -> 0 <= g i /\ g i <= 1).
  { intros i Hi. pose proof (Hlo i Hi) as Hl0. pose proof (Hhi i Hi) as Hh0.
    assert (Hr0 : 0 <= rnd (energy s' i - lo)) by (apply rnd_nonneg; lra).
    assert (Hr1 : rnd (energy s' i - lo) <= d) by (apply rnd_mono; lra).
    unfold g. split.
    - apply rnd_nonneg. apply Qle_shift_div_l; lra.
    - apply rnd_le_1. apply Qle_shift_div_r; lra. }
  assert (Hg0 : g 0%nat == 0).
  { unfold g.
    assert (E1 : rnd (energy s' 0 - lo) == 0).
    { apply Qeq_trans with (rnd 0); [|exact rnd_0].
      apply rnd_compat. unfold lo. lra. }
    apply Qeq_trans with (rnd 0); [|exact rnd_0].
    apply rnd_compat. rewrite E1. unfold Qdiv. lra. }
  set (c := fun x => rnd (1 + - x)).
  assert (Hc : forall i, (i < n)%nat -> 0 <= c (g i)).
  { intros i Hi. destruct (Hg i Hi). unfold c. apply rnd_nonneg. lra. }
  assert (Hc0 : c (g 0%nat) == 1).
  { unfold c. apply Qeq_trans with (rnd 1); [|exact rnd_1].
    apply rnd_compat. rewrite Hg0. lra. }
  assert (Hseq : seq 0 n = 0%nat :: seq 1 (n - 1)).
  { destruct n as [|n0]; [lia|]. cbn [seq]. do 2 f_equal. lia. }
  set (ws := map c (map g (seq 1 (n - 1)))).
  assert (Hws : forall w, w ∈ ws -> 0 <= w).
  { intros w Hw. apply list_elem_of_In, in_map_iff in Hw as (x & <- & Hx).
    apply in_map_iff in Hx as (i & <- & Hi). apply in_seq in Hi.
    apply Hc. lia. }
  set (sum := rsum (map c (map g (seq 0 n))) 0).
  assert (Hsum : 1 <= sum).
  { unfold sum. rewrite Hseq. cbn [map]. fold ws. unfold rsum. cbn [foldl].
    fold (rsum ws (rnd (0 + c (g 0%nat)))).
    assert (E1 : rnd (0 + c (g 0%nat)) == 1).
    { apply Qeq_trans with (rnd 1); [|exact rnd_1].
      apply rnd_compat. rewrite Hc0. lra. }
    rewrite <- E1. apply rsum_ge; [exact Hws|apply rnd_idem]. }
  rewrite normalize_rounded_Fin by lra. rewrite cumulate_rounded_Fin.
  cbn [m_probs]. rewrite Hseq. cbn [map]. fold ws.
  eexists _, _. split; [reflexivity|].
  split; [unfold ws; rewrite !length_map, length_seq; lia|]. split.
  - apply rnd_pos, Qdiv_pos; [rewrite Hc0|]; lra.
  - intros p Hp. apply list_elem_of_In, in_map_iff in Hp as (w & <- & Hw).
    apply list_elem_of_In, Hws in Hw. apply rnd_nonneg.
    apply Qle_shift_div_l; lra.
Qed.

(** X4.  For a substrate with two conformers of different energies,
    whatever their order, [generateProbabilities] stores one entry for
    each conformer, every entry finite and above 0, and the entries
    never decrease; this holds however the operations round, as long as
    the rounding keeps the order, keeps the doubles, 0 and 1, and does
    not take a positive value to 0. *)
Theorem generateProbabilities_cumulative_distribution
    (s : Substrate) (a b : nat) :
  (a < numConformers s)%nat -> (b < numConformers s)%nat ->
  energy (energies s) a < energy (energies s) b ->
  let probs := m_probs (generateProbabilities_rounded s) in
  length probs = numConformers s
  /\ (forall i x, probs !! i = Some x -> exists q, x = Fin q /\ 0 < q)
  /\ (forall i j x y, (i <= j)%nat ->
        probs !! i = Some (Fin x) -> probs !! j = Some (Fin y) -> x <= y).
Proof.
  intros Ha Hb Hab.
  destruct (generateProbabilities_rounded_list s a b Ha Hb Hab)
    as (p0 & ps & -> & Hlen & Hp0 & Hps).
  cbv zeta.
  assert (Hall : forall p, p ∈ p0 :: ps -> 0 <= p).
  { intros p [->|Hp]%elem_of_cons; [lra|now apply Hps]. }
  assert (Hfin : forall i x,
            map Fin (rcumulate (p0 :: ps) 0) !! i = Some (Fin x) ->
            rcumulate (p0 :: ps) 0 !! i = Some x).
  { intros i x. rewrite lookup_map.
    destruct (rcumulate (p0 :: ps) 0 !! i); simpl; congruence. }
  split; [rewrite length_map, length_rcumulate; cbn [length]; lia|]. split.
  - intros i x Hx. rewrite lookup_map in Hx.
    destruct (rcumulate (p0 :: ps) 0 !! i) as [q|] eqn:E; [|discriminate].
    injection Hx as <-. exists q. split; [reflexivity|].
    assert (H0 : rnd (0 + p0) <= q).
    { apply (rcumulate_mono (p0 :: ps) Hall 0 0%nat i);
        [exact rnd_0|lia|reflexivity|exact E]. }
    assert (0 < rnd (0 + p0)) by (apply rnd_pos; lra). lra.
  - intros i j x y Hij Hx Hy. apply Hfin in Hx, Hy.
    apply (rcumulate_mono (p0 :: ps) Hall 0 i j); [exact rnd_0|assumption..].
Qed.

(** X5.  On that list the selection loop of [getRandomConformerIndex]
    stops at the first entry above the draw, and at the number of
    conformers when there is none: the index it holds is that of a
    conformer exactly when the draw is below the last entry. *)
Theorem chosenIndex_selects_conformer (s : Substrate) (a b : nat) (r : Q) :
  (a < numConformers s)%nat -> (b < numConformers s)%nat ->
  energy (energies s) a < energy (energies s) b ->
  let probs := m_probs (generateProbabilities_rounded s) in
  let ind := chosenIndex (Fin r) probs 0 in
  (ind <= numConformers s)%nat
  /\ (forall i p, (i < ind)%nat -> probs !! i = Some (Fin p) -> p <= r)
  /\ ((ind < numConformers s)%nat ->
      exists p, probs !! ind = Some (Fin p) /\ r < p)
  /\ ((ind < numConformers s)%nat
      <-> exists q, last probs = Some (Fin q) /\ r < q).
Proof.
  intros Ha Hb Hab.
  destruct (generateProbabilities_rounded_list s a b Ha Hb Hab)
    as (p0 & ps & -> & Hlen & Hp0 & Hps).
  cbv zeta.
  assert (Hall : forall p, p ∈ p0 :: ps -> 0 <= p).
  { intros p [->|Hp]%elem_of_cons; [lra|now apply Hps]. }
  set (cs := rcumulate (p0 :: ps) 0). set (probs := map Fin cs).
  assert (Hl : length probs = numConformers s).
  { unfold probs, cs. rewrite length_map, length_rcumulate. cbn [length].
    lia. }
  destruct (chosenIndex_spec (Fin r) probs 0) as (H1 & H2 & H3).
  rewrite Nat.sub_0_r in H3. cbn [Nat.add] in H1, H2, H3.
  set (ind := chosenIndex (Fin r) probs 0) in *.
  assert (Hat : (ind < numConformers s)%nat ->
                exists p, probs !! ind = Some (Fin p) /\ r < p).
  { intros Hind. destruct H3 as (p & Hp & Ht); [lia|].
    unfold probs in Hp. rewrite lookup_map in Hp.
    destruct (cs !! ind) as [q|] eqn:E; [|discriminate].
    injection Hp as <-. exists q. split.
    - unfold probs. now rewrite lookup_map, E.
    - simpl in Ht. now apply Qltb_lt. }
  destruct (lookup_lt_is_Some_2 cs (Nat.pred (length cs))) as [q Hq].
  { unfold cs. rewrite length_rcumulate. cbn [length]. lia. }
  assert (Hlast : last probs = Some (Fin q)).
  { unfold probs. now rewrite last_map, last_lookup, Hq. }
  split; [lia|]. split; [|split; [exact Hat|split]].
  - intros i p Hi Hp. pose proof (H2 i (Fin p) ltac:(lia) Hp) as Hf.
    simpl in Hf. now apply Qltb_ge.
  - intros Hind. destruct (Hat Hind) as (p & Hp & Hr).
    exists q. split; [exact Hlast|].
    assert (p <= q); [|lra].
    unfold probs in Hp. rewrite lookup_map in Hp.
    destruct (cs !! ind) as [p'|] eqn:E; [|discriminate].
    injection Hp as <-.
    apply (rcumulate_mono (p0 :: ps) Hall 0 ind (Nat.pred (length cs)));
      [exact rnd_0| |exact E|exact Hq].
    apply lookup_lt_Some in E. lia.
  - intros (q' & Hq' & Hr). rewrite Hlast in Hq'. injection Hq' as <-.
    destruct (decide (ind < numConformers s)%nat) as [|Hge]; [assumption|].
    exfalso.
    assert (Hf : dltb (Fin r) (Fin q) = false).
    { apply (H2 (Nat.pred (length cs))).
      - unfold cs in *. rewrite length_rcumulate in *. cbn [length] in *. lia.
      - unfold probs. now rewrite lookup_map, Hq. }
    simpl in Hf. apply Qltb_ge in Hf. lra.
Qed.

End Rounding.

(** Without rounding the list is the one of [generateProbabilities]. *)
Lemma rounded_exact (d : dbl) : rounded (fun q => q) d = d.
Proof. now destruct d. Qed.

Lemma complementAndSum_rounded_exact (probs : list dbl) :
  forall sum,
    complementAndSum_rounded (fun q => q) probs sum
    = complementAndSum probs sum.
Proof.
  induction probs as [|p probs IH]; intros sum; [reflexivity|].
  cbn [complementAndSum_rounded complementAndSum].
  now rewrite !rounded_exact, IH.
Qed.

Lemma cumulate_rounded_exact (probs : list dbl) :
  forall sum, cumulate_rounded (fun q => q) probs sum = cumulate probs sum.
Proof.
  induction probs as [|p probs IH]; intros sum; [reflexivity|].
  cbn [cumulate_rounded cumulate]. now rewrite !rounded_exact, IH.
Qed.

Lemma generateProbabilities_rounded_exact (s : Substrate) :
  generateProbabilities_rounded (fun q => q) s = generateProbabilities s.
Proof.
  unfold generateProbabilities_rounded, generateProbabilities.
  destruct (Nat.eqb (numConformers s) 1); [reflexivity|].
  unfold generateProbabilities_general_rounded, generateProbabilities_general.
  cbv zeta. rewrite !rounded_exact.
  assert (Hsc : forall s0 lowest spread,
            scaledEnergies_rounded (fun q => q) s0 lowest spread
            = scaledEnergies s0 lowest spread).
  { intros s0 lowest spread. unfold scaledEnergies_rounded, scaledEnergies.
    apply map_ext. intros i. apply rounded_exact. }
  rewrite Hsc, complementAndSum_rounded_exact.
  destruct (complementAndSum _ _) as [probs sum].
  rewrite cumulate_rounded_exact. do 2 f_equal.
  unfold normalize_rounded, normalize. apply map_ext. intros p.
  apply rounded_exact.
Qed.

(** A rounding for the examples: up to the next multiple of 1/1024. *)
Definition example_rnd (q : Q) : Q :=
  inject_Z (Qceiling (q * 1024)) / 1024.

Lemma example_rnd_mono a b : a <= b -> example_rnd a <= example_rnd b.
Proof.
  intros H. unfold example_rnd. apply Qdiv_le_mono; [reflexivity|].
  rewrite <- Zle_Qle. apply Qceiling_resp_le. lra.
Qed.

Lemma example_rnd_idem a : example_rnd (example_rnd a) == example_rnd a.
Proof.
  unfold example_rnd at 1 3.
  assert (E : example_rnd a * 1024 == inject_Z (Qceiling (a * 1024)))
    by (unfold example_rnd; field).
  rewrite E, Qceiling_Z. reflexivity.
Qed.

Lemma example_rnd_pos a : 0 < a -> 0 < example_rnd a.
Proof.
  intros H. unfold example_rnd. apply Qdiv_pos; [|reflexivity].
  pose proof (Qle_ceiling (a * 1024)). lra.
Qed.

Lemma generateProbabilities_cumulative_distribution_witness :
  let probs :=
    m_probs (generateProbabilities_rounded example_rnd example_substrate) in
  length probs = numConformers example_substrate
  /\ (forall i x, probs !! i = Some x -> exists q, x = Fin q /\ 0 < q)
  /\ (forall i j x y, (i <= j)%nat ->
        probs !! i = Some (Fin x) -> probs !! j = Some (Fin y) -> x <= y).
Proof.
  apply (generateProbabilities_cumulative_distribution example_rnd
           example_rnd_mono example_rnd_idem ltac:(reflexivity)
           ltac:(reflexivity) example_rnd_pos example_substrate 1 0);
    [vm_compute; lia|vm_compute; lia|vm_compute; reflexivity].
Defined.

Lemma chosenIndex_selects_conformer_witness :
  let probs :=
    m_probs (generateProbabilities_rounded example_rnd example_substrate) in
  let ind := chosenIndex (Fin (1 # 2)) probs 0 in
  (ind <= numConformers example_substrate)%nat
  /\ (forall i p, (i < ind)%nat -> probs !! i = Some (Fin p) -> p <= 1 # 2)
  /\ ((ind < numConformers example_substrate)%nat ->
      exists p, probs !! ind = Some (Fin p) /\ 1 # 2 < p)
  /\ ((ind < numConformers example_substrate)%nat
      <-> exists q, last probs = Some (Fin q) /\ 1 # 2 < q).
Proof.
  apply (chosenIndex_selects_conformer example_rnd
           example_rnd_mono example_rnd_idem ltac:(reflexivity)
           ltac:(reflexivity) example_rnd_pos example_substrate 1 0 (1 # 2));
    [vm_compute; lia|vm_compute; lia|vm_compute; reflexivity].
Defined.

(** With this rounding the list of the source's example ends above 1;
    the list computed with exact numbers ends at 1. *)
Example generateProbabilities_rounded_example :
  (exists q,
      last (m_probs (generateProbabilities_rounded example_rnd
                       example_substrate)) = Some (Fin q)
      /\ 1 < q)
  /\ (exists q,
        last (m_probs (generateProbabilities example_substrate))
        = Some (Fin q)
        /\ q == 1).
Proof.
  split; eexists; (split; [vm_compute; reflexivity|]); vm_compute;
    reflexivity.
Qed.

End SubstrateProps.

(** ** XtalOpt: structures and settings *)

Module Structure.

(** [Structure::State].  Modelled from the spec: the header that declares
    the enumeration is not among the sources; the specification lists
    these ten values. *)
Inductive State : Type :=
| Empty
| WaitingForOptimization
| Submitted
| InProcess
| StepOptimized
| Optimized
| Duplicate
| Error
| Killed
| Removed.

Definition State_eqb (s t : State) : bool :=
  match s, t with
  | Empty, Empty | WaitingForOptimization, WaitingForOptimization
  | Submitted, Submitted | InProcess, InProcess
  | StepOptimized, StepOptimized | Optimized, Optimized
  | Duplicate, Duplicate | Error, Error | Killed, Killed
  | Removed, Removed => true
  | _, _ => false
  end.

(** The unit cell: three lengths and three angles in degrees, as the
    getters [getA] ... [getGamma] return them.  The code tests them for
    NaN and infinity, so they are [dbl]. *)
Record Cell : Type := mkCell {
  cell_a : dbl; cell_b : dbl; cell_c : dbl;
  cell_alpha : dbl; cell_beta : dbl; cell_gamma : dbl
}.

Record Atom : Type := mkAtom {
  atomicNumber : nat;
  pos : Q * Q * Q
}.

(** The [Avogadro::Molecule] part of a structure: unit cell and atoms. *)
Record Molecule : Type := mkMolecule {
  cell : Cell;
  atoms : list Atom
}.

(** An [Xtal] : [Structure] : [Molecule].  [energy] and [enthalpy] are
    [None] while invalid. *)
Record Xtal : Type := mkXtal {
  mol : Molecule;
  spacegroup : nat;
  status : State;
  generation : nat;
  idNumber : nat;
  index : nat;
  parents : string;
  duplicateString : string;
  energy : option Q;
  enthalpy : option Q;
  PV : Q;
  currentOptStep : nat;
  failCount : nat;
  fileName : string;
  rempath : string
}.

Definition setMol (m : Molecule) (x : Xtal) : Xtal :=
  mkXtal m (spacegroup x) (status x) (generation x) (idNumber x) (index x)
         (parents x) (duplicateString x) (energy x) (enthalpy x) (PV x)
         (currentOptStep x) (failCount x) (fileName x) (rempath x).

Definition setSpacegroup (n : nat) (x : Xtal) : Xtal :=
  mkXtal (mol x) n (status x) (generation x) (idNumber x) (index x)
         (parents x) (duplicateString x) (energy x) (enthalpy x) (PV x)
         (currentOptStep x) (failCount x) (fileName x) (rempath x).

Definition setStatus (s : State) (x : Xtal) : Xtal :=
  mkXtal (mol x) (spacegroup x) s (generation x) (idNumber x) (index x)
         (parents x) (duplicateString x) (energy x) (enthalpy x) (PV x)
         (currentOptStep x) (failCount x) (fileName x) (rempath x).

Definition setGeneration (g : nat) (x : Xtal) : Xtal :=
  mkXtal (mol x) (spacegroup x) (status x) g (idNumber x) (index x)
         (parents x) (duplicateString x) (energy x) (enthalpy x) (PV x)
         (currentOptStep x) (failCount x) (fileName x) (rempath x).

Definition setIDNumber (i : nat) (x : Xtal) : Xtal :=
  mkXtal (mol x) (spacegroup x) (status x) (generation x) i (index x)
         (parents x) (duplicateString x) (energy x) (enthalpy x) (PV x)
         (currentOptStep x) (failCount x) (fileName x) (rempath x).

Definition setIndex (i : nat) (x : Xtal) : Xtal :=
  mkXtal (mol x) (spacegroup x) (status x) (generation x) (idNumber x) i
         (parents x) (duplicateString x) (energy x) (enthalpy x) (PV x)
         (currentOptStep x) (failCount x) (fileName x) (rempath x).

Definition setParents (p : string) (x : Xtal) : Xtal :=
  mkXtal (mol x) (spacegroup x) (status x) (generation x) (idNumber x)
         (index x) p (duplicateString x) (energy x) (enthalpy x) (PV x)
         (currentOptStep x) (failCount x) (fileName x) (rempath x).

Definition setDuplicateString (d : string) (x : Xtal) : Xtal :=
  mkXtal (mol x) (spacegroup x) (status x) (generation x) (idNumber x)
         (index x) (parents x) d (energy x) (enthalpy x) (PV x)
         (currentOptStep x) (failCount x) (fileName x) (rempath x).

Definition setPV (v : Q) (x : Xtal) : Xtal :=
  mkXtal (mol x) (spacegroup x) (status x) (generation x) (idNumber x)
         (index x) (parents x) (duplicateString x) (energy x) (enthalpy x) v
         (currentOptStep x) (failCount x) (fileName x) (rempath x).

Definition setCurrentOptStep (n : nat) (x : Xtal) : Xtal :=
  mkXtal (mol x) (spacegroup x) (status x) (generation x) (idNumber x)
         (index x) (parents x) (duplicateString x) (energy x) (enthalpy x)
         (PV x) n (failCount x) (fileName x) (rempath x).

Definition setFileName (f : string) (x : Xtal) : Xtal :=
  mkXtal (mol x) (spacegroup x) (status x) (generation x) (idNumber x)
         (index x) (parents x) (duplicateString x) (energy x) (enthalpy x)
         (PV x) (currentOptStep x) (failCount x) f (rempath x).

Definition setRempath (r : string) (x : Xtal) : Xtal :=
  mkXtal (mol x) (spacegroup x) (status x) (generation x) (idNumber x)
         (index x) (parents x) (duplicateString x) (energy x) (enthalpy x)
         (PV x) (currentOptStep x) (failCount x) (fileName x) r.

(** Modelled from the spec: [Structure::resetEnergy], [resetEnthalpy] and
    [resetFailCount] are declared in a header that is not among the
    sources.  The specification has the energies "invalid until the first
    relaxation step completes" and has [replace_with_random] "reset
    energies/enthalpy/PV" and set [fail_count] to 0: a reset returns the
    value to its initial, invalid state. *)
Definition resetEnergy (x : Xtal) : Xtal :=
  mkXtal (mol x) (spacegroup x) (status x) (generation x) (idNumber x)
         (index x) (parents x) (duplicateString x) None (enthalpy x) (PV x)
         (currentOptStep x) (failCount x) (fileName x) (rempath x).

Definition resetEnthalpy (x : Xtal) : Xtal :=
  mkXtal (mol x) (spacegroup x) (status x) (generation x) (idNumber x)
         (index x) (parents x) (duplicateString x) (energy x) None (PV x)
         (currentOptStep x) (failCount x) (fileName x) (rempath x).

Definition resetFailCount (x : Xtal) : Xtal :=
  mkXtal (mol x) (spacegroup x) (status x) (generation x) (idNumber x)
         (index x) (parents x) (duplicateString x) (energy x) (enthalpy x)
         (PV x) (currentOptStep x) 0 (fileName x) (rempath x).

(** The settings of an [XtalOpt] session that the functions below read
    (public members of the class). *)
Record Settings : Type := mkSettings {
  a_min : Q; a_max : Q; b_min : Q; b_max : Q; c_min : Q; c_max : Q;
  alpha_min : Q; alpha_max : Q; beta_min : Q; beta_max : Q;
  gamma_min : Q; gamma_max : Q;
  vol_min : Q; vol_max : Q; vol_fixed : Q;
  using_fixed_volume : bool;
  using_shortestInteratomicDistance : bool;
  shortestInteratomicDistance : Q;
  tol_enthalpy : Q; tol_volume : Q; tol_spg : Q;
  comp : list (nat * nat);
  popSize : nat;
  p_cross : Q; p_strip : Q; p_perm : Q;
  cross_minimumContribution : Q;
  strip_strainStdev_min : Q; strip_strainStdev_max : Q;
  strip_amp_min : Q; strip_amp_max : Q;
  strip_per1 : nat; strip_per2 : nat;
  perm_strainStdev_max : Q; perm_ex : nat;
  filePath : string; rempath_base : string
}.

End Structure.
Export Structure.

(** ** XtalOpt: validation of a candidate ([XtalOpt::checkXtal]) *)

Module CheckXtal.

Definition dabs (x : dbl) : dbl :=
  match x with
  | Fin q => Fin (Qabs q)
  | PInf | NInf => PInf
  | NaN => NaN
  end.

(** Modelled from the spec: the macro [GS_IS_NAN_OR_INF] comes from
    [globalsearch/macros.h], which is not among the sources; the
    specification reads it as "any lattice component NaN/∞". *)
Definition GS_IS_NAN_OR_INF (x : dbl) : bool :=
  match x with
  | Fin _ => false
  | _ => true
  end.

(** C's [fmod(v, 1)]: the remainder of the division truncated toward
    zero; it has the sign of [v]. *)
Definition fmod1 (v : Q) : Q := v - inject_Z (double_to_int v).

Definition tiny : Q := 1 # 100000000.

Section WithCrystalLibrary.

(** Methods of [Xtal] and of OpenBabel's unit cell that the engine calls;
    their code is outside the repository. *)
Variable getVolume : Molecule -> Q.
Variable setVolume : Q -> Molecule -> Molecule.
Variable rescaleCell : Q -> Q -> Q -> Q -> Q -> Q -> Molecule -> Molecule.
Variable fixAngles : Molecule -> Molecule.
Variable getShortestInteratomicDistance : Molecule -> option Q.

Variable opt : Settings.

Definition getA (x : Xtal) : dbl := cell_a (cell (mol x)).
Definition getB (x : Xtal) : dbl := cell_b (cell (mol x)).
Definition getC (x : Xtal) : dbl := cell_c (cell (mol x)).
Definition getAlpha (x : Xtal) : dbl := cell_alpha (cell (mol x)).
Definition getBeta (x : Xtal) : dbl := cell_beta (cell (mol x)).
Definition getGamma (x : Xtal) : dbl := cell_gamma (cell (mol x)).

(** The value the range branch rescales to (lines 623-624). *)
Definition newvol (v : Q) : Q :=
  let newvol := Qabs (fmod1 v) * (vol_max opt - vol_min opt) + vol_min opt in
  if Qltb (Qabs newvol) tiny
  then (vol_max opt - vol_min opt) * (1 # 2) + vol_min opt
  else newvol.

(** "Check volume" (lines 613-628). *)
Definition checkVolume (x : Xtal) : Xtal :=
  if using_fixed_volume opt then
    setMol (setVolume (vol_fixed opt) (mol x)) x
  else if Qltb (getVolume (mol x)) (vol_min opt)
          || Qltb (vol_max opt) (getVolume (mol x)) then
    setMol (setVolume (newvol (getVolume (mol x))) (mol x)) x
  else x.

(** A parameter whose bounds coincide is fixed to that value; [0] stands
    for "not fixed" (lines 631-638). *)
Definition fixedParameter (lo hi : Q) : Q :=
  if Qeq_bool lo hi then lo else 0.

Definition unrealistic (p : dbl) : bool :=
  GS_IS_NAN_OR_INF p || dltb (dabs p) (Fin tiny).

(** One disjunct of "Check lattice": [!a && (getA() < a_min || getA() > a_max)]. *)
Definition outOfBounds (fixed : Q) (p : dbl) (lo hi : Q) : bool :=
  Qeq_bool fixed 0 && (dltb p (Fin lo) || dltb (Fin hi) p).

(** The checks after the volume (lines 630-687). *)
Definition checkLattice (x : Xtal) : bool * Xtal :=
  let a := fixedParameter (a_min opt) (a_max opt) in
  let b := fixedParameter (b_min opt) (b_max opt) in
  let c := fixedParameter (c_min opt) (c_max opt) in
  let alpha := fixedParameter (alpha_min opt) (alpha_max opt) in
  let beta := fixedParameter (beta_min opt) (beta_max opt) in
  let gamma := fixedParameter (gamma_min opt) (gamma_max opt) in
  let x := setMol (rescaleCell a b c alpha beta gamma (mol x)) x in
  if unrealistic (getA x) || unrealistic (getB x) || unrealistic (getC x)
     || unrealistic (getAlpha x) || unrealistic (getBeta x)
     || unrealistic (getGamma x)
  then (false, x)
  else
    let x := setMol (fixAngles (mol x)) x in
    if outOfBounds a (getA x) (a_min opt) (a_max opt)
       || outOfBounds b (getB x) (b_min opt) (b_max opt)
       || outOfBounds c (getC x) (c_min opt) (c_max opt)
       || outOfBounds alpha (getAlpha x) (alpha_min opt) (alpha_max opt)
       || outOfBounds beta (getBeta x) (beta_min opt) (beta_max opt)
       || outOfBounds gamma (getGamma x) (gamma_min opt) (gamma_max opt)
    then (false, x)
    else if using_shortestInteratomicDistance opt then
      match getShortestInteratomicDistance (mol x) with
      | Some distance =>
          if Qltb distance (shortestInteratomicDistance opt)
          then (false, x) else (true, x)
      | None => (true, x)
      end
    else (true, x).

(** [XtalOpt::checkXtal].  The argument is a pointer: [None] is the null
    pointer.  The candidate is modified in place, so it is returned
    beside the verdict. *)
Definition checkXtal (xtal : option Xtal) : bool * option Xtal :=
  match xtal with
  | None => (false, None)
  | Some x =>
      if State_eqb (status x) Empty then (false, Some x)
      else
        let '(ok, x) := checkLattice (checkVolume x) in (ok, Some x)
  end.

(** What the specification says the range branch rescales to:
    [((V mod 1) * (vmax - vmin)) + vmin], or the midpoint of the range
    when that value is below [1e-8] in absolute value. *)
Definition salvagedVolume (vmin vmax V : Q) : Q :=
  let v := (V - inject_Z (Qfloor V)) * (vmax - vmin) + vmin in
  if Qltb (Qabs v) tiny then (vmax - vmin) / 2 + vmin else v.

(** Checking goes on with the candidate [y]: the verdict is that of the
    checks that follow the volume. *)
Definition continueWith (y : Xtal) : bool * option Xtal :=
  let '(ok, x) := checkLattice y in (ok, Some x).

Lemma fmod1_nonneg (v : Q) :
  0 <= v -> Qabs (fmod1 v) == v - inject_Z (Qfloor v).
Proof.
  intros Hv. unfold fmod1, double_to_int.
  assert (E : (Qnum v ÷ Z.pos (Qden v))%Z = Qfloor v).
  { destruct v as [n d]. simpl. apply Z.quot_div_nonneg; [|lia].
    unfold Qle in Hv. simpl in Hv. lia. }
  rewrite E. apply Qabs_pos. pose proof (Qfloor_le v). lra.
Qed.

Lemma Qltb_compat (a a' b : Q) : a == a' -> Qltb a b = Qltb a' b.
Proof.
  intros E. destruct (Qltb a' b) eqn:H.
  - apply Qltb_lt. apply Qltb_lt in H. lra.
  - apply Qltb_ge. apply Qltb_ge in H. lra.
Qed.

Lemma newvol_salvagedVolume (v : Q) :
  0 <= v -> newvol v == salvagedVolume (vol_min opt) (vol_max opt) v.
Proof.
  intros Hv. unfold newvol, salvagedVolume.
  pose proof (fmod1_nonneg v Hv) as E.
  set (n1 := Qabs (fmod1 v) * (vol_max opt - vol_min opt) + vol_min opt).
  set (n2 := (v - inject_Z (Qfloor v)) * (vol_max opt - vol_min opt)
             + vol_min opt).
  assert (E12 : n1 == n2) by (unfold n1, n2; rewrite E; reflexivity).
  rewrite (Qltb_compat (Qabs n1) (Qabs n2) tiny) by (now rewrite E12).
  destruct (Qltb (Qabs n2) tiny); [|exact E12].
  unfold Qdiv. change (/ 2) with (1 # 2). reflexivity.
Qed.

(** C4.  In range-volume mode a candidate whose volume [V] lies outside
    [[vol_min, vol_max]] is not rejected for it: its cell is rescaled to
    [(V mod 1) * (vol_max - vol_min) + vol_min], or to the midpoint of the
    range when that value is below [1e-8] in absolute value, and checking
    goes on with the rescaled candidate.  A candidate whose volume is in
    the range is left as it is, and in fixed-volume mode the cell is
    rescaled to [vol_fixed] whatever its volume.  ([V mod 1] is computed
    as [fabs(fmod(V, 1))], the fractional part of a volume [V >= 0].) *)
Theorem checkXtal_salvages_volume (x : Xtal) :
  status x <> Empty ->
  let V := getVolume (mol x) in
  (using_fixed_volume opt = false ->
   V < vol_min opt \/ vol_max opt < V ->
   checkXtal (Some x)
   = continueWith (setMol (setVolume (newvol V) (mol x)) x)
   /\ (0 <= V -> newvol V == salvagedVolume (vol_min opt) (vol_max opt) V))
  /\ (using_fixed_volume opt = false ->
      vol_min opt <= V -> V <= vol_max opt ->
      checkXtal (Some x) = continueWith x)
  /\ (using_fixed_volume opt = true ->
      checkXtal (Some x)
      = continueWith (setMol (setVolume (vol_fixed opt) (mol x)) x)).
Proof.
  intros Hst V.
  assert (Hne : State_eqb (status x) Empty = false)
    by (destruct (status x) eqn:E; try reflexivity; congruence).
  unfold checkXtal, continueWith, checkVolume. rewrite Hne. fold V.
  split; [|split].
  - intros Hmode Hout. rewrite Hmode. split.
    + assert (Hb : Qltb V (vol_min opt) || Qltb (vol_max opt) V = true).
      { apply orb_true_iff. destruct Hout as [H|H];
          [left|right]; now apply Qltb_lt. }
      now rewrite Hb.
    + apply newvol_salvagedVolume.
  - intros Hmode Hlo Hhi. rewrite Hmode.
    apply Qltb_ge in Hlo, Hhi. now rewrite Hlo, Hhi.
  - intros Hmode. now rewrite Hmode.
Qed.

(** *** What an accepted candidate satisfies *)

(** A lattice parameter that is neither below [lo] nor above [hi]. *)
Definition withinBounds (p : dbl) (lo hi : Q) : Prop :=
  dltb p (Fin lo) = false /\ dltb (Fin hi) p = false.

(** A lattice parameter that is a number, not within [1e-8] of zero. *)
Definition realistic (p : dbl) : Prop :=
  exists q, p = Fin q /\ tiny <= Qabs q.

Lemma unrealistic_false p : unrealistic p = false -> realistic p.
Proof.
  unfold unrealistic. intros [H1 H2]%orb_false_iff.
  destruct p as [q| | |]; try discriminate. exists q.
  split; [reflexivity|]. simpl in H2. now apply Qltb_ge.
Qed.

Lemma outOfBounds_false p lo hi :
  outOfBounds (fixedParameter lo hi) p lo hi = false ->
  ~ lo == hi -> withinBounds p lo hi.
Proof.
  unfold outOfBounds, fixedParameter, withinBounds. intros H Hne.
  destruct (Qeq_bool lo hi) eqn:E; [apply Qeq_bool_iff in E; tauto|].
  simpl in H. now apply orb_false_iff in H.
Qed.

(** X6.  A candidate that [checkXtal] accepts is not the null pointer
    and not [Empty]; it comes back as the same structure with another
    molecule, the one [fixAngles] made of a cell whose six parameters
    were numbers not within [1e-8] of zero; every parameter whose limits
    differ is neither below its minimum nor above its maximum, and, when
    the interatomic distance is checked and there is a shortest
    distance, it is not below the limit. *)
Theorem checkXtal_accepts_only_valid (xtal r : option Xtal) :
  checkXtal xtal = (true, r) ->
  exists x y m,
    xtal = Some x /\ r = Some y /\ status x <> Empty
    /\ y = setMol (fixAngles m) x
    /\ (realistic (cell_a (cell m)) /\ realistic (cell_b (cell m))
        /\ realistic (cell_c (cell m)) /\ realistic (cell_alpha (cell m))
        /\ realistic (cell_beta (cell m)) /\ realistic (cell_gamma (cell m)))
    /\ (~ a_min opt == a_max opt ->
        withinBounds (getA y) (a_min opt) (a_max opt))
    /\ (~ b_min opt == b_max opt ->
        withinBounds (getB y) (b_min opt) (b_max opt))
    /\ (~ c_min opt == c_max opt ->
        withinBounds (getC y) (c_min opt) (c_max opt))
    /\ (~ alpha_min opt == alpha_max opt ->
        withinBounds (getAlpha y) (alpha_min opt) (alpha_max opt))
    /\ (~ beta_min opt == beta_max opt ->
        withinBounds (getBeta y) (beta_min opt) (beta_max opt))
    /\ (~ gamma_min opt == gamma_max opt ->
        withinBounds (getGamma y) (gamma_min opt) (gamma_max opt))
    /\ (using_shortestInteratomicDistance opt = true ->
        forall distance,
          getShortestInteratomicDistance (mol y) = Some distance ->
          shortestInteratomicDistance opt <= distance).
Proof.
  unfold checkXtal. destruct xtal as [x|]; [|discriminate].
  destruct (State_eqb (status x) Empty) eqn:Hst; [discriminate|].
  destruct (checkLattice (checkVolume x)) as [ok y] eqn:Hl.
  intros H. injection H as -> <-.
  assert (Hne : status x <> Empty)
    by (intros E; rewrite E in Hst; discriminate).
  unfold checkLattice in Hl. cbv zeta in Hl.
  set (m := rescaleCell (fixedParameter (a_min opt) (a_max opt))
              (fixedParameter (b_min opt) (b_max opt))
              (fixedParameter (c_min opt) (c_max opt))
              (fixedParameter (alpha_min opt) (alpha_max opt))
              (fixedParameter (beta_min opt) (beta_max opt))
              (fixedParameter (gamma_min opt) (gamma_max opt))
              (mol (checkVolume x))) in *.
  match type of Hl with
  | (if ?b then _ else _) = _ => destruct b eqn:Hu
  end; [discriminate|].
  do 5 (apply orb_false_iff in Hu as [Hu ?]).
  match type of Hl with
  | (if ?b then _ else _) = _ => destruct b eqn:Hb
  end; [discriminate|].
  do 5 (apply orb_false_iff in Hb as [Hb ?]).
  set (y0 := setMol (fixAngles (mol (setMol m (checkVolume x))))
                    (setMol m (checkVolume x))) in *.
  assert (Hy0 : y0 = setMol (fixAngles m) x).
  { unfold y0, checkVolume. destruct x.
    destruct (using_fixed_volume opt); [reflexivity|].
    destruct (_ || _); reflexivity. }
  assert (Hy : y = y0 /\
               (using_shortestInteratomicDistance opt = true ->
                forall distance,
                  getShortestInteratomicDistance (mol y0) = Some distance ->
                  shortestInteratomicDistance opt <= distance)).
  { destruct (using_shortestInteratomicDistance opt).
    - destruct (getShortestInteratomicDistance (mol y0)) as [d|] eqn:Hd.
      + destruct (Qltb d (shortestInteratomicDistance opt)) eqn:Hlt;
          [discriminate|]. injection Hl as <-. split; [reflexivity|].
        intros _ d' Hd'. injection Hd' as <-. now apply Qltb_ge.
      + injection Hl as <-. split; [reflexivity|]. intros _ d' Hd'.
        discriminate.
    - injection Hl as <-. split; [reflexivity|]. discriminate. }
  destruct Hy as [-> Hiad].
  exists x, y0, m. split; [reflexivity|]. split; [reflexivity|].
  split; [exact Hne|]. split; [exact Hy0|].
  split; [repeat split; apply unrealistic_false; assumption|].
  repeat (split; [now apply outOfBounds_false|]).
  exact Hiad.
Qed.

(** *** The volume after "Check volume" *)

Lemma fmod1_bound (v : Q) : Qabs (fmod1 v) < 1.
Proof.
  destruct v as [n d]. unfold fmod1, double_to_int. cbn [Qnum Qden].
  assert (E : (n # d) - inject_Z (n ÷ Z.pos d) == Z.rem n (Z.pos d) # d).
  { unfold Qeq, Qminus, Qplus, Qopp, inject_Z. cbn [Qnum Qden].
    pose proof (Z.quot_rem' n (Z.pos d)) as H. nia. }
  rewrite E. cbn [Qabs]. unfold Qlt. cbn [Qnum Qden].
  pose proof (Z.rem_bound_abs n (Z.pos d) ltac:(lia)) as H. lia.
Qed.

Lemma newvol_in_range (v : Q) :
  vol_min opt <= vol_max opt ->
  vol_min opt <= newvol v /\ newvol v <= vol_max opt.
Proof.
  intros Hr. unfold newvol. cbv zeta.
  pose proof (fmod1_bound v) as H1. pose proof (Qabs_nonneg (fmod1 v)) as H0.
  set (f := Qabs (fmod1 v)) in *.
  destruct (Qltb _ tiny); [split; lra|].
  assert (0 <= f * (vol_max opt - vol_min opt))
    by (apply Qmult_le_0_compat; lra).
  assert (f * (vol_max opt - vol_min opt) <= 1 * (vol_max opt - vol_min opt))
    by (apply Qmult_le_compat_r; lra).
  split; lra.
Qed.

(** X23.  The volume a candidate is salvaged to lies in the range:
    with [vol_min <= vol_max], the value computed for any volume is
    between [vol_min] and [vol_max]; so in range-volume mode, when
    [setVolume] gives the candidate that volume, the candidate leaves
    the volume step of [checkXtal] with a volume in the range. *)
Theorem checkVolume_in_range (x : Xtal) :
  vol_min opt <= vol_max opt ->
  (forall V, vol_min opt <= newvol V /\ newvol V <= vol_max opt)
  /\ (using_fixed_volume opt = false ->
      getVolume (setVolume (newvol (getVolume (mol x))) (mol x))
      == newvol (getVolume (mol x)) ->
      vol_min opt <= getVolume (mol (checkVolume x))
      /\ getVolume (mol (checkVolume x)) <= vol_max opt).
Proof.
  intros Hr. split; [intros V; now apply newvol_in_range|].
  intros Hmode Hset. unfold checkVolume. rewrite Hmode.
  destruct (Qltb (getVolume (mol x)) (vol_min opt)) eqn:H1; cbn [orb].
  - cbn [mol setMol]. rewrite Hset. now apply newvol_in_range.
  - destruct (Qltb (vol_max opt) (getVolume (mol x))) eqn:H2.
    + cbn [mol setMol]. rewrite Hset. now apply newvol_in_range.
    + apply Qltb_ge in H1, H2. split; assumption.
Qed.

End WithCrystalLibrary.

(** An instance of the crystal library for orthorhombic cells, to run
    the engine on examples: the volume is the product of the lengths, a
    change of volume scales the length [a], a parameter is rescaled to
    its fixed value, and the angles need no fixing. *)
Definition finite_or (d : Q) (x : dbl) : Q :=
  match x with Fin q => q | _ => d end.

Definition ortho_getVolume (m : Molecule) : Q :=
  finite_or 0 (cell_a (cell m)) * finite_or 0 (cell_b (cell m))
  * finite_or 0 (cell_c (cell m)).

Definition ortho_setVolume (v : Q) (m : Molecule) : Molecule :=
  let c := cell m in
  mkMolecule
    (mkCell (ddiv (Fin v) (Fin (finite_or 0 (cell_b c) * finite_or 0 (cell_c c))))
            (cell_b c) (cell_c c) (cell_alpha c) (cell_beta c) (cell_gamma c))
    (atoms m).

Definition rescaled (fixed : Q) (p : dbl) : dbl :=
  if Qeq_bool fixed 0 then p else Fin fixed.

Definition ortho_rescaleCell (a b c alpha beta gamma : Q) (m : Molecule)
  : Molecule :=
  let k := cell m in
  mkMolecule
    (mkCell (rescaled a (cell_a k)) (rescaled b (cell_b k))
            (rescaled c (cell_c k)) (rescaled alpha (cell_alpha k))
            (rescaled beta (cell_beta k)) (rescaled gamma (cell_gamma k)))
    (atoms m).

Definition ortho_fixAngles (m : Molecule) : Molecule := m.

Definition ortho_shortestDistance (m : Molecule) : option Q := None.

Definition ortho_checkXtal : Settings -> option Xtal -> bool * option Xtal :=
  checkXtal ortho_getVolume ortho_setVolume ortho_rescaleCell
            ortho_fixAngles ortho_shortestDistance.

(** Scenario S1 of the specification: lengths in [3,5], angles in
    [80,100], volume in [30,120]. *)
Definition example_settings : Settings :=
  mkSettings 3 5 3 5 3 5 80 100 80 100 80 100
             30 120 64 false false (3 # 2)
             (1 # 100) (1 # 10) (1 # 20)
             [(14%nat, 4%nat)] 10
             15 50 35 25 (1 # 2) (1 # 2) (1 # 2) 1 1%nat 1%nat (1 # 2) 4
             "/tmp/session" "/remote/session".

Definition example_molecule (a b c : Q) : Molecule :=
  mkMolecule (mkCell (Fin a) (Fin b) (Fin c) (Fin 90) (Fin 90) (Fin 90)) [].

Definition example_xtal (a b c : Q) : Xtal :=
  mkXtal (example_molecule a b c) 0 WaitingForOptimization 1 1 0
         "Randomly generated" "" None None 0 1 0 "" "".

(** A candidate of volume 122.5 against the range [30, 120]: rescaled to
    0.5 * 90 + 30 = 75, and accepted. *)
Lemma checkXtal_salvages_volume_witness :
  ortho_checkXtal example_settings (Some (example_xtal 5 5 (49 # 10)))
  = continueWith ortho_rescaleCell ortho_fixAngles ortho_shortestDistance
      example_settings
      (setMol (ortho_setVolume
                 (newvol example_settings
                    (ortho_getVolume (example_molecule 5 5 (49 # 10))))
                 (example_molecule 5 5 (49 # 10)))
              (example_xtal 5 5 (49 # 10)))
  /\ (0 <= ortho_getVolume (example_molecule 5 5 (49 # 10)) ->
      newvol example_settings
        (ortho_getVolume (example_molecule 5 5 (49 # 10)))
      == salvagedVolume 30 120
           (ortho_getVolume (example_molecule 5 5 (49 # 10)))).
Proof.
  apply (proj1 (checkXtal_salvages_volume ortho_getVolume ortho_setVolume
                  ortho_rescaleCell ortho_fixAngles ortho_shortestDistance
                  example_settings (example_xtal 5 5 (49 # 10))
                  ltac:(discriminate))).
  - reflexivity.
  - right. reflexivity.
Defined.

Lemma checkVolume_in_range_witness :
  30 <= ortho_getVolume
          (mol (checkVolume ortho_getVolume ortho_setVolume example_settings
                            (example_xtal 5 5 (49 # 10))))
  /\ ortho_getVolume
       (mol (checkVolume ortho_getVolume ortho_setVolume example_settings
                         (example_xtal 5 5 (49 # 10)))) <= 120.
Proof.
  apply (proj2 (checkVolume_in_range ortho_getVolume ortho_setVolume
                  example_settings (example_xtal 5 5 (49 # 10))
                  ltac:(vm_compute; discriminate))).
  - reflexivity.
  - vm_compute. reflexivity.
Defined.

Lemma checkXtal_accepts_only_valid_witness :
  exists x y m,
    Some (example_xtal 4 4 4) = Some x
    /\ Some (example_xtal 4 4 4) = Some y
    /\ status x <> Empty
    /\ y = setMol (ortho_fixAngles m) x
    /\ withinBounds (getA y) 3 5
    /\ withinBounds (getGamma y) 80 100.
Proof.
  destruct (checkXtal_accepts_only_valid
              ortho_getVolume ortho_setVolume ortho_rescaleCell
              ortho_fixAngles ortho_shortestDistance example_settings
              (Some (example_xtal 4 4 4)) (Some (example_xtal 4 4 4))
              eq_refl)
    as (x & y & m & Hx & Hy & Hst & Hm & _ & Ha & _ & _ & _ & _ & Hg & _).
  exists x, y, m.
  exact (conj Hx (conj Hy (conj Hst (conj Hm
           (conj (Ha ltac:(discriminate)) (Hg ltac:(discriminate))))))).
Defined.

Example checkXtal_salvaged_accepted :
  fst (ortho_checkXtal example_settings (Some (example_xtal 5 5 (49 # 10))))
  = true
  /\ newvol example_settings (245 # 2) == 75.
Proof. split; reflexivity. Qed.

End CheckXtal.

(** ** XtalOpt: the duplicate scan ([XtalOpt::checkForDuplicates_]) *)

Module Duplicates.

(** The fingerprint of a crystal: the [QHash] that [getFingerprint]
    returns, read by the scan at the keys "spacegroup" ([toUInt]),
    "enthalpy" and "volume" ([toDouble]). *)
Record Fingerprint : Type := mkFingerprint {
  fp_spacegroup : nat;
  fp_enthalpy : Q;
  fp_volume : Q
}.

(** [QString("%1x%2").arg(generation).arg(id)] *)
Definition GxI (x : Xtal) : string :=
  pretty (generation x) +:+ "x" +:+ pretty (idNumber x).

Section Scan.

(** [Xtal::getFingerprint] is outside the sources. *)
Variable getFingerprint : Xtal -> Fingerprint.
Variable opt : Settings.

(** The hash [limits], as the pairs of a fingerprint key and its
    tolerance; the loop over its keys visits both. *)
Definition limits : list ((Fingerprint -> Q) * Q) :=
  [(fp_enthalpy, tol_enthalpy opt); (fp_volume, tol_volume opt)].

(** [fps.at(i)] and [states.at(i)]; the scan only reads below [fps.size()]. *)
Definition fp_at (fps : list Fingerprint) (i : nat) : Fingerprint :=
  default (mkFingerprint 0 0 0) (fps !! i).

Definition state_at (states : list State) (i : nat) : State :=
  default Empty (states !! i).

(** "Check limits" (lines 1219-1229): [match] stays true unless some
    value differs by more than its limit. *)
Definition withinLimits (fp_i fp_j : Fingerprint) : bool :=
  forallb (fun '(value, limit) =>
             negb (Qltb limit (Qabs (value fp_i - value fp_j))))
          limits.

(** The branch taken when [fp_i]'s enthalpy is the greater
    (lines 1236-1243): mark [i] a duplicate of [j]. *)
Definition markFirst (i j : nat) (structures : list Xtal) : list Xtal :=
  match structures !! j with
  | Some xtal_j =>
      alter (fun xtal_i =>
               setDuplicateString (GxI xtal_j) (setStatus Duplicate xtal_i))
            i structures
  | None => structures
  end.

(** The other branch (lines 1247-1254): mark [j] a duplicate of [i]. *)
Definition markSecond (i j : nat) (structures : list Xtal) : list Xtal :=
  match structures !! i with
  | Some xtal_i =>
      alter (fun xtal_j =>
               setDuplicateString (GxI xtal_i) (setStatus Duplicate xtal_j))
            j structures
  | None => structures
  end.

(** The inner loop over [j], for the remaining values [js] of [j].  It
    returns the structures and, as a record of the run, the pairs whose
    turn in the loop came: [(i, j, true)] when the pair was found to
    match, [(i, j, false)] when the loop went on to the next [j]. *)
Fixpoint scanInner (fps : list Fingerprint) (states : list State)
    (i : nat) (js : list nat) (structures : list Xtal)
  : list Xtal * list (nat * nat * bool) :=
  match js with
  | [] => (structures, [])
  | j :: js' =>
      let continue :=
        let '(structures', trace) :=
          scanInner fps states i js' structures in
        (structures', (i, j, false) :: trace) in
      if negb (State_eqb (state_at states j) Optimized) then continue
      else if Nat.eqb (fp_spacegroup (fp_at fps j)) 0 then continue
      else if negb (Nat.eqb (fp_spacegroup (fp_at fps i))
                            (fp_spacegroup (fp_at fps j))) then continue
      else if negb (withinLimits (fp_at fps i) (fp_at fps j)) then continue
      else if Qltb (fp_enthalpy (fp_at fps j)) (fp_enthalpy (fp_at fps i))
      then
        (* break *)
        (markFirst i j structures, [(i, j, true)])
      else
        let '(structures', trace) :=
          scanInner fps states i js' (markSecond i j structures) in
        (structures', (i, j, true) :: trace)
  end.

(** The outer loop over [i]. *)
Fixpoint scanOuter (fps : list Fingerprint) (states : list State)
    (idxs : list nat) (structures : list Xtal)
  : list Xtal * list (nat * nat * bool) :=
  match idxs with
  | [] => (structures, [])
  | i :: idxs' =>
      if negb (State_eqb (state_at states i) Optimized) then
        scanOuter fps states idxs' structures
      else if Nat.eqb (fp_spacegroup (fp_at fps i)) 0 then
        scanOuter fps states idxs' structures
      else
        let '(structures', trace) :=
          scanInner fps states i
                    (seq (i + 1) (length fps - (i + 1))) structures in
        let '(structures'', trace') :=
          scanOuter fps states idxs' structures' in
        (structures'', trace ++ trace')
  end.

(** [XtalOpt::checkForDuplicates_] on the tracker's list: the
    fingerprints and states are copied first, then the pairs are
    scanned. *)
Definition checkForDuplicates_ (structures : list Xtal)
  : list Xtal * list (nat * nat * bool) :=
  let fps := map getFingerprint structures in
  let states := map status structures in
  scanOuter fps states (seq 0 (length fps)) structures.

(** *** The specification's side *)

(** The pair [i < j] matches: both optimized, same known space group,
    enthalpy and volume within their tolerances. *)
Definition matching (structures : list Xtal) (i j : nat) : Prop :=
  (i < j)%nat /\
  exists xi xj,
    structures !! i = Some xi /\ structures !! j = Some xj /\
    status xi = Optimized /\ status xj = Optimized /\
    fp_spacegroup (getFingerprint xi) <> 0%nat /\
    fp_spacegroup (getFingerprint xj) <> 0%nat /\
    fp_spacegroup (getFingerprint xi) = fp_spacegroup (getFingerprint xj) /\
    Qabs (fp_enthalpy (getFingerprint xi) - fp_enthalpy (getFingerprint xj))
      <= tol_enthalpy opt /\
    Qabs (fp_volume (getFingerprint xi) - fp_volume (getFingerprint xj))
      <= tol_volume opt.

(** Of a pair, the one to mark: the one of higher enthalpy, and the one
    of larger index when the enthalpies tie. *)
Definition loser (structures : list Xtal) (i j : nat) : nat :=
  let e k := fp_enthalpy (fp_at (map getFingerprint structures) k) in
  if Qltb (e j) (e i) then i
  else if Qltb (e i) (e j) then j
  else Nat.max i j.

Definition winner (structures : list Xtal) (i j : nat) : nat :=
  if Nat.eqb (loser structures i j) i then j else i.

(** Mark [l] a duplicate of [w]: only position [l] changes, and there
    only the status and [duplicate_of]. *)
Definition markDuplicateOf (l w : nat) (structures : list Xtal)
  : list Xtal :=
  match structures !! l, structures !! w with
  | Some xl, Some xw =>
      <[l := setDuplicateString (GxI xw) (setStatus Duplicate xl)]>
        structures
  | _, _ => structures
  end.

(** The markings the specification asks for, one for each pair of the
    record that was found to match, in the order of the record. *)
Definition markings (snapshot : list Xtal) (trace : list (nat * nat * bool))
    (structures : list Xtal) : list Xtal :=
  foldl (fun s '(i, j, found) =>
           if found : bool
           then markDuplicateOf (loser snapshot i j) (winner snapshot i j) s
           else s)
        structures trace.

(** *** Proofs *)

Lemma alter_as_insert {A} (f : A -> A) (i : nat) (l : list A) :
  alter f i l = match l !! i with Some x => <[i := f x]> l | None => l end.
Proof.
  destruct (l !! i) as [x|] eqn:E; apply list_eq; intros k;
    destruct (decide (i = k)) as [<-|Hne].
  - rewrite list_lookup_alter_eq, E, list_lookup_insert_eq;
      [reflexivity|eapply lookup_lt_Some, E].
  - now rewrite list_lookup_alter_ne, list_lookup_insert_ne.
  - now rewrite list_lookup_alter_eq, E.
  - now rewrite list_lookup_alter_ne.
Qed.

Lemma markFirst_spec i j s : markFirst i j s = markDuplicateOf i j s.
Proof.
  unfold markFirst, markDuplicateOf.
  destruct (s !! j); rewrite ?alter_as_insert; destruct (s !! i); reflexivity.
Qed.

Lemma markSecond_spec i j s : markSecond i j s = markDuplicateOf j i s.
Proof.
  unfold markSecond, markDuplicateOf.
  destruct (s !! i); rewrite ?alter_as_insert; destruct (s !! j); reflexivity.
Qed.

Lemma withinLimits_iff fi fj :
  withinLimits fi fj = true <->
  Qabs (fp_enthalpy fi - fp_enthalpy fj) <= tol_enthalpy opt
  /\ Qabs (fp_volume fi - fp_volume fj) <= tol_volume opt.
Proof.
  unfold withinLimits, limits. simpl.
  rewrite andb_true_r, andb_true_iff, !negb_true_iff, !Qltb_ge. tauto.
Qed.

Lemma State_eqb_eq s t : State_eqb s t = true <-> s = t.
Proof. destruct s, t; simpl; split; congruence. Qed.

Lemma fp_at_lookup (S0 : list Xtal) k x :
  S0 !! k = Some x -> fp_at (map getFingerprint S0) k = getFingerprint x.
Proof.
  intros H. unfold fp_at. rewrite SubstrateProps.lookup_map, H. reflexivity.
Qed.

Lemma state_at_lookup (S0 : list Xtal) k x :
  S0 !! k = Some x -> state_at (map status S0) k = status x.
Proof.
  intros H. unfold state_at. rewrite SubstrateProps.lookup_map, H. reflexivity.
Qed.

(** Every entry of the inner loop's record is a pair of [i] with one of
    the [js]. *)
Lemma scanInner_trace_shape fps states i js s e :
  e ∈ (scanInner fps states i js s).2 ->
  exists j m, e = (i, j, m) /\ j ∈ js.
Proof.
  revert s. induction js as [|j js IH]; intros s; simpl.
  - intros H. now apply elem_of_nil in H.
  - assert (Hc : e ∈ (let '(structures', trace) :=
                       scanInner fps states i js s in
                     (structures', (i, j, false) :: trace)).2 ->
                 exists j0 m, e = (i, j0, m) /\ j0 ∈ j :: js).
    { specialize (IH s). destruct (scanInner fps states i js s) as [s' tr].
      simpl in *. intros [->|H]%elem_of_cons.
      - exists j, false. split; [reflexivity|left].
      - destruct (IH H) as (j0 & m & -> & Hj). exists j0, m.
        split; [reflexivity|now right]. }
    repeat (match goal with |- context [if ?b then _ else _] =>
              destruct b end; [exact Hc|]).
    match goal with |- context [if ?b then _ else _] => destruct b end.
    + simpl. intros ->%list_elem_of_singleton. exists j, true.
      split; [reflexivity|left].
    + specialize (IH (markSecond i j s)).
      destruct (scanInner fps states i js (markSecond i j s)) as [s' tr].
      simpl in *. intros [->|H]%elem_of_cons.
      * exists j, true. split; [reflexivity|left].
      * destruct (IH H) as (j0 & m & -> & Hj). exists j0, m.
        split; [reflexivity|now right].
Qed.

(** The guards of the inner loop's body, taken together: the pair is
    found to match when none of them sends the loop to the next [j]. *)
Definition pairFound (fps : list Fingerprint) (states : list State)
    (i j : nat) : bool :=
  State_eqb (state_at states j) Optimized
  && negb (Nat.eqb (fp_spacegroup (fp_at fps j)) 0)
  && Nat.eqb (fp_spacegroup (fp_at fps i)) (fp_spacegroup (fp_at fps j))
  && withinLimits (fp_at fps i) (fp_at fps j).

Lemma scanInner_cons fps states i j js s :
  scanInner fps states i (j :: js) s =
  if negb (pairFound fps states i j) then
    ((scanInner fps states i js s).1,
     (i, j, false) :: (scanInner fps states i js s).2)
  else if Qltb (fp_enthalpy (fp_at fps j)) (fp_enthalpy (fp_at fps i)) then
    (markFirst i j s, [(i, j, true)])
  else
    ((scanInner fps states i js (markSecond i j s)).1,
     (i, j, true) :: (scanInner fps states i js (markSecond i j s)).2).
Proof.
  unfold pairFound. cbn [scanInner].
  destruct (scanInner fps states i js s) as [s1 t1].
  destruct (scanInner fps states i js (markSecond i j s)) as [s2 t2].
  destruct (State_eqb (state_at states j) Optimized); [|reflexivity].
  destruct (Nat.eqb (fp_spacegroup (fp_at fps j)) 0); [reflexivity|].
  destruct (Nat.eqb (fp_spacegroup (fp_at fps i))
                    (fp_spacegroup (fp_at fps j))); [|reflexivity].
  destruct (withinLimits (fp_at fps i) (fp_at fps j)); reflexivity.
Qed.

Lemma scanOuter_cons fps states i idxs s :
  scanOuter fps states (i :: idxs) s =
  if negb (State_eqb (state_at states i) Optimized)
     || Nat.eqb (fp_spacegroup (fp_at fps i)) 0
  then scanOuter fps states idxs s
  else
    let r := scanInner fps states i
               (seq (i + 1) (length fps - (i + 1))) s in
    ((scanOuter fps states idxs r.1).1,
     r.2 ++ (scanOuter fps states idxs r.1).2).
Proof.
  cbn [scanOuter].
  destruct (State_eqb (state_at states i) Optimized); [|reflexivity].
  destruct (Nat.eqb (fp_spacegroup (fp_at fps i)) 0); [reflexivity|].
  simpl negb. simpl orb. cbv iota.
  destruct (scanInner fps states i _ s) as [s1 t1]. simpl.
  destruct (scanOuter fps states idxs s1) as [s2 t2]. reflexivity.
Qed.

(** The pair found by the guards is a matching pair of the snapshot. *)
Lemma pairFound_matching (S0 : list Xtal) i j xi :
  S0 !! i = Some xi -> status xi = Optimized ->
  fp_spacegroup (getFingerprint xi) <> 0%nat ->
  (i < j)%nat -> (j < length S0)%nat ->
  pairFound (map getFingerprint S0) (map status S0) i j = true
  <-> matching S0 i j.
Proof.
  intros Hi Hsi Hgi Hij Hj.
  destruct (lookup_lt_is_Some_2 S0 j Hj) as [xj Hxj].
  unfold pairFound, matching.
  rewrite (fp_at_lookup S0 i xi Hi), (fp_at_lookup S0 j xj Hxj),
    (state_at_lookup S0 j xj Hxj).
  rewrite !andb_true_iff, State_eqb_eq, negb_true_iff, Nat.eqb_neq,
    Nat.eqb_eq, withinLimits_iff.
  split.
  - intros (((H1 & H2) & H3) & H4 & H5). split; [exact Hij|].
    exists xi, xj. repeat split; assumption.
  - intros (_ & xi' & xj' & Hi' & Hj' & H1 & H2 & H3 & H4 & H5 & H6 & H7).
    rewrite Hi in Hi'. rewrite Hxj in Hj'.
    injection Hi' as <-. injection Hj' as <-. tauto.
Qed.

Lemma loser_first (S0 : list Xtal) i j :
  Qltb (fp_enthalpy (fp_at (map getFingerprint S0) j))
       (fp_enthalpy (fp_at (map getFingerprint S0) i)) = true ->
  loser S0 i j = i /\ winner S0 i j = j.
Proof.
  intros H. unfold winner, loser. rewrite H, Nat.eqb_refl. tauto.
Qed.

Lemma loser_second (S0 : list Xtal) i j :
  (i < j)%nat ->
  Qltb (fp_enthalpy (fp_at (map getFingerprint S0) j))
       (fp_enthalpy (fp_at (map getFingerprint S0) i)) = false ->
  loser S0 i j = j /\ winner S0 i j = i.
Proof.
  intros Hij H. unfold winner, loser. rewrite H.
  assert (E : (if Qltb (fp_enthalpy (fp_at (map getFingerprint S0) i))
                       (fp_enthalpy (fp_at (map getFingerprint S0) j))
               then j else Nat.max i j) = j).
  { clear H. destruct (Qltb _ _); [reflexivity|lia]. }
  rewrite E. destruct (Nat.eqb_spec j i); [lia|tauto].
Qed.

Lemma scanInner_correct (S0 : list Xtal) i xi :
  S0 !! i = Some xi -> status xi = Optimized ->
  fp_spacegroup (getFingerprint xi) <> 0%nat ->
  forall js s,
    (forall j, j ∈ js -> (i < j)%nat /\ (j < length S0)%nat) ->
    forall j m,
      (i, j, m) ∈ (scanInner (map getFingerprint S0) (map status S0) i js s).2 ->
      (m = true <-> matching S0 i j).
Proof.
  intros Hi Hsi Hgi. induction js as [|j0 js IH]; intros s Hjs j m.
  - simpl. intros H. now apply elem_of_nil in H.
  - assert (Hjs' : forall j, j ∈ js -> (i < j)%nat /\ (j < length S0)%nat)
      by (intros k Hk; apply Hjs; now right).
    destruct (Hjs j0) as [Hij0 Hj0]; [left|].
    pose proof (pairFound_matching S0 i j0 xi Hi Hsi Hgi Hij0 Hj0) as Hpf.
    rewrite scanInner_cons.
    destruct (pairFound (map getFingerprint S0) (map status S0) i j0) eqn:Epf;
      simpl negb; cbv iota.
    + assert (Hhead : true = true <-> matching S0 i j0) by tauto.
      destruct (Qltb _ _); simpl.
      * intros H%list_elem_of_singleton. now inversion H; subst.
      * intros [H|H]%elem_of_cons; [now inversion H; subst|eauto].
    + simpl. intros [H|H]%elem_of_cons; [|eauto].
      inversion H; subst. split; [discriminate|].
      intros Hm. apply Hpf in Hm. discriminate.
Qed.

Lemma markings_cons (S0 : list Xtal) i j m tr s :
  markings S0 ((i, j, m) :: tr) s
  = markings S0 tr
      (if m then markDuplicateOf (loser S0 i j) (winner S0 i j) s else s).
Proof. reflexivity. Qed.

Lemma markings_app (S0 : list Xtal) t1 t2 s :
  markings S0 (t1 ++ t2) s = markings S0 t2 (markings S0 t1 s).
Proof. unfold markings. apply foldl_app. Qed.

Lemma scanInner_effect (S0 : list Xtal) i js :
  forall s,
    (forall j, j ∈ js -> (i < j)%nat) ->
    (scanInner (map getFingerprint S0) (map status S0) i js s).1
    = markings S0
        (scanInner (map getFingerprint S0) (map status S0) i js s).2 s.
Proof.
  induction js as [|j0 js IH]; intros s Hjs; [reflexivity|].
  assert (Hjs' : forall j, j ∈ js -> (i < j)%nat)
    by (intros k Hk; apply Hjs; now right).
  assert (Hij0 : (i < j0)%nat) by (apply Hjs; left).
  rewrite scanInner_cons.
  destruct (pairFound _ _ i j0); simpl negb; cbv iota.
  - destruct (Qltb _ _) eqn:E; cbn [fst snd]; rewrite markings_cons.
    + destruct (loser_first S0 i j0 E) as [-> ->].
      now rewrite markFirst_spec.
    + destruct (loser_second S0 i j0 Hij0 E) as [-> ->].
      rewrite <- markSecond_spec. now apply IH.
  - cbn [fst snd]. rewrite markings_cons. now apply IH.
Qed.

Lemma scanInner_break (S0 : list Xtal) i n :
  forall k s, (i < k)%nat ->
    forall j j' m,
      let tr := (scanInner (map getFingerprint S0) (map status S0) i
                           (seq k n) s).2 in
      (i, j, true) ∈ tr -> loser S0 i j = i -> (i, j', m) ∈ tr ->
      (j' <= j)%nat.
Proof.
  induction n as [|n IH]; intros k s Hik j j' m; simpl seq.
  - simpl. intros H. now apply elem_of_nil in H.
  - rewrite scanInner_cons. cbv zeta.
    assert (Hin : forall s' j1 m1,
               (i, j1, m1) ∈ (scanInner (map getFingerprint S0)
                                (map status S0) i (seq (S k) n) s').2 ->
               (k < j1)%nat).
    { intros s' j1 m1 H. apply scanInner_trace_shape in H
        as (j2 & m2 & Heq & Hj2). inversion Heq; subst.
      apply elem_of_seq in Hj2. lia. }
    destruct (pairFound _ _ i k); simpl negb; cbv iota.
    + destruct (Qltb _ _) eqn:E; simpl.
      * intros H1%list_elem_of_singleton _ H2%list_elem_of_singleton.
        inversion H1; inversion H2; subst. lia.
      * intros [H1|H1]%elem_of_cons Hl [H2|H2]%elem_of_cons.
        -- inversion H1; inversion H2; subst. lia.
        -- inversion H1; subst.
           destruct (loser_second S0 i k Hik E) as [Hk _]. lia.
        -- inversion H2; subst. apply Hin in H1. lia.
        -- eapply (IH (S k)); eauto.
    + simpl. intros [H1|H1]%elem_of_cons Hl [H2|H2]%elem_of_cons.
      * inversion H1.
      * inversion H1.
      * inversion H2; subst. apply Hin in H1. lia.
      * eapply (IH (S k)); eauto.
Qed.

Lemma scanOuter_trace_shape fps states idxs :
  forall s i j m,
    (i, j, m) ∈ (scanOuter fps states idxs s).2 -> i ∈ idxs.
Proof.
  induction idxs as [|i0 idxs IH]; intros s i j m.
  - simpl. intros H. now apply elem_of_nil in H.
  - rewrite scanOuter_cons. destruct (_ || _).
    + intros H. right. eapply IH, H.
    + cbv zeta. cbn [fst snd]. intros [H|H]%elem_of_app.
      * apply scanInner_trace_shape in H as (j1 & m1 & Heq & _).
        inversion Heq; subst. left.
      * right. eapply IH, H.
Qed.

Lemma outer_guard (S0 : list Xtal) i :
  (i < length S0)%nat ->
  negb (State_eqb (state_at (map status S0) i) Optimized)
  || Nat.eqb (fp_spacegroup (fp_at (map getFingerprint S0) i)) 0 = false ->
  exists xi, S0 !! i = Some xi /\ status xi = Optimized
             /\ fp_spacegroup (getFingerprint xi) <> 0%nat.
Proof.
  intros Hi Hg. destruct (lookup_lt_is_Some_2 S0 i Hi) as [xi Hxi].
  exists xi. rewrite (state_at_lookup S0 i xi Hxi),
    (fp_at_lookup S0 i xi Hxi) in Hg.
  apply orb_false_iff in Hg as [H1 H2].
  apply negb_false_iff, State_eqb_eq in H1. apply Nat.eqb_neq in H2.
  tauto.
Qed.

Lemma scanOuter_correct (S0 : list Xtal) idxs :
  forall s,
    (forall i, i ∈ idxs -> (i < length S0)%nat) ->
    forall i j m,
      (i, j, m) ∈ (scanOuter (map getFingerprint S0) (map status S0) idxs s).2 ->
      (m = true <-> matching S0 i j).
Proof.
  induction idxs as [|i0 idxs IH]; intros s Hidx i j m.
  - simpl. intros H. now apply elem_of_nil in H.
  - assert (Hidx' : forall i, i ∈ idxs -> (i < length S0)%nat)
      by (intros k Hk; apply Hidx; now right).
    rewrite scanOuter_cons. destruct (_ || _) eqn:Hg; [now apply IH|].
    cbv zeta. cbn [fst snd]. intros [H|H]%elem_of_app; [|eapply IH; eauto].
    destruct (outer_guard S0 i0) as (xi & Hxi & Hs & Hsg);
      [apply Hidx; left|exact Hg|].
    pose proof H as Hsh. apply scanInner_trace_shape in Hsh
      as (j1 & m1 & Heq & _). inversion Heq; subst.
    eapply (scanInner_correct S0 i0 xi Hxi Hs Hsg); [|exact H].
    intros k Hk. apply elem_of_seq in Hk. rewrite length_map in Hk. lia.
Qed.

Lemma scanOuter_effect (S0 : list Xtal) idxs :
  forall s,
    (scanOuter (map getFingerprint S0) (map status S0) idxs s).1
    = markings S0
        (scanOuter (map getFingerprint S0) (map status S0) idxs s).2 s.
Proof.
  induction idxs as [|i0 idxs IH]; intros s; [reflexivity|].
  rewrite scanOuter_cons. destruct (_ || _); [apply IH|].
  cbv zeta. cbn [fst snd]. rewrite markings_app, IH. f_equal.
  apply scanInner_effect. intros k Hk. apply elem_of_seq in Hk. lia.
Qed.

Lemma scanOuter_break (S0 : list Xtal) n :
  forall k s i j j' m,
    let tr := (scanOuter (map getFingerprint S0) (map status S0)
                         (seq k n) s).2 in
    (i, j, true) ∈ tr -> loser S0 i j = i -> (i, j', m) ∈ tr ->
    (j' <= j)%nat.
Proof.
  induction n as [|n IH]; intros k s i j j' m; simpl seq.
  - simpl. intros H. now apply elem_of_nil in H.
  - rewrite scanOuter_cons. cbv zeta. destruct (_ || _); [apply IH|].
    cbn [fst snd].
    assert (Hin : forall s' i1 j1 m1,
               (i1, j1, m1) ∈ (scanInner (map getFingerprint S0)
                                 (map status S0) k
                                 (seq (k + 1)
                                    (length (map getFingerprint S0) - (k + 1)))
                                 s').2 -> i1 = k).
    { intros s' i1 j1 m1 H. apply scanInner_trace_shape in H
        as (j2 & m2 & Heq & _). now inversion Heq. }
    assert (Hout : forall s' i1 j1 m1,
               (i1, j1, m1) ∈ (scanOuter (map getFingerprint S0)
                                 (map status S0) (seq (S k) n) s').2 ->
               (k < i1)%nat).
    { intros s' i1 j1 m1 H. apply scanOuter_trace_shape in H.
      apply elem_of_seq in H. lia. }
    intros [H1|H1]%elem_of_app Hl [H2|H2]%elem_of_app.
    + pose proof (Hin _ _ _ _ H1) as ->.
      eapply (scanInner_break S0 k _ (k + 1)); eauto. lia.
    + apply Hin in H1. apply Hout in H2. lia.
    + apply Hin in H2. apply Hout in H1. lia.
    + eapply IH; eauto.
Qed.

Lemma markDuplicateOf_length l w s :
  length (markDuplicateOf l w s) = length s.
Proof.
  unfold markDuplicateOf. destruct (s !! l), (s !! w); try reflexivity.
  apply length_insert.
Qed.

Lemma markDuplicateOf_keeps_duplicate l w s k x :
  s !! k = Some x -> status x = Duplicate ->
  exists x', markDuplicateOf l w s !! k = Some x' /\ status x' = Duplicate.
Proof.
  intros Hk Hx. unfold markDuplicateOf.
  destruct (s !! l) as [xl|] eqn:El; [|eauto].
  destruct (s !! w) as [xw|] eqn:Ew; [|eauto].
  destruct (decide (l = k)) as [->|Hne].
  - rewrite list_lookup_insert_eq by (eapply lookup_lt_Some, Hk). eauto.
  - rewrite list_lookup_insert_ne by exact Hne. eauto.
Qed.

Lemma markDuplicateOf_marks l w s :
  (l < length s)%nat -> (w < length s)%nat ->
  exists x', markDuplicateOf l w s !! l = Some x' /\ status x' = Duplicate.
Proof.
  intros Hl Hw. unfold markDuplicateOf.
  destruct (lookup_lt_is_Some_2 s l Hl) as [xl ->].
  destruct (lookup_lt_is_Some_2 s w Hw) as [xw ->].
  rewrite list_lookup_insert_eq by exact Hl. eauto.
Qed.

Lemma markings_length (S0 : list Xtal) tr :
  forall s, length (markings S0 tr s) = length s.
Proof.
  induction tr as [|[[i j] m] tr IH]; intros s; [reflexivity|].
  rewrite markings_cons, IH. destruct m; [apply markDuplicateOf_length|].
  reflexivity.
Qed.

Lemma markings_keep_duplicate (S0 : list Xtal) tr :
  forall s k x,
    s !! k = Some x -> status x = Duplicate ->
    exists x', markings S0 tr s !! k = Some x' /\ status x' = Duplicate.
Proof.
  induction tr as [|[[i j] m] tr IH]; intros s k x Hk Hx; [simpl; eauto|].
  rewrite markings_cons. destruct m; [|eauto].
  destruct (markDuplicateOf_keeps_duplicate
              (loser S0 i j) (winner S0 i j) s k x Hk Hx) as (x' & H1 & H2).
  eauto.
Qed.

Lemma markDuplicateOf_other l w s k :
  k <> l -> markDuplicateOf l w s !! k = s !! k.
Proof.
  intros Hk. unfold markDuplicateOf.
  destruct (s !! l); [|reflexivity]. destruct (s !! w); [|reflexivity].
  apply list_lookup_insert_ne. congruence.
Qed.

Lemma markings_untouched (S0 : list Xtal) tr k :
  (forall i j, (i, j, true) ∈ tr -> loser S0 i j <> k) ->
  forall s, markings S0 tr s !! k = s !! k.
Proof.
  induction tr as [|[[i j] m] tr IH]; intros Hk s; [reflexivity|].
  rewrite markings_cons, IH.
  - destruct m; [|reflexivity]. apply markDuplicateOf_other.
    intros ->. apply (Hk i j); [left|reflexivity].
  - intros i' j' H. apply Hk. now right.
Qed.

Lemma loser_winner_range (S0 : list Xtal) i j :
  (i < j)%nat -> (j < length S0)%nat ->
  (loser S0 i j < length S0)%nat /\ (winner S0 i j < length S0)%nat.
Proof.
  intros Hij Hj. unfold winner, loser.
  destruct (Qltb _ _); [rewrite Nat.eqb_refl; lia|].
  destruct (Qltb _ _); destruct (Nat.eqb _ _); lia.
Qed.

Lemma loser_winner_distinct (S0 : list Xtal) i j :
  (i < j)%nat ->
  loser S0 i j <> winner S0 i j /\ (loser S0 i j = i \/ loser S0 i j = j).
Proof.
  intros Hij. unfold winner, loser.
  destruct (Qltb _ _); [rewrite Nat.eqb_refl; lia|].
  destruct (Qltb _ _); case Nat.eqb_spec; lia.
Qed.

(** *** What the scan leaves behind *)

(** The record of the inner loop depends on the snapshot only, not on
    the structures it marks. *)
Lemma scanInner_trace_indep fps states i js :
  forall s s',
    (scanInner fps states i js s).2 = (scanInner fps states i js s').2.
Proof.
  induction js as [|j js IH]; intros s s'; [reflexivity|].
  rewrite !scanInner_cons. destruct (negb _); cbn [snd].
  - f_equal. apply IH.
  - destruct (Qltb _ _); cbn [snd]; [reflexivity|]. f_equal. apply IH.
Qed.

(** Every [j] of the inner loop has its turn, unless the loop was left
    before at a [j0] for which [i] itself was marked. *)
Lemma scanInner_visits (S0 : list Xtal) i n :
  forall k s j, (i < k)%nat -> j ∈ seq k n ->
    let tr := (scanInner (map getFingerprint S0) (map status S0) i
                         (seq k n) s).2 in
    (exists m, (i, j, m) ∈ tr)
    \/ (exists j0, (j0 < j)%nat /\ (i, j0, true) ∈ tr /\ loser S0 i j0 = i).
Proof.
  induction n as [|n IH]; intros k s j Hik Hj; simpl seq in *.
  - now apply elem_of_nil in Hj.
  - cbv zeta. rewrite scanInner_cons. apply elem_of_cons in Hj as [->|Hj].
    + left. destruct (negb _); cbn [snd]; [eexists; left|].
      destruct (Qltb _ _); cbn [snd]; eexists; left.
    + assert (Hkj : (k < j)%nat) by (apply elem_of_seq in Hj; lia).
      destruct (negb _); cbn [snd].
      * destruct (IH (S k) s j) as [[m H]|(j0 & H1 & H2 & H3)];
          [lia|exact Hj|..].
        -- left. exists m. now right.
        -- right. exists j0. split; [exact H1|]. split; [now right|exact H3].
      * destruct (Qltb _ _) eqn:Hlt; cbn [snd].
        -- right. exists k. split; [exact Hkj|]. split; [left|].
           now apply loser_first.
        -- destruct (IH (S k) (markSecond i k s) j)
             as [[m H]|(j0 & H1 & H2 & H3)]; [lia|exact Hj|..].
           ++ left. exists m. now right.
           ++ right. exists j0. split; [exact H1|].
              split; [now right|exact H3].
Qed.

(** The record of the outer loop holds the record of the inner loop of
    every [i] that passes the outer tests. *)
Lemma scanOuter_includes fps states idxs :
  forall s s0 i e, i ∈ idxs ->
    negb (State_eqb (state_at states i) Optimized)
    || Nat.eqb (fp_spacegroup (fp_at fps i)) 0 = false ->
    e ∈ (scanInner fps states i
           (seq (i + 1) (length fps - (i + 1))) s0).2 ->
    e ∈ (scanOuter fps states idxs s).2.
Proof.
  induction idxs as [|i0 idxs IH]; intros s s0 i e Hi Hg He.
  - now apply elem_of_nil in Hi.
  - rewrite scanOuter_cons. apply elem_of_cons in Hi as [->|Hi].
    + rewrite Hg. cbv zeta. cbn [snd]. apply elem_of_app. left.
      now rewrite (scanInner_trace_indep _ _ _ _ s s0).
    + match goal with
      | |- context [if ?b then _ else _] => destruct b
      end; [eapply IH; eauto|]. cbv zeta. cbn [snd].
      apply elem_of_app. right. eapply IH; eauto.
Qed.

Lemma markings_mark_loser (S0 : list Xtal) tr :
  (forall i j, (i, j, true) ∈ tr -> matching S0 i j) ->
  forall i j, (i, j, true) ∈ tr ->
    exists x, markings S0 tr S0 !! loser S0 i j = Some x
              /\ status x = Duplicate.
Proof.
  intros Hm i j H.
  destruct (Hm i j H) as (Hij & xi & xj & _ & Hj & _).
  apply lookup_lt_Some in Hj.
  destruct (loser_winner_range S0 i j Hij Hj) as [Hl Hw].
  apply list_elem_of_split in H as (t1 & t2 & ->).
  rewrite markings_app, markings_cons.
  destruct (markDuplicateOf_marks (loser S0 i j) (winner S0 i j)
              (markings S0 t1 S0)) as (x & Hx & Hst);
    rewrite ?markings_length; try assumption.
  eapply markings_keep_duplicate; eauto.
Qed.

Lemma checkForDuplicates_trace_correct (structures : list Xtal) i j m :
  (i, j, m) ∈ (checkForDuplicates_ structures).2 ->
  (m = true <-> matching structures i j).
Proof.
  intros H. eapply scanOuter_correct; [|exact H].
  intros k Hk. apply elem_of_seq in Hk. rewrite length_map in Hk. lia.
Qed.

(** A matching pair [(i, j)] is found by the scan, unless the loop over
    [j] was left before for a pair that marked [i]. *)
Lemma matching_pair_found (structures : list Xtal) (i j : nat) :
  matching structures i j ->
  exists j0, (j0 = j \/ loser structures i j0 = i)
             /\ (i, j0, true) ∈ (checkForDuplicates_ structures).2.
Proof.
  intros Hm.
  pose proof Hm as (Hij & xi & xj & Hxi & Hxj & Hsi & Hsj & Hgi & Hgj & _).
  set (trace := (checkForDuplicates_ structures).2).
  pose proof (lookup_lt_Some _ _ _ Hxi) as Hi.
  pose proof (lookup_lt_Some _ _ _ Hxj) as Hj.
  assert (Hg : negb (State_eqb (state_at (map status structures) i) Optimized)
               || Nat.eqb (fp_spacegroup
                             (fp_at (map getFingerprint structures) i)) 0
               = false).
  { rewrite (state_at_lookup _ _ _ Hxi), (fp_at_lookup _ _ _ Hxi), Hsi.
    simpl. now apply Nat.eqb_neq. }
  assert (Hinc : forall e,
             e ∈ (scanInner (map getFingerprint structures)
                    (map status structures) i
                    (seq (i + 1)
                       (length (map getFingerprint structures) - (i + 1)))
                    structures).2 -> e ∈ trace).
  { intros e He. unfold trace, checkForDuplicates_.
    eapply scanOuter_includes; [|exact Hg|exact He].
    apply elem_of_seq. rewrite length_map. lia. }
  destruct (scanInner_visits structures i
              (length (map getFingerprint structures) - (i + 1))
              (i + 1)%nat structures j)
    as [[m H]|(j0 & _ & H & Hl)];
    [lia|apply elem_of_seq; rewrite length_map; lia|..].
  - exists j. split; [now left|]. apply Hinc in H.
    assert (m = true)
      by (now apply (checkForDuplicates_trace_correct structures i j m)).
    now subst.
  - exists j0. split; [now right|]. now apply Hinc.
Qed.

(** X1.  No matching pair survives the scan: of two structures that
    match in the snapshot (both optimized, same known space group,
    enthalpy and volume within the tolerances), at least one is a
    [Duplicate] when the scan ends. *)
Theorem checkForDuplicates_leaves_no_matching_pair
    (structures : list Xtal) (i j : nat) :
  matching structures i j ->
  exists k x, (k = i \/ k = j)
    /\ (checkForDuplicates_ structures).1 !! k = Some x
    /\ status x = Duplicate.
Proof.
  intros Hm. pose proof Hm as (Hij & _).
  destruct (matching_pair_found structures i j Hm) as (j0 & Hor & Hin).
  assert (Heffect : (checkForDuplicates_ structures).1
                    = markings structures (checkForDuplicates_ structures).2
                               structures)
    by apply scanOuter_effect.
  destruct (markings_mark_loser structures
              (checkForDuplicates_ structures).2) with (i := i) (j := j0)
    as (x & Hx & Hst); [|exact Hin|].
  { intros i' j' H. now apply (checkForDuplicates_trace_correct _ _ _ true). }
  rewrite Heffect. destruct Hor as [->|Hl].
  - destruct (loser_winner_distinct structures i j Hij) as [_ [Hl|Hl]];
      rewrite Hl in Hx; eauto 6.
  - rewrite Hl in Hx. eauto 6.
Qed.

(** What the scan may have done to the structures [s] of a tracker that
    held [S0]: each one is as it was, or is marked a duplicate of a
    structure it matches in [S0]. *)
Definition scanFrame (S0 s : list Xtal) : Prop :=
  length s = length S0 /\
  forall k x, S0 !! k = Some x ->
    exists y, s !! k = Some y /\
      (y = x \/
       exists w xw,
         (matching S0 k w \/ matching S0 w k) /\ S0 !! w = Some xw /\
         y = setDuplicateString (GxI xw) (setStatus Duplicate x)).

Lemma scanFrame_GxI (S0 s : list Xtal) k x y :
  scanFrame S0 s -> S0 !! k = Some x -> s !! k = Some y -> GxI y = GxI x.
Proof.
  intros [_ H] Hx Hy. destruct (H k x Hx) as (y' & Hy' & Hor).
  rewrite Hy in Hy'. injection Hy' as <-.
  destruct Hor as [->|(w & xw & _ & _ & ->)]; reflexivity.
Qed.

Lemma markDuplicateOf_frame (S0 : list Xtal) i j s :
  matching S0 i j -> scanFrame S0 s ->
  scanFrame S0 (markDuplicateOf (loser S0 i j) (winner S0 i j) s).
Proof.
  intros Hm Hs. pose proof Hm as (Hij & xi & xj & Hxi & Hxj & _).
  pose proof (lookup_lt_Some _ _ _ Hxj) as Hj.
  destruct (loser_winner_range S0 i j Hij Hj) as [Hl Hw].
  assert (Hlw : (loser S0 i j = i /\ winner S0 i j = j)
                \/ (loser S0 i j = j /\ winner S0 i j = i)).
  { destruct (loser_winner_distinct S0 i j Hij) as [_ [H|H]]; unfold winner;
      rewrite H; [left; now rewrite Nat.eqb_refl|right].
    split; [reflexivity|]. case Nat.eqb_spec; lia. }
  set (l := loser S0 i j) in *. set (w := winner S0 i j) in *.
  destruct Hs as [Hlen Hs]. split; [now rewrite markDuplicateOf_length|].
  destruct (lookup_lt_is_Some_2 S0 l Hl) as [xl Hxl].
  destruct (lookup_lt_is_Some_2 S0 w Hw) as [xw Hxw].
  destruct (Hs l xl Hxl) as (yl & Hyl & Hl').
  destruct (Hs w xw Hxw) as (yw & Hyw & Hw').
  assert (Hg : GxI yw = GxI xw)
    by (eapply (scanFrame_GxI S0 s w); [split|..]; eauto).
  intros k x Hx. unfold markDuplicateOf. rewrite Hyl, Hyw.
  destruct (decide (k = l)) as [->|Hne].
  - rewrite list_lookup_insert_eq by lia. eexists. split; [reflexivity|].
    right. exists w, xw. rewrite Hxl in Hx. injection Hx as <-.
    split; [destruct Hlw as [[-> ->]|[-> ->]]; tauto|].
    split; [exact Hxw|]. rewrite Hg.
    destruct Hl' as [->|(w' & xw' & _ & _ & ->)]; [reflexivity|].
    now destruct xl.
  - rewrite list_lookup_insert_ne by congruence. now apply Hs.
Qed.

Lemma markings_frame (S0 : list Xtal) tr :
  (forall i j, (i, j, true) ∈ tr -> matching S0 i j) ->
  forall s, scanFrame S0 s -> scanFrame S0 (markings S0 tr s).
Proof.
  induction tr as [|[[i j] m] tr IH]; intros Hm s Hs; [exact Hs|].
  rewrite markings_cons. apply IH; [intros i' j' H; apply Hm; now right|].
  destruct m; [|exact Hs]. apply markDuplicateOf_frame; [|exact Hs].
  apply Hm. left.
Qed.

(** X2.  The scan keeps the tracker's length and changes nothing but
    the status and [duplicate_of] of structures it marks: each structure
    ends as it started, or as a [Duplicate] whose [duplicate_of] is the
    "GxI" string of a structure that it matches in the snapshot. *)
Theorem checkForDuplicates_changes_only_matched (structures : list Xtal) :
  let final := (checkForDuplicates_ structures).1 in
  length final = length structures
  /\ forall k x, structures !! k = Some x ->
       exists y, final !! k = Some y /\
         (y = x \/
          exists w xw,
            (matching structures k w \/ matching structures w k)
            /\ structures !! w = Some xw
            /\ y = setDuplicateString (GxI xw) (setStatus Duplicate x)).
Proof.
  intros final.
  assert (Heffect : final = markings structures
                              (checkForDuplicates_ structures).2 structures)
    by apply scanOuter_effect.
  rewrite Heffect. apply markings_frame.
  - intros i j H.
    now apply (checkForDuplicates_trace_correct structures i j true).
  - split; [reflexivity|]. intros k x Hx. eauto.
Qed.

(** *** The pairs the scan finds, and what becomes of them *)

(** A matching pair [(i, j)] has its turn and is found, unless the loop
    over [j] was left for an earlier pair that marked [i]. *)
Lemma matching_pair_reached (structures : list Xtal) (i j : nat) :
  matching structures i j ->
  (forall j0, (j0 < j)%nat -> matching structures i j0 ->
     loser structures i j0 <> i) ->
  (i, j, true) ∈ (checkForDuplicates_ structures).2.
Proof.
  intros Hm Hfirst.
  pose proof Hm as (Hij & xi & xj & Hxi & Hxj & Hsi & Hsj & Hgi & Hgj & _).
  pose proof (lookup_lt_Some _ _ _ Hxi) as Hi.
  pose proof (lookup_lt_Some _ _ _ Hxj) as Hj.
  assert (Hg : negb (State_eqb (state_at (map status structures) i) Optimized)
               || Nat.eqb (fp_spacegroup
                             (fp_at (map getFingerprint structures) i)) 0
               = false).
  { rewrite (state_at_lookup _ _ _ Hxi), (fp_at_lookup _ _ _ Hxi), Hsi.
    simpl. now apply Nat.eqb_neq. }
  assert (Hinc : forall e,
             e ∈ (scanInner (map getFingerprint structures)
                    (map status structures) i
                    (seq (i + 1)
                       (length (map getFingerprint structures) - (i + 1)))
                    structures).2 ->
             e ∈ (checkForDuplicates_ structures).2).
  { intros e He. unfold checkForDuplicates_.
    eapply scanOuter_includes; [|exact Hg|exact He].
    apply elem_of_seq. rewrite length_map. lia. }
  destruct (scanInner_visits structures i
              (length (map getFingerprint structures) - (i + 1))
              (i + 1)%nat structures j)
    as [[m H]|(j0 & Hlt & H & Hl)];
    [lia|apply elem_of_seq; rewrite length_map; lia|..].
  - apply Hinc in H.
    assert (m = true)
      by (now apply (checkForDuplicates_trace_correct structures i j m)).
    now subst.
  - exfalso. apply (Hfirst j0 Hlt); [|exact Hl].
    apply (checkForDuplicates_trace_correct structures i j0 true);
      [now apply Hinc|reflexivity].
Qed.

(** Marking a structure again replaces its [duplicate_of]. *)
Lemma setDuplicateString_again (g g' : string) (x : Xtal) :
  setDuplicateString g
    (setStatus Duplicate (setDuplicateString g' (setStatus Duplicate x)))
  = setDuplicateString g (setStatus Duplicate x).
Proof. reflexivity. Qed.

(** The marking for a pair of the record stands at the end when no
    later pair of the record marks the same structure: then the marked
    structure is a duplicate of the other one of that pair. *)
Lemma markings_last_marking (S0 : list Xtal) t1 i j t2 :
  (forall i' j', (i', j', true) ∈ t1 ++ (i, j, true) :: t2 ->
     matching S0 i' j') ->
  (forall i' j', (i', j', true) ∈ t2 -> loser S0 i' j' <> loser S0 i j) ->
  exists xl xw,
    S0 !! loser S0 i j = Some xl /\ S0 !! winner S0 i j = Some xw
    /\ markings S0 (t1 ++ (i, j, true) :: t2) S0 !! loser S0 i j
       = Some (setDuplicateString (GxI xw) (setStatus Duplicate xl)).
Proof.
  intros Hm Hlater.
  assert (Hmij : matching S0 i j)
    by (apply Hm, elem_of_app; right; left).
  pose proof Hmij as (Hij & xi & xj & _ & Hxj & _).
  pose proof (lookup_lt_Some _ _ _ Hxj) as Hj.
  destruct (loser_winner_range S0 i j Hij Hj) as [Hl Hw].
  set (l := loser S0 i j) in *. set (w := winner S0 i j) in *.
  destruct (lookup_lt_is_Some_2 S0 l Hl) as [xl Hxl].
  destruct (lookup_lt_is_Some_2 S0 w Hw) as [xw Hxw].
  exists xl, xw. split; [exact Hxl|]. split; [exact Hxw|].
  assert (Hframe : scanFrame S0 (markings S0 t1 S0)).
  { apply markings_frame.
    - intros i' j' H. apply Hm, elem_of_app. now left.
    - split; [reflexivity|]. intros k x Hx. eauto. }
  rewrite markings_app, markings_cons.
  rewrite markings_untouched by exact Hlater.
  set (s1 := markings S0 t1 S0) in *.
  destruct Hframe as [Hlen Hs1].
  destruct (Hs1 l xl Hxl) as (yl & Hyl & Hl').
  destruct (Hs1 w xw Hxw) as (yw & Hyw & Hw').
  assert (Hg : GxI yw = GxI xw)
    by (eapply (scanFrame_GxI S0 s1 w); [split|..]; eauto).
  unfold markDuplicateOf. fold l. fold w. rewrite Hyl, Hyw.
  rewrite list_lookup_insert_eq by lia. rewrite Hg. f_equal.
  destruct Hl' as [->|(w' & xw' & _ & _ & ->)]; [reflexivity|].
  apply setDuplicateString_again.
Qed.

(** C1, as the specification has it: of every pair that the scan finds
    matching, exactly one structure is marked [Duplicate], the one of
    higher enthalpy (of larger index on a tie), and its [duplicate_of]
    is the "GxI" string of the other. *)
Definition marksExactlyOne (structures : list Xtal) : Prop :=
  forall i j, (i, j, true) ∈ (checkForDuplicates_ structures).2 ->
    exists xw yl yw,
      structures !! winner structures i j = Some xw
      /\ (checkForDuplicates_ structures).1 !! loser structures i j = Some yl
      /\ (checkForDuplicates_ structures).1 !! winner structures i j = Some yw
      /\ status yl = Duplicate /\ duplicateString yl = GxI xw
      /\ status yw <> Duplicate.

(** C1 (what the code does).  The scan is run on the tracker's list
    [structures], whose fingerprints and states it copies first;
    [trace] is the record of the pairs [(i, j)] whose turn came in the
    loops, with [true] for those found to match, and [final] the list
    the scan leaves.
    - The pairs found: a pair is found to match only if it matches in
      the copy ([i < j], both optimized, same non-zero space group,
      enthalpies and volumes within the tolerances), and every such pair
      is found unless the loop over [j] was left before for a pair that
      marked [i].
    - The marking for a found pair changes one structure, the one of
      higher enthalpy, or of larger index when the enthalpies tie: its
      status becomes [Duplicate] and its [duplicate_of] the "GxI" string
      of the other, which this marking leaves as it is, like every other
      structure.
    - The list the scan leaves: the structure marked for a found pair is
      a [Duplicate] in it, a duplicate of the other one of the last pair
      that marked it; a structure that no found pair marks is as it
      was.  The other structure of a pair can be marked for another pair
      of the same scan, because the states are read from the copy.
    - When the two structures of a matching pair match no third
      structure, exactly one of them is marked in the list the scan
      leaves: the one of higher enthalpy (of larger index on a tie),
      with the "GxI" of the other, which is as it was.
    - Once [i] is marked for a pair [(i, j)], no later [j'] has its turn
      against [i]. *)
Theorem checkForDuplicates_marks_higher_enthalpy (structures : list Xtal) :
  let final := (checkForDuplicates_ structures).1 in
  let trace := (checkForDuplicates_ structures).2 in
  (forall i j m, (i, j, m) ∈ trace -> (m = true <-> matching structures i j))
  /\ (forall i j, matching structures i j ->
      (forall j0, (j0 < j)%nat -> matching structures i j0 ->
         loser structures i j0 <> i) ->
      (i, j, true) ∈ trace)
  /\ (forall t1 i j t2, trace = t1 ++ (i, j, true) :: t2 ->
      let l := loser structures i j in
      let w := winner structures i j in
      let before := markings structures t1 structures in
      let after := markings structures (t1 ++ [(i, j, true)]) structures in
      l <> w /\ (l = i \/ l = j) /\
      exists xl xw,
        before !! l = Some xl /\ before !! w = Some xw /\
        after !! l
        = Some (setDuplicateString (GxI xw) (setStatus Duplicate xl)) /\
        (forall k, k <> l -> after !! k = before !! k))
  /\ final = markings structures trace structures
  /\ (forall i j, (i, j, true) ∈ trace ->
      exists x, final !! loser structures i j = Some x
                /\ status x = Duplicate)
  /\ (forall t1 i j t2, trace = t1 ++ (i, j, true) :: t2 ->
      (forall i' j', (i', j', true) ∈ t2 ->
         loser structures i' j' <> loser structures i j) ->
      exists xl xw,
        structures !! loser structures i j = Some xl
        /\ structures !! winner structures i j = Some xw
        /\ final !! loser structures i j
           = Some (setDuplicateString (GxI xw) (setStatus Duplicate xl)))
  /\ (forall k, (forall i j, (i, j, true) ∈ trace ->
                   loser structures i j <> k) ->
      final !! k = structures !! k)
  /\ (forall i j, matching structures i j ->
      (forall k, matching structures i k \/ matching structures k i ->
         k = j) ->
      (forall k, matching structures j k \/ matching structures k j ->
         k = i) ->
      exists xl xw,
        structures !! loser structures i j = Some xl
        /\ structures !! winner structures i j = Some xw
        /\ final !! loser structures i j
           = Some (setDuplicateString (GxI xw) (setStatus Duplicate xl))
        /\ final !! winner structures i j = Some xw)
  /\ (forall i j j' m,
        (i, j, true) ∈ trace -> loser structures i j = i ->
        (i, j', m) ∈ trace -> (j' <= j)%nat).
Proof.
  intros final trace.
  assert (Hcorrect : forall i j m, (i, j, m) ∈ trace ->
                       (m = true <-> matching structures i j)).
  { intros i j m H. eapply scanOuter_correct; [|exact H].
    intros k Hk. apply elem_of_seq in Hk. rewrite length_map in Hk. lia. }
  assert (Hfound : forall i j, (i, j, true) ∈ trace -> matching structures i j)
    by (intros i j H; now apply (Hcorrect i j true)).
  assert (Heffect : final = markings structures trace structures)
    by apply scanOuter_effect.
  assert (Hrange : forall i j, (i, j, true) ∈ trace ->
                     (i < j)%nat /\
                     (loser structures i j < length structures)%nat /\
                     (winner structures i j < length structures)%nat).
  { intros i j H. destruct (Hfound i j H) as (Hij & xi & xj & _ & Hj & _).
    apply lookup_lt_Some in Hj. split; [exact Hij|].
    now apply loser_winner_range. }
  assert (Hlast : forall t1 i j t2, trace = t1 ++ (i, j, true) :: t2 ->
            (forall i' j', (i', j', true) ∈ t2 ->
               loser structures i' j' <> loser structures i j) ->
            exists xl xw,
              structures !! loser structures i j = Some xl
              /\ structures !! winner structures i j = Some xw
              /\ final !! loser structures i j
                 = Some (setDuplicateString (GxI xw)
                           (setStatus Duplicate xl))).
  { intros t1 i j t2 Htr Hlater. rewrite Heffect, Htr.
    apply markings_last_marking; [|exact Hlater].
    intros i' j' H. apply Hfound. now rewrite Htr. }
  split; [exact Hcorrect|].
  split; [intros i j; apply matching_pair_reached|].
  split; [|split; [exact Heffect|split; [|split; [exact Hlast|split;
    [|split]]]]].
  - intros t1 i j t2 Htr l w before after.
    destruct (Hrange i j) as (Hij & Hl & Hw).
    { rewrite Htr. apply elem_of_app. right. left. }
    fold l in Hl. fold w in Hw.
    assert (Hlw : l <> w /\ (l = i \/ l = j)).
    { unfold w, l. now apply loser_winner_distinct. }
    destruct Hlw as [Hne Hor]. split; [exact Hne|]. split; [exact Hor|].
    assert (Hlen : length before = length structures)
      by apply markings_length.
    destruct (lookup_lt_is_Some_2 before l) as [xl Hxl]; [lia|].
    destruct (lookup_lt_is_Some_2 before w) as [xw Hxw]; [lia|].
    exists xl, xw. split; [exact Hxl|]. split; [exact Hxw|].
    assert (Hafter : after = markDuplicateOf l w before).
    { unfold after. rewrite markings_app. reflexivity. }
    rewrite Hafter. unfold markDuplicateOf. rewrite Hxl, Hxw. split.
    + apply list_lookup_insert_eq. lia.
    + intros k Hk. now apply list_lookup_insert_ne.
  - intros i j H. rewrite Heffect.
    now apply (markings_mark_loser structures trace Hfound).
  - intros k Hk. rewrite Heffect. now apply markings_untouched.
  - intros i j Hm Hi Hj. pose proof Hm as (Hij & _).
    (* a found pair that marks [i] or [j] is the pair [(i, j)] itself *)
    assert (Hsame : forall i' j', (i', j', true) ∈ trace ->
              loser structures i' j' = i \/ loser structures i' j' = j ->
              i' = i /\ j' = j).
    { intros i' j' H Hl. pose proof (Hfound i' j' H) as Hm'.
      pose proof Hm' as (Hij' & _).
      destruct (loser_winner_distinct structures i' j' Hij') as [_ Hor].
      destruct Hl as [Hl|Hl], Hor as [Hor|Hor].
      - assert (E : i' = i) by congruence. subst i'.
        split; [reflexivity|]. apply Hi. now left.
      - assert (E : j' = i) by congruence. subst j'.
        assert (i' = j) by (apply Hi; now right). lia.
      - assert (E : i' = j) by congruence. subst i'.
        assert (j' = i) by (apply Hj; now left). lia.
      - assert (E : j' = j) by congruence. subst j'.
        split; [|reflexivity]. apply Hj. now right. }
    assert (Hin : (i, j, true) ∈ trace).
    { apply matching_pair_reached; [exact Hm|]. intros j0 Hlt Hm0 _.
      assert (j0 = j) by (apply Hi; now left). lia. }
    destruct (loser_winner_distinct structures i j Hij) as [Hne Hor].
    apply list_elem_of_split_r in Hin as (t1 & t2 & Htr & Hnot).
    destruct (Hlast t1 i j t2 Htr) as (xl & xw & Hxl & Hxw & Hfl).
    { intros i' j' H Hl. destruct (Hsame i' j') as [-> ->].
      - rewrite Htr. apply elem_of_app. right. now right.
      - rewrite Hl. exact Hor.
      - contradiction. }
    exists xl, xw. split; [exact Hxl|]. split; [exact Hxw|].
    split; [exact Hfl|]. rewrite <- Hxw, Heffect.
    apply markings_untouched. intros i' j' H Hl.
    destruct (Hsame i' j' H) as [-> ->]; [|congruence].
    rewrite Hl. unfold winner. case Nat.eqb_spec; tauto.
  - intros i j j' m H1 Hl H2.
    eapply (scanOuter_break structures _ 0%nat structures); eauto.
Qed.

End Scan.

(** *** The scan on examples *)

(** A fingerprint for the examples: the stored space group and enthalpy,
    and the volume of the orthorhombic cell. *)
Definition example_getFingerprint (x : Xtal) : Fingerprint :=
  mkFingerprint (spacegroup x) (default 0 (enthalpy x))
                (CheckXtal.ortho_getVolume (mol x)).

Definition optimized (id : nat) (h : Q) (c : Q) : Xtal :=
  mkXtal (CheckXtal.example_molecule 5 5 c) 225 Optimized 1 id (id - 1)
         "Randomly generated" "" (Some h) (Some h) 0 1 0 "" "".

Definition example_scan (structures : list Xtal) : list Xtal :=
  (checkForDuplicates_ example_getFingerprint CheckXtal.example_settings
                       structures).1.

(** Scenario S4: enthalpies (-10.00, -10.0001), volumes (50.0, 50.0005),
    tolerances (1e-2, 1e-1): the one of enthalpy -10.00 becomes a
    duplicate of the other. *)
Example scan_S4 :
  example_scan [optimized 1 (-10) 2;
                optimized 2 (-100001 # 10000) (200002 # 100000)]
  = [setDuplicateString "1x2" (setStatus Duplicate (optimized 1 (-10) 2));
     optimized 2 (-100001 # 10000) (200002 # 100000)].
Proof. vm_compute. reflexivity. Qed.

(** Equal enthalpies: the one of larger index is marked. *)
Example scan_tie :
  example_scan [optimized 1 (-10) 2; optimized 2 (-10) 2]
  = [optimized 1 (-10) 2;
     setDuplicateString "1x1" (setStatus Duplicate (optimized 2 (-10) 2))].
Proof. vm_compute. reflexivity. Qed.

(** Three structures within the tolerances of one another, the third
    of lowest enthalpy. *)
Definition threeClose : list Xtal :=
  [optimized 1 (-10) 2; optimized 2 (-10) 2; optimized 3 (-100005 # 10000) 2].

(** The states are read from the snapshot, so a structure marked for one
    pair still has its turn in later pairs: here the second is marked
    for the pair with the first, then the first for its pair with the
    third, and the second again for its own pair with the third. *)
Example scan_three :
  map (fun x => (status x, duplicateString x)) (example_scan threeClose)
  = [(Duplicate, "1x3"); (Duplicate, "1x3"); (Optimized, "")].
Proof. vm_compute. reflexivity. Qed.

Example scan_three_trace :
  (checkForDuplicates_ example_getFingerprint CheckXtal.example_settings
                       threeClose).2
  = [(0%nat, 1%nat, true); (0%nat, 2%nat, true); (1%nat, 2%nat, true)].
Proof. vm_compute. reflexivity. Qed.

(** The pair of the first two structures is found to match, and the
    second is marked for it.  When the scan ends both are duplicates,
    and of the third structure: not exactly one of the pair is marked,
    and the one marked for the pair is not a duplicate of the other. *)
Lemma checkForDuplicates_marks_both_of_a_pair :
  (0%nat, 1%nat, true)
    ∈ (checkForDuplicates_ example_getFingerprint CheckXtal.example_settings
                           threeClose).2
  /\ loser example_getFingerprint threeClose 0 1 = 1%nat
  /\ map (fun x => (status x, duplicateString x, GxI x))
         (example_scan threeClose)
     = [(Duplicate, "1x3", "1x1"); (Duplicate, "1x3", "1x2");
        (Optimized, "", "1x3")]
  /\ ~ marksExactlyOne example_getFingerprint CheckXtal.example_settings
                       threeClose.
Proof.
  assert (Hin : (0%nat, 1%nat, true)
                  ∈ (checkForDuplicates_ example_getFingerprint
                       CheckXtal.example_settings threeClose).2)
    by (rewrite scan_three_trace; left).
  split; [exact Hin|]. split; [vm_compute; reflexivity|].
  split; [vm_compute; reflexivity|].
  intros H. destruct (H 0%nat 1%nat Hin) as (xw & yl & yw & _ & _ & Hw & _ & _ & Hne).
  vm_compute in Hw. injection Hw as <-. apply Hne. reflexivity.
Qed.

(** Scenario S4 again, through the theorem: the pair is found, and the
    two structures match no third one. *)
Definition closePair : list Xtal :=
  [optimized 1 (-10) 2; optimized 2 (-100001 # 10000) (200002 # 100000)].

Lemma checkForDuplicates_marks_higher_enthalpy_witness :
  (0%nat, 1%nat, true)
    ∈ (checkForDuplicates_ example_getFingerprint CheckXtal.example_settings
                           closePair).2
  /\ example_scan closePair !! 0%nat
     = Some (setDuplicateString "1x2" (setStatus Duplicate (optimized 1 (-10) 2)))
  /\ example_scan closePair !! 1%nat
     = Some (optimized 2 (-100001 # 10000) (200002 # 100000)).
Proof.
  pose proof (checkForDuplicates_marks_higher_enthalpy
                example_getFingerprint CheckXtal.example_settings closePair)
    as (_ & Hfound & _ & _ & _ & _ & _ & Hisolated & _).
  assert (Hm : matching example_getFingerprint CheckXtal.example_settings
                 closePair 0 1).
  { split; [lia|]. eexists _, _.
    repeat split; try reflexivity; try discriminate. }
  assert (Honly : forall i j,
            matching example_getFingerprint CheckXtal.example_settings
              closePair i j -> i = 0%nat /\ j = 1%nat).
  { intros i j (Hij & xi & xj & _ & Hj & _). apply lookup_lt_Some in Hj.
    cbn in Hj. lia. }
  split.
  - apply Hfound; [exact Hm|]. intros j0 Hlt H0. apply Honly in H0. lia.
  - destruct (Hisolated 0%nat 1%nat Hm) as (xl & xw & Hxl & Hxw & Hl & Hw).
    + intros k [H|H]; apply Honly in H; lia.
    + intros k [H|H]; apply Honly in H; lia.
    + vm_compute in Hxl, Hxw. injection Hxl as <-. injection Hxw as <-.
      split; [exact Hl|exact Hw].
Defined.

Lemma checkForDuplicates_leaves_no_matching_pair_witness :
  matching example_getFingerprint CheckXtal.example_settings
           [optimized 1 (-10) 2; optimized 2 (-10) 2] 0 1
  /\ exists k x, (k = 0%nat \/ k = 1%nat)
       /\ example_scan [optimized 1 (-10) 2; optimized 2 (-10) 2] !! k
          = Some x
       /\ status x = Duplicate.
Proof.
  assert (H : matching example_getFingerprint CheckXtal.example_settings
                [optimized 1 (-10) 2; optimized 2 (-10) 2] 0 1).
  { split; [lia|]. eexists _, _.
    repeat split; try reflexivity; try discriminate. }
  split; [exact H|]. unfold example_scan.
  exact (checkForDuplicates_leaves_no_matching_pair
           example_getFingerprint CheckXtal.example_settings _ 0%nat 1%nat H).
Defined.

End Duplicates.

(** ** XtalOpt: template expansion ([interpretTemplate], [interpretKeyword]) *)

Module Template.

Local Open Scope string_scope.

Definition nl : ascii := "010"%char.
Definition NL : string := String nl "".
Definition TAB : string := String "009"%char "".

(** [QString::split(sep)]: the pieces between the separators, empty
    pieces kept. *)
Fixpoint split (sep : ascii) (s : string) : list string :=
  match s with
  | "" => [""]
  | String c s' =>
      if Ascii.eqb c sep then "" :: split sep s'
      else match split sep s' with
           | piece :: pieces => String c piece :: pieces
           | [] => [String c ""]
           end
  end.

(** [QStringList::join("")] *)
Definition join (l : list string) : string := foldr append "" l.

(** [rep.replace(QRegExp("\n$"), "")]: the pattern matches a newline at
    the very end of the string; it is removed. *)
Fixpoint removeTrailingNewline (s : string) : string :=
  match s with
  | "" => ""
  | String c s' =>
      match s' with
      | "" => if Ascii.eqb c nl then "" else s
      | _ => String c (removeTrailingNewline s')
      end
  end.

(** The last character of [s] is a newline. *)
Fixpoint endsWithNewline (s : string) : bool :=
  match s with
  | "" => false
  | String c s' =>
      match s' with
      | "" => Ascii.eqb c nl
      | _ => endsWithNewline s'
      end
  end.

Definition isEmpty (s : string) : bool :=
  match s with "" => true | _ => false end.

Definition ANGSTROM_TO_BOHR : Q := 1889725989 # 1000000000.

Definition Vec3 : Type := dbl * dbl * dbl.

Definition vx (v : Vec3) : dbl := v.1.1.
Definition vy (v : Vec3) : dbl := v.1.2.
Definition vz (v : Vec3) : dbl := v.2.

Section Keywords.

(** Qt's and OpenBabel's functions, and the keyword interpreter of the
    base class, all outside the sources. *)
Variable number : dbl -> string.
Variable DEG_TO_RAD : Q.
Variable getVolume : Molecule -> Q.
Variable cartToFrac : Molecule -> Q * Q * Q -> Vec3.
Variable GetSymbol : nat -> string.
Variable GetCellMatrix : Molecule -> nat -> nat -> dbl.
Variable GetCellVectors : Molecule -> list Vec3.
Variable getNumberOfAtomsAlpha : Molecule -> list nat.
Variable getAtomCoordsFrac : Molecule -> list Vec3.
Variable interpretKeyword_base : string -> Xtal -> string.

Definition cellVector (m : Molecule) (i : nat) : Vec3 :=
  default (Fin 0, Fin 0, Fin 0) (GetCellVectors m !! i).

(** One atom's line of [%coordsFrac%]. *)
Definition coordsFracLine (m : Molecule) (a : Atom) : string :=
  let coords := cartToFrac m (pos a) in
  GetSymbol (atomicNumber a) ++ " "
  ++ number (vx coords) ++ " "
  ++ number (vy coords) ++ " "
  ++ number (vz coords) ++ NL.

Definition coordsFracIdLine (m : Molecule) (a : Atom) : string :=
  let coords := cartToFrac m (pos a) in
  GetSymbol (atomicNumber a) ++ " "
  ++ pretty (atomicNumber a) ++ " "
  ++ number (vx coords) ++ " "
  ++ number (vy coords) ++ " "
  ++ number (vz coords) ++ NL.

(** One row of [%cellMatrixAngstrom%] or [%cellMatrixBohr%]. *)
Definition cellMatrixRow (scale : dbl) (m : Molecule) (i : nat) : string :=
  join (map (fun j => number (dmul (GetCellMatrix m i j) scale) ++ TAB)
            (seq 0 3))
  ++ NL.

Definition cellVectorText (scale : dbl) (v : Vec3) : string :=
  number (dmul (vx v) scale) ++ TAB
  ++ number (dmul (vy v) scale) ++ TAB
  ++ number (dmul (vz v) scale) ++ TAB.

Definition poscarVectorLine (v : Vec3) : string :=
  number (vx v) ++ " " ++ number (vy v) ++ " " ++ number (vz v)
  ++ " " ++ NL.

(** [%POSCAR%] (lines 801-832). *)
Definition poscar (x : Xtal) : string :=
  fileName x ++ NL
  ++ number (Fin 1) ++ NL
  ++ join (map poscarVectorLine (GetCellVectors (mol x)))
  ++ join (map (fun n => pretty n ++ " ") (getNumberOfAtomsAlpha (mol x)))
  ++ NL
  ++ "Direct" ++ NL
  ++ join (map poscarVectorLine (getAtomCoordsFrac (mol x))).

(** The replacement [rep] that [interpretKeyword] builds for [line]; it
    stays empty when [line] is none of the keywords. *)
Definition replacement (line : string) (x : Xtal) : string :=
  let m := mol x in
  if line =? "a" then number (CheckXtal.getA x)
  else if line =? "b" then number (CheckXtal.getB x)
  else if line =? "c" then number (CheckXtal.getC x)
  else if line =? "alphaRad" then
    number (dmul (CheckXtal.getAlpha x) (Fin DEG_TO_RAD))
  else if line =? "betaRad" then
    number (dmul (CheckXtal.getBeta x) (Fin DEG_TO_RAD))
  else if line =? "gammaRad" then
    number (dmul (CheckXtal.getGamma x) (Fin DEG_TO_RAD))
  else if line =? "alphaDeg" then number (CheckXtal.getAlpha x)
  else if line =? "betaDeg" then number (CheckXtal.getBeta x)
  else if line =? "gammaDeg" then number (CheckXtal.getGamma x)
  else if line =? "volume" then number (Fin (getVolume m))
  else if line =? "coordsFrac" then
    join (map (coordsFracLine m) (atoms m))
  else if line =? "coordsFracId" then
    join (map (coordsFracIdLine m) (atoms m))
  else if line =? "cellMatrixAngstrom" then
    join (map (cellMatrixRow (Fin 1) m) (seq 0 3))
  else if line =? "cellVector1Angstrom" then
    cellVectorText (Fin 1) (cellVector m 0)
  else if line =? "cellVector2Angstrom" then
    cellVectorText (Fin 1) (cellVector m 1)
  else if line =? "cellVector3Angstrom" then
    cellVectorText (Fin 1) (cellVector m 2)
  else if line =? "cellMatrixBohr" then
    join (map (cellMatrixRow (Fin ANGSTROM_TO_BOHR) m) (seq 0 3))
  else if line =? "cellVector1Bohr" then
    cellVectorText (Fin ANGSTROM_TO_BOHR) (cellVector m 0)
  else if line =? "cellVector2Bohr" then
    cellVectorText (Fin ANGSTROM_TO_BOHR) (cellVector m 1)
  else if line =? "cellVector3Bohr" then
    cellVectorText (Fin ANGSTROM_TO_BOHR) (cellVector m 2)
  else if line =? "POSCAR" then poscar x
  else "".

(** [XtalOpt::interpretKeyword]: [line] is passed by reference; the
    result is its value on return. *)
Definition interpretKeyword (line : string) (x : Xtal) : string :=
  let rep := replacement line x in
  if negb (isEmpty rep) then removeTrailingNewline rep else line.

(** The body of the loop of [interpretTemplate] for the piece at
    [line_ind]; [pieces] is the source's [list]. *)
Definition interpretPiece (x : Xtal) (pieces : list string) (line_ind : nat)
  : list string :=
  match pieces !! line_ind with
  | Some origLine =>
      let line := interpretKeyword_base origLine x in
      let line := interpretKeyword line x in
      if negb (line =? origLine) then <[line_ind := line]> pieces
      else pieces
  | None => pieces
  end.

(** [XtalOpt::interpretTemplate]. *)
Definition interpretTemplate (templateString : string) (x : Xtal)
  : string :=
  let pieces := split "%" templateString in
  let pieces := foldl (interpretPiece x) pieces (seq 0 (length pieces)) in
  join pieces ++ NL.

(** *** The specification's side *)

(** The keywords [interpretKeyword] replaces. *)
Definition xtalKeywords : list string :=
  ["a"; "b"; "c"; "alphaRad"; "betaRad"; "gammaRad";
   "alphaDeg"; "betaDeg"; "gammaDeg"; "volume";
   "coordsFrac"; "coordsFracId";
   "cellMatrixAngstrom"; "cellVector1Angstrom"; "cellVector2Angstrom";
   "cellVector3Angstrom";
   "cellMatrixBohr"; "cellVector1Bohr"; "cellVector2Bohr";
   "cellVector3Bohr"; "POSCAR"].

(** A piece is recognized when the base class rewrites it or when what
    the base class leaves is one of the crystal keywords. *)
Definition recognized (piece : string) (x : Xtal) : Prop :=
  interpretKeyword_base piece x <> piece
  \/ In (interpretKeyword_base piece x) xtalKeywords.

(** What a piece of the template becomes. *)
Definition expand (x : Xtal) (piece : string) : string :=
  interpretKeyword (interpretKeyword_base piece x) x.

(** *** Proofs *)

Lemma append_cons (c : ascii) (s t : string) :
  String c s ++ t = String c (s ++ t).
Proof. reflexivity. Qed.

Lemma append_assoc (s1 s2 s3 : string) : (s1 ++ s2) ++ s3 = s1 ++ s2 ++ s3.
Proof.
  induction s1 as [|c s1 IH]; [reflexivity|].
  now rewrite !append_cons, IH.
Qed.

Lemma append_nil_r (s : string) : s ++ "" = s.
Proof.
  induction s as [|c s IH]; [reflexivity|]. now rewrite append_cons, IH.
Qed.

Lemma append_eq_nil (s t : string) : s ++ t = "" -> t = "".
Proof. destruct s; [trivial|discriminate]. Qed.

Lemma endsWithNewline_app (s t : string) :
  t <> "" -> endsWithNewline (s ++ t) = endsWithNewline t.
Proof.
  intros Ht. induction s as [|c s IH]; [reflexivity|].
  rewrite append_cons. simpl. destruct (s ++ t) eqn:E; [|exact IH].
  apply append_eq_nil in E. congruence.
Qed.

Lemma removeTrailingNewline_app_NL (r : string) :
  removeTrailingNewline (r ++ NL) = r.
Proof.
  induction r as [|c r IH]; [reflexivity|].
  rewrite append_cons. simpl. rewrite IH.
  destruct (r ++ NL) eqn:E; [|reflexivity].
  apply append_eq_nil in E. discriminate.
Qed.

Lemma removeTrailingNewline_id (s : string) :
  endsWithNewline s = false -> removeTrailingNewline s = s.
Proof.
  induction s as [|c s IH]; [reflexivity|].
  simpl. destruct s as [|c' s'].
  - now intros ->.
  - intros H. now rewrite IH.
Qed.

Lemma endsWithNewline_cons (c : ascii) (s : string) :
  c <> nl -> endsWithNewline s = false ->
  endsWithNewline (String c s) = false.
Proof.
  intros Hc Hs. simpl. destruct s; [|exact Hs].
  now apply Ascii.eqb_neq.
Qed.

(** Lines that each end in a newline, joined: the text up to the last
    newline does not end in one, if no line is blank. *)
Lemma join_lines {A} (body : A -> string) (items : list A) :
  items <> [] ->
  (forall i, body i <> "" /\ endsWithNewline (body i) = false) ->
  exists r, join (map (fun i => body i ++ NL) items) = r ++ NL
            /\ r <> "" /\ endsWithNewline r = false.
Proof.
  intros Hne Hbody. induction items as [|i items IH]; [congruence|].
  destruct (Hbody i) as [Hb1 Hb2].
  destruct items as [|i' items].
  - exists (body i). unfold join. simpl. rewrite append_nil_r. auto.
  - destruct IH as (r & Hr & Hr1 & Hr2); [congruence|].
    exists ((body i ++ NL) ++ r). split; [|split].
    + change (join (map (fun i => body i ++ NL) (i :: i' :: items)))
        with ((body i ++ NL) ++ join (map (fun i => body i ++ NL) (i' :: items))).
      rewrite Hr. symmetry. apply append_assoc.
    + destruct (body i); [congruence|discriminate].
    + now rewrite endsWithNewline_app.
Qed.

Lemma interpretPiece_lookup (x : Xtal) (pieces : list string) k i :
  interpretPiece x pieces k !! i
  = if decide (i = k) then expand x <$> pieces !! k else pieces !! i.
Proof.
  unfold interpretPiece. fold (expand x).
  destruct (pieces !! k) as [orig|] eqn:E.
  - change (interpretKeyword (interpretKeyword_base orig x) x)
      with (expand x orig).
    destruct (String.eqb_spec (expand x orig) orig) as [Heq|Hne]; simpl.
    + destruct (decide (i = k)) as [->|]; [|reflexivity].
      now rewrite E, Heq.
    + destruct (decide (i = k)) as [->|].
      * apply list_lookup_insert_eq. eapply lookup_lt_Some, E.
      * now apply list_lookup_insert_ne.
  - destruct (decide (i = k)) as [->|]; [|reflexivity]. now rewrite E.
Qed.

Lemma interpretPiece_length (x : Xtal) (pieces : list string) k :
  length (interpretPiece x pieces k) = length pieces.
Proof.
  unfold interpretPiece. destruct (pieces !! k); [|reflexivity].
  destruct (negb _); [apply length_insert|reflexivity].
Qed.

Lemma interpretPieces_lookup (x : Xtal) n :
  forall k (pieces : list string) i,
    foldl (interpretPiece x) pieces (seq k n) !! i
    = if decide (k <= i < k + n)%nat
      then expand x <$> pieces !! i else pieces !! i.
Proof.
  induction n as [|n IH]; intros k pieces i.
  - simpl. destruct (decide _); [lia|reflexivity].
  - simpl seq. cbn [foldl]. rewrite IH, !interpretPiece_lookup.
    repeat destruct (decide _); try lia; subst; reflexivity.
Qed.

Lemma interpretPieces_map (x : Xtal) (pieces : list string) :
  foldl (interpretPiece x) pieces (seq 0 (length pieces))
  = map (expand x) pieces.
Proof.
  apply list_eq. intros i.
  rewrite interpretPieces_lookup, SubstrateProps.lookup_map.
  destruct (decide _) as [|Hn]; [reflexivity|].
  rewrite lookup_ge_None_2 by lia. reflexivity.
Qed.

Lemma replacement_unrecognized (line : string) (x : Xtal) :
  ~ In line xtalKeywords -> replacement line x = "".
Proof.
  intros Hnot. unfold replacement.
  repeat (match goal with
          | |- context [String.eqb line ?k] =>
              destruct (String.eqb_spec line k) as [->|_];
              [exfalso; apply Hnot; simpl; tauto|]
          end).
  reflexivity.
Qed.

Lemma endsWithNewline_sep (c : ascii) (s r : string) :
  c <> nl -> endsWithNewline r = false ->
  endsWithNewline (s ++ String c r) = false.
Proof.
  intros Hc Hr. rewrite endsWithNewline_app by discriminate.
  now apply endsWithNewline_cons.
Qed.

Lemma endsWithNewline_space (s r : string) :
  endsWithNewline r = false -> endsWithNewline (s ++ " " ++ r) = false.
Proof. apply (endsWithNewline_sep " "%char). discriminate. Qed.

Lemma endsWithNewline_tab (s r : string) :
  endsWithNewline r = false -> endsWithNewline (s ++ TAB ++ r) = false.
Proof. apply (endsWithNewline_sep "009"%char). discriminate. Qed.

Lemma endsWithNewline_tab_end (s : string) :
  endsWithNewline (s ++ TAB) = false.
Proof. now apply (endsWithNewline_sep "009"%char s ""). Qed.

Lemma endsWithNewline_space_end (s : string) :
  endsWithNewline (s ++ " ") = false.
Proof. now apply (endsWithNewline_sep " "%char s ""). Qed.

Lemma append_sep_nonempty (c : ascii) (s r : string) : s ++ String c r <> "".
Proof. intros H. apply append_eq_nil in H. discriminate. Qed.

(** What [interpretKeyword] does with a replacement that does not end
    in a newline, and with one that is a text followed by a newline. *)
Lemma trimmed_plain (rep line : string) :
  endsWithNewline rep = false -> endsWithNewline line = false ->
  endsWithNewline
    (if negb (isEmpty rep) then removeTrailingNewline rep else line) = false.
Proof.
  intros Hrep Hline. destruct (negb (isEmpty rep)); [|exact Hline].
  now rewrite removeTrailingNewline_id.
Qed.

Lemma trimmed_lines (rep line : string) :
  rep = "" \/ (exists r, rep = r ++ NL /\ endsWithNewline r = false) ->
  endsWithNewline line = false ->
  endsWithNewline
    (if negb (isEmpty rep) then removeTrailingNewline rep else line) = false.
Proof.
  intros [->|(r & -> & Hr)] Hline; [exact Hline|].
  destruct (negb (isEmpty (r ++ NL))); [|exact Hline].
  now rewrite removeTrailingNewline_app_NL.
Qed.

(** [s] without the characters [c]. *)
Fixpoint removeChar (c : ascii) (s : string) : string :=
  match s with
  | "" => ""
  | String a s' =>
      if Ascii.eqb a c then removeChar c s'
      else String a (removeChar c s')
  end.

Lemma split_nonempty (sep : ascii) (s : string) : split sep s <> [].
Proof.
  destruct s as [|c s]; cbn [split]; [discriminate|].
  destruct (Ascii.eqb c sep); [discriminate|].
  destruct (split sep s); discriminate.
Qed.

Lemma join_split (sep : ascii) (s : string) :
  join (split sep s) = removeChar sep s.
Proof.
  induction s as [|c s IH]; [reflexivity|]. cbn [split removeChar].
  destruct (Ascii.eqb c sep); [exact IH|].
  destruct (split sep s) as [|piece pieces] eqn:E;
    [now apply split_nonempty in E|].
  rewrite <- IH. reflexivity.
Qed.

(** [c] occurs in [s]. *)
Fixpoint occurs (c : ascii) (s : string) : bool :=
  match s with
  | "" => false
  | String a s' => Ascii.eqb a c || occurs c s'
  end.

(** No piece of [split] holds the separator. *)
Lemma split_no_separator (sep : ascii) (s : string) :
  forall piece, piece ∈ split sep s -> occurs sep piece = false.
Proof.
  induction s as [|c s IH]; intros piece; cbn [split].
  - intros ->%list_elem_of_singleton. reflexivity.
  - destruct (Ascii.eqb c sep) eqn:E.
    + intros [->|H]%elem_of_cons; [reflexivity|now apply IH].
    + destruct (split sep s) as [|first pieces] eqn:Es;
        [now apply split_nonempty in Es|].
      intros [->|H]%elem_of_cons.
      * cbn [occurs]. rewrite E. apply IH. left.
      * apply IH. now right.
Qed.

Lemma map_fixed {A} (f : A -> A) (l : list A) :
  (forall a, a ∈ l -> f a = a) -> map f l = l.
Proof.
  induction l as [|a l IH]; intros H; [reflexivity|]. cbn [map].
  rewrite (H a) by left. f_equal. apply IH. intros b Hb. apply H. now right.
Qed.

(** X22.  A template none of whose pieces between [%] signs is a
    keyword (the base class leaves each piece as it is, and none is a
    crystal keyword) is copied character by character, but for the [%]
    signs, which are dropped, and one newline is added at the end. *)
Theorem interpretTemplate_without_keywords
    (templateString : string) (x : Xtal) :
  (forall piece, piece ∈ split "%" templateString -> ~ recognized piece x) ->
  interpretTemplate templateString x
  = removeChar "%" templateString ++ NL.
Proof.
  intros Hnone. unfold interpretTemplate. rewrite interpretPieces_map.
  rewrite map_fixed; [now rewrite join_split|].
  intros piece Hin. specialize (Hnone piece Hin). unfold recognized in Hnone.
  assert (Hbase : interpretKeyword_base piece x = piece).
  { destruct (string_dec (interpretKeyword_base piece x) piece);
      [assumption|tauto]. }
  unfold expand, interpretKeyword. rewrite Hbase in *.
  rewrite replacement_unrecognized by tauto. reflexivity.
Qed.

Section Trimmed.
Hypothesis number_no_trailing_newline :
  forall d, endsWithNewline (number d) = false.

Lemma cellVectorText_end scale v :
  endsWithNewline (cellVectorText scale v) = false.
Proof.
  unfold cellVectorText.
  apply endsWithNewline_tab, endsWithNewline_tab, endsWithNewline_tab_end.
Qed.

Lemma lines_or_empty {A} (line body : A -> string) (items : list A) :
  (forall i, line i = body i ++ NL) ->
  (forall i, body i <> "" /\ endsWithNewline (body i) = false) ->
  join (map line items) = ""
  \/ exists r, join (map line items) = r ++ NL /\ r <> ""
               /\ endsWithNewline r = false.
Proof.
  intros Hline Hbody. destruct items as [|i items]; [now left|right].
  rewrite (map_ext line (fun i => body i ++ NL)) by exact Hline.
  apply join_lines; [congruence|exact Hbody].
Qed.

Lemma lines_trimmed {A} (line body : A -> string) (items : list A) :
  (forall i, line i = body i ++ NL) ->
  (forall i, body i <> "" /\ endsWithNewline (body i) = false) ->
  join (map line items) = ""
  \/ exists r, join (map line items) = r ++ NL /\ endsWithNewline r = false.
Proof.
  intros Hline Hbody.
  destruct (lines_or_empty line body items Hline Hbody)
    as [E|(r & E & _ & Hr)]; eauto.
Qed.

Lemma coordsFrac_trimmed (m : Molecule) :
  join (map (coordsFracLine m) (atoms m)) = ""
  \/ exists r, join (map (coordsFracLine m) (atoms m)) = r ++ NL
               /\ endsWithNewline r = false.
Proof.
  apply (lines_trimmed _
           (fun a => GetSymbol (atomicNumber a) ++ " "
                     ++ number (vx (cartToFrac m (pos a))) ++ " "
                     ++ number (vy (cartToFrac m (pos a))) ++ " "
                     ++ number (vz (cartToFrac m (pos a))))).
  - intros a. unfold coordsFracLine. cbv zeta.
    now rewrite !append_assoc.
  - intros a. split; [apply append_sep_nonempty|].
    repeat apply endsWithNewline_space. apply number_no_trailing_newline.
Qed.

Lemma coordsFracId_trimmed (m : Molecule) :
  join (map (coordsFracIdLine m) (atoms m)) = ""
  \/ exists r, join (map (coordsFracIdLine m) (atoms m)) = r ++ NL
               /\ endsWithNewline r = false.
Proof.
  apply (lines_trimmed _
           (fun a => GetSymbol (atomicNumber a) ++ " "
                     ++ pretty (atomicNumber a) ++ " "
                     ++ number (vx (cartToFrac m (pos a))) ++ " "
                     ++ number (vy (cartToFrac m (pos a))) ++ " "
                     ++ number (vz (cartToFrac m (pos a))))).
  - intros a. unfold coordsFracIdLine. cbv zeta.
    now rewrite !append_assoc.
  - intros a. split; [apply append_sep_nonempty|].
    repeat apply endsWithNewline_space. apply number_no_trailing_newline.
Qed.

Lemma cellMatrix_trimmed scale (m : Molecule) :
  join (map (cellMatrixRow scale m) (seq 0 3)) = ""
  \/ exists r, join (map (cellMatrixRow scale m) (seq 0 3)) = r ++ NL
               /\ endsWithNewline r = false.
Proof.
  apply (lines_trimmed _
           (fun i => number (dmul (GetCellMatrix m i 0) scale) ++ TAB
                     ++ number (dmul (GetCellMatrix m i 1) scale) ++ TAB
                     ++ number (dmul (GetCellMatrix m i 2) scale) ++ TAB)).
  - intros i. unfold cellMatrixRow, join. simpl.
    now rewrite append_nil_r, !append_assoc.
  - intros i. split; [apply append_sep_nonempty|].
    apply endsWithNewline_tab, endsWithNewline_tab, endsWithNewline_tab_end.
Qed.

Lemma poscar_trimmed (x : Xtal) :
  exists r, poscar x = r ++ NL /\ endsWithNewline r = false.
Proof.
  unfold poscar.
  set (head := join (map poscarVectorLine (GetCellVectors (mol x)))).
  set (counts := join (map (fun n => pretty n ++ " ")
                           (getNumberOfAtomsAlpha (mol x)))).
  destruct (lines_or_empty poscarVectorLine
              (fun v => number (vx v) ++ " " ++ number (vy v) ++ " "
                        ++ number (vz v) ++ " ")
              (getAtomCoordsFrac (mol x))) as [E|(r & E & Hne & Hr)].
  - intros v. unfold poscarVectorLine. now rewrite !append_assoc.
  - intros v. split; [apply append_sep_nonempty|].
    apply endsWithNewline_space, endsWithNewline_space,
      endsWithNewline_space_end.
  - rewrite E.
    exists ((fileName x ++ NL ++ number (Fin 1) ++ NL ++ head ++ counts
             ++ NL) ++ "Direct").
    split; [now rewrite append_nil_r, !append_assoc|].
    now rewrite endsWithNewline_app.
  - rewrite E.
    exists ((fileName x ++ NL ++ number (Fin 1) ++ NL ++ head ++ counts
             ++ NL ++ "Direct" ++ NL) ++ r).
    split; [now rewrite !append_assoc|].
    now rewrite endsWithNewline_app.
Qed.

Lemma interpretKeyword_trimmed (line : string) (x : Xtal) :
  In line xtalKeywords -> endsWithNewline (interpretKeyword line x) = false.
Proof.
  intros Hin. unfold interpretKeyword.
  simpl in Hin.
  repeat (destruct Hin as [<-|Hin];
          [first [ apply trimmed_plain;
                   [first [ apply number_no_trailing_newline
                          | apply cellVectorText_end ]
                   | reflexivity ]
                 | apply trimmed_lines;
                   [first [ apply coordsFrac_trimmed
                          | apply coordsFracId_trimmed
                          | apply cellMatrix_trimmed
                          | right; apply poscar_trimmed ]
                   | reflexivity ] ]
          |]).
  contradiction.
Qed.


(** C6 (what the code does).  The template is cut at the [%] signs;
    each piece becomes its expansion and the pieces are joined with
    nothing between them, a single newline at the end.  The text of a
    segment that is not recognized (the base class leaves it, and it is
    none of the crystal keywords) goes into the output as it is, but
    without the [%] signs around it: no piece holds a [%] sign, and none
    is written back when the pieces are joined.  The expansion of a
    crystal keyword has no newline at its end: the one that closes the
    replacement text is removed. *)
Theorem interpretTemplate_expands (templateString : string) (x : Xtal) :
  interpretTemplate templateString x
  = join (map (expand x) (split "%" templateString)) ++ NL
  /\ (forall piece, ~ recognized piece x -> expand x piece = piece)
  /\ (forall line, In line xtalKeywords ->
        endsWithNewline (interpretKeyword line x) = false)
  /\ (forall line r, replacement line x = r ++ NL ->
        interpretKeyword line x = r)
  /\ (forall piece, piece ∈ split "%" templateString ->
        occurs "%" piece = false)
  /\ join (split "%" templateString) = removeChar "%" templateString.
Proof.
  split; [|split; [|split; [|split; [|split]]]];
    [..|apply split_no_separator|apply join_split].
  - unfold interpretTemplate. now rewrite interpretPieces_map.
  - intros piece Hnot. unfold recognized in Hnot.
    assert (Hbase : interpretKeyword_base piece x = piece).
    { destruct (string_dec (interpretKeyword_base piece x) piece);
        [assumption|tauto]. }
    unfold expand, interpretKeyword. rewrite Hbase in *.
    rewrite replacement_unrecognized by tauto. reflexivity.
  - intros line. apply interpretKeyword_trimmed.
  - intros line r Hrep. unfold interpretKeyword. rewrite Hrep.
    destruct (negb (isEmpty (r ++ NL))) eqn:E.
    + apply removeTrailingNewline_app_NL.
    + destruct r; discriminate.
Qed.

End Trimmed.

End Keywords.

(** *** An instance, to run the expansion *)

Definition example_number (d : dbl) : string :=
  match d with
  | Fin q =>
      NilZero.string_of_int (Z.to_int (Qnum q)) ++ "/"
      ++ NilEmpty.string_of_uint (Pos.to_uint (Qden q))
  | PInf => "inf"
  | NInf => "-inf"
  | NaN => "nan"
  end.

Definition example_cartToFrac (m : Molecule) (p : Q * Q * Q) : Vec3 :=
  (ddiv (Fin p.1.1) (cell_a (cell m)),
   ddiv (Fin p.1.2) (cell_b (cell m)),
   ddiv (Fin p.2) (cell_c (cell m))).

Definition example_GetSymbol (n : nat) : string :=
  if Nat.eqb n 14 then "Si" else if Nat.eqb n 8 then "O" else "X".

Definition example_GetCellVectors (m : Molecule) : list Vec3 :=
  [(cell_a (cell m), Fin 0, Fin 0);
   (Fin 0, cell_b (cell m), Fin 0);
   (Fin 0, Fin 0, cell_c (cell m))].

Definition example_GetCellMatrix (m : Molecule) (i j : nat) : dbl :=
  let v := default (Fin 0, Fin 0, Fin 0) (example_GetCellVectors m !! i) in
  match j with
  | 0%nat => vx v
  | 1%nat => vy v
  | _ => vz v
  end.

(** Modelled from the spec: [interpretKeyword_base] belongs to the base
    class, whose code is not among the sources; of the keywords the
    specification lists, [gen] and [id] are the two that
    [interpretKeyword] does not handle. *)
Definition example_interpretKeyword_base (line : string) (x : Xtal)
  : string :=
  if line =? "gen" then pretty (generation x)
  else if line =? "id" then pretty (idNumber x)
  else line.

Definition example_interpretTemplate : string -> Xtal -> string :=
  interpretTemplate example_number (17453293 # 1000000000)
    CheckXtal.ortho_getVolume example_cartToFrac example_GetSymbol
    example_GetCellMatrix example_GetCellVectors
    (fun m => [length (atoms m)])
    (fun m => map (fun a => example_cartToFrac m (pos a)) (atoms m))
    example_interpretKeyword_base.

Definition example_expand : Xtal -> string -> string :=
  expand example_number (17453293 # 1000000000)
    CheckXtal.ortho_getVolume example_cartToFrac example_GetSymbol
    example_GetCellMatrix example_GetCellVectors
    (fun m => [length (atoms m)])
    (fun m => map (fun a => example_cartToFrac m (pos a)) (atoms m))
    example_interpretKeyword_base.

Definition example_crystal : Xtal :=
  mkXtal (mkMolecule
            (mkCell (Fin 4) (Fin 5) (Fin 3) (Fin 90) (Fin 90) (Fin 90))
            [mkAtom 14 (1, 1, 1); mkAtom 8 (2, 0, 3)])
         225 Optimized 3 7 0 "Randomly generated" "" None None 0 1 0
         "/tmp/session/00003x00007/" "".

Lemma string_of_uint_no_newline (d : Decimal.uint) :
  endsWithNewline (NilEmpty.string_of_uint d) = false.
Proof.
  induction d; [reflexivity|..]; cbn [NilEmpty.string_of_uint];
    (apply endsWithNewline_cons; [discriminate|assumption]).
Qed.

Lemma example_number_no_newline (d : dbl) :
  endsWithNewline (example_number d) = false.
Proof.
  destruct d; try reflexivity. unfold example_number.
  apply (endsWithNewline_sep "/"%char); [discriminate|].
  apply string_of_uint_no_newline.
Qed.

Lemma interpretTemplate_expands_witness :
  example_interpretTemplate "a=%a% %foo% id=%id%" example_crystal
  = join (map (example_expand example_crystal)
              (split "%" "a=%a% %foo% id=%id%")) ++ NL
  /\ example_expand example_crystal "foo" = "foo"
  /\ endsWithNewline (example_expand example_crystal "coordsFrac") = false.
Proof.
  pose proof (interpretTemplate_expands example_number
                (17453293 # 1000000000)
                CheckXtal.ortho_getVolume example_cartToFrac example_GetSymbol
                example_GetCellMatrix example_GetCellVectors
                (fun m => [length (atoms m)])
                (fun m => map (fun a => example_cartToFrac m (pos a))
                              (atoms m))
                example_interpretKeyword_base example_number_no_newline
                "a=%a% %foo% id=%id%" example_crystal)
    as (H1 & H2 & H3 & _).
  split; [exact H1|]. split.
  - apply H2. unfold recognized. intros [H|H]; [now apply H|].
    cbv in H. repeat (destruct H as [H|H]; [discriminate|]). exact H.
  - apply (H3 "coordsFrac"). simpl. tauto.
Defined.

(** C6, as the specification has it: a [%KEYWORD%] segment that is
    not recognized passes through unchanged into the output. *)
Definition passesThroughUnchanged : Prop :=
  forall keyword : string,
    ~ recognized example_interpretKeyword_base keyword example_crystal ->
    example_interpretTemplate ("%" ++ keyword ++ "%") example_crystal
    = "%" ++ keyword ++ "%" ++ NL.

(** The segment [%FOO%] is not recognized, and it comes out as [FOO]:
    its text is kept, its [%] signs are not. *)
Lemma interpretTemplate_drops_percent_signs :
  ~ recognized example_interpretKeyword_base "FOO" example_crystal
  /\ example_interpretTemplate "%FOO%" example_crystal = "FOO" ++ NL
  /\ ~ passesThroughUnchanged.
Proof.
  assert (Hfoo : ~ recognized example_interpretKeyword_base "FOO"
                   example_crystal).
  { unfold recognized. intros [H|H]; [now apply H|].
    cbv in H. repeat (destruct H as [H|H]; [discriminate|]). exact H. }
  split; [exact Hfoo|]. split; [vm_compute; reflexivity|].
  intros H. specialize (H "FOO" Hfoo). vm_compute in H. discriminate H.
Qed.

Lemma interpretTemplate_without_keywords_witness :
  example_interpretTemplate "ISTART = 0 % 100%" example_crystal
  = "ISTART = 0  100" ++ NL.
Proof.
  apply (interpretTemplate_without_keywords example_number
           (17453293 # 1000000000)
           CheckXtal.ortho_getVolume example_cartToFrac example_GetSymbol
           example_GetCellMatrix example_GetCellVectors
           (fun m => [length (atoms m)])
           (fun m => map (fun a => example_cartToFrac m (pos a)) (atoms m))
           example_interpretKeyword_base
           "ISTART = 0 % 100%" example_crystal).
  intros piece Hin. unfold recognized.
  cbv in Hin. apply list_elem_of_In in Hin.
  repeat (destruct Hin as [<-|Hin];
          [intros [H|H]; [now apply H|];
           cbv in H; repeat (destruct H as [H|H]; [discriminate|]); exact H|]).
  destruct Hin.
Defined.

Example interpretTemplate_example :
  example_interpretTemplate "a=%a% %foo% id=%id%" example_crystal
  = "a=4/1 foo id=7" ++ NL.
Proof. vm_compute. reflexivity. Qed.

Example interpretTemplate_coordsFrac :
  example_interpretTemplate "%coordsFrac%" example_crystal
  = "Si 1/4 1/5 1/3" ++ NL ++ "O 2/4 0/5 3/3" ++ NL.
Proof. vm_compute. reflexivity. Qed.

End Template.

(** ** GlobalSearch: the pool of SSH connections (sshmanager.cpp) *)

Module SSHManager.

Local Open Scope string_scope.

(** The exceptions of [SSHConnection] that the engine tells apart. *)
Inductive SSHConnectionException : Type :=
| SSH_CONNECTION_ERROR
| SSH_UNKNOWN_ERROR
| SSH_UNKNOWN_HOST_ERROR
| SSH_BAD_PASSWORD_ERROR.

Record LoginDetails : Type := mkLoginDetails {
  host : string;
  user : string;
  pass : string;
  port : nat
}.

(** Modelled from the spec: the class [SSHConnection] is outside the
    sources.  The specification has a channel own a remote session and
    be handed out for exclusive use; the manager reads [inUse()] and
    calls [setUsed], [setLoginDetails] and [connectSession(true)], which
    opens the session or throws. *)
Record SSHConnection : Type := mkSSHConnection {
  inUse : bool;
  loginDetails : option LoginDetails;
  sessionOpen : bool
}.

Definition setUsed (b : bool) (c : SSHConnection) : SSHConnection :=
  mkSSHConnection b (loginDetails c) (sessionOpen c).

Definition setLoginDetails (d : LoginDetails) (c : SSHConnection)
  : SSHConnection :=
  mkSSHConnection (inUse c) (Some d) (sessionOpen c).

Definition setSessionOpen (b : bool) (c : SSHConnection) : SSHConnection :=
  mkSSHConnection (inUse c) (loginDetails c) b.

(** The manager: [m_conns] holds pointers, [None] being the null
    pointer the destructor leaves; [m_login] is [m_host], [m_user],
    [m_pass] and [m_port], not set before [makeConnections]. *)
Record SSHManager : Type := mkSSHManager {
  m_conns : list (option SSHConnection);
  m_isValid : bool;
  m_login : option LoginDetails;
  m_hexa : string
}.

Definition setConns (conns : list (option SSHConnection)) (m : SSHManager)
  : SSHManager :=
  mkSSHManager conns (m_isValid m) (m_login m) (m_hexa m).

(** [SSHManager::SSHManager(connections, parent)] *)
Definition SSHManager_new (connections : nat) : SSHManager :=
  mkSSHManager (replicate connections (Some (mkSSHConnection false None false)))
               false None "".

(** How a call ends: it returns, it never leaves a loop on its own
    (within the rounds given), or it follows a null pointer. *)
Inductive Run (A : Type) : Type :=
| Returns (a : A)
| Spins
| Crashes.
Arguments Returns {A} a.
Arguments Spins {A}.
Arguments Crashes {A}.

(** How [makeConnections] ends. *)
Inductive Outcome : Type :=
| Connected
| Thrown (e : SSHConnectionException)
| NullPointer.

(** The inner loop of [getFreeConnection] from position [i] on: the
    first pointer that is not null and whose connection is not in use. *)
Fixpoint findFree (conns : list (option SSHConnection)) (i : nat)
  : option nat :=
  match conns with
  | [] => None
  | Some c :: conns' =>
      if negb (inUse c) then Some i else findFree conns' (S i)
  | None :: conns' => findFree conns' (S i)
  end.

(** [setUsed(true)] on the connection found. *)
Definition checkOut (i : nat) (m : SSHManager) : SSHManager :=
  setConns (alter (fmap (setUsed true)) i (m_conns m)) m.

(** [SSHManager::getFreeConnection]; the connection returned is given
    by its position in [m_conns].  [fuel] bounds the rounds of the
    [for (;;)]. *)
Fixpoint getFreeConnection (fuel : nat) (m : SSHManager)
  : Run (nat * SSHManager) :=
  match fuel with
  | O => Spins
  | S fuel' =>
      match findFree (m_conns m) 0 with
      | Some i => Returns (i, checkOut i m)
      | None => getFreeConnection fuel' m
      end
  end.

(** [SSHManager::unlockConnection(ssh)], for the connection at
    position [i]. *)
Definition unlockConnection (i : nat) (m : SSHManager) : SSHManager :=
  setConns (alter (fmap (setUsed false)) i (m_conns m)) m.

(** The loop of the destructor: it waits at a connection in use, and
    leaves null pointers behind. *)
Fixpoint deleteAll (conns : list (option SSHConnection))
  : Run (list (option SSHConnection)) :=
  match conns with
  | [] => Returns []
  | Some c :: conns' =>
      if inUse c then Spins
      else match deleteAll conns' with
           | Returns r => Returns (None :: r)
           | Spins => Spins
           | Crashes => Crashes
           end
  | None :: _ => Crashes
  end.

(** [SSHManager::~SSHManager] *)
Definition SSHManager_delete (m : SSHManager) : Run SSHManager :=
  match deleteAll (m_conns m) with
  | Returns conns => Returns (setConns conns m)
  | Spins => Spins
  | Crashes => Crashes
  end.

Definition getServerKeyHash (m : SSHManager) : string := m_hexa m.

Definition setServerKey (hexa : string) (m : SSHManager) : SSHManager :=
  mkSSHManager (m_conns m) (m_isValid m) (m_login m) hexa.

Section WithNetwork.

(** The network and the file of known hosts, outside the sources:
    [connectSession(true)] with the login details set either opens the
    session or throws; [SSHConnection::addKeyToKnownHosts]. *)
Variable World : Type.
Variable openSession :
  LoginDetails -> World -> option SSHConnectionException * World.
Variable addKeyToKnownHosts : string -> nat -> World -> bool * World.

(** The loop of [makeConnections]. *)
Fixpoint connectAll (d : LoginDetails) (conns : list (option SSHConnection))
    (w : World) : list (option SSHConnection) * World * Outcome :=
  match conns with
  | [] => ([], w, Connected)
  | None :: conns' => (None :: conns', w, NullPointer)
  | Some c :: conns' =>
      let c := setLoginDetails d c in
      match openSession d w with
      | (Some e, w) => (Some c :: conns', w, Thrown e)
      | (None, w) =>
          let '(conns'', w, r) := connectAll d conns' w in
          (Some (setSessionOpen true c) :: conns'', w, r)
      end
  end.

(** [SSHManager::makeConnections(host, user, pass, port)] *)
Definition makeConnections (host user pass : string) (port : nat)
    (m : SSHManager) (w : World) : SSHManager * World * Outcome :=
  let d := mkLoginDetails host user pass port in
  let '(conns, w, r) := connectAll d (m_conns m) w in
  (mkSSHManager conns
                (match r with Connected => true | _ => false end)
                (Some d) (m_hexa m),
   w, r).

(** [SSHManager::validateServerKey] *)
Definition validateServerKey (m : SSHManager) (w : World) : bool * World :=
  match m_login m with
  | Some d => addKeyToKnownHosts (host d) (port d) w
  | None => addKeyToKnownHosts "" 0 w
  end.


(** *** Opening the connections *)

Lemma connectAll_spec (d : LoginDetails)
    (conns : list (option SSHConnection)) :
  forall w,
    let res := connectAll d conns w in
    let conns' := res.1.1 in
    length conns' = length conns
    /\ (forall i c c', conns !! i = Some (Some c) ->
          conns' !! i = Some (Some c') -> inUse c' = inUse c)
    /\ match res.2 with
       | Connected =>
           forall i p, conns !! i = Some p ->
             exists c, p = Some c
               /\ conns' !! i
                  = Some (Some (mkSSHConnection (inUse c) (Some d) true))
       | Thrown e =>
           exists k c,
             conns !! k = Some (Some c)
             /\ conns' !! k
                = Some (Some (mkSSHConnection (inUse c) (Some d)
                                              (sessionOpen c)))
             /\ (forall i p, (i < k)%nat -> conns !! i = Some p ->
                   exists c0, p = Some c0
                     /\ conns' !! i
                        = Some (Some (mkSSHConnection (inUse c0) (Some d)
                                                      true)))
             /\ (forall i, (k < i)%nat -> conns' !! i = conns !! i)
       | NullPointer => exists k, conns !! k = Some None
       end.
Proof.
  induction conns as [|[c|] conns IH]; intros w; cbv zeta; cbn [connectAll].
  - cbn. split; [reflexivity|]. split; [intros i c c' H; discriminate|].
    intros i p H. discriminate.
  - destruct (openSession d w) as [[e|] w1].
    + cbn. split; [reflexivity|]. split.
      { intros [|i] c0 c' H1 H2; cbn in H1, H2; [|congruence].
        injection H1 as <-. injection H2 as <-. reflexivity. }
      exists 0%nat, c. split; [reflexivity|]. split; [reflexivity|].
      split; [intros i p Hi; lia|]. intros [|i] Hi; [lia|reflexivity].
    + specialize (IH w1). cbv zeta in IH.
      destruct (connectAll d conns w1) as [[conns' w2] r].
      cbn [fst snd] in *. destruct IH as (Hlen & Huse & Hr).
      split; [cbn; now rewrite Hlen|]. split.
      { intros [|i] c0 c' H1 H2; cbn in H1, H2.
        - injection H1 as <-. injection H2 as <-. reflexivity.
        - eapply Huse; eauto. }
      destruct r as [|e|].
      * intros [|i] p H; cbn in H.
        -- injection H as <-. exists c. split; reflexivity.
        -- apply Hr, H.
      * destruct Hr as (k & c0 & H1 & H2 & H3 & H4).
        exists (S k), c0. split; [exact H1|]. split; [exact H2|]. split.
        -- intros [|i] p Hi H; cbn in H.
           ++ injection H as <-. exists c. split; reflexivity.
           ++ apply H3; [lia|exact H].
        -- intros [|i] Hi; [lia|]. cbn. apply H4. lia.
      * destruct Hr as [k Hk]. exists (S k). exact Hk.
  - cbn. split; [reflexivity|]. split.
    { intros [|i] c0 c' H1 H2; cbn in H1, H2; congruence. }
    exists 0%nat. reflexivity.
Qed.

(** X17.  [makeConnections] stores the login details and leaves the
    manager valid exactly when no connection threw: then every
    connection holds the details given and an open session.  When a
    connection throws, the manager is left invalid, the connections
    before it are open, it holds the details but its session is as it
    was, and those after it are untouched.  The number of connections
    and their [inUse] flags never change. *)
Theorem makeConnections_valid_iff_all_open
    (host user pass : string) (port : nat) (m : SSHManager) (w : World) :
  let d := mkLoginDetails host user pass port in
  let res := makeConnections host user pass port m w in
  let m' := res.1.1 in
  (m_isValid m' = true <-> res.2 = Connected)
  /\ m_login m' = Some d /\ m_hexa m' = m_hexa m
  /\ length (m_conns m') = length (m_conns m)
  /\ (forall i c c', m_conns m !! i = Some (Some c) ->
        m_conns m' !! i = Some (Some c') -> inUse c' = inUse c)
  /\ (res.2 = Connected ->
      forall i p, m_conns m !! i = Some p ->
        exists c, p = Some c
          /\ m_conns m' !! i
             = Some (Some (mkSSHConnection (inUse c) (Some d) true)))
  /\ (forall e, res.2 = Thrown e ->
      exists k c,
        m_conns m !! k = Some (Some c)
        /\ m_conns m' !! k
           = Some (Some (mkSSHConnection (inUse c) (Some d) (sessionOpen c)))
        /\ (forall i p, (i < k)%nat -> m_conns m !! i = Some p ->
              exists c0, p = Some c0
                /\ m_conns m' !! i
                   = Some (Some (mkSSHConnection (inUse c0) (Some d) true)))
        /\ (forall i, (k < i)%nat -> m_conns m' !! i = m_conns m !! i)).
Proof.
  cbv zeta. unfold makeConnections.
  pose proof (connectAll_spec (mkLoginDetails host user pass port)
                (m_conns m) w) as H. cbv zeta in H.
  destruct (connectAll _ (m_conns m) w) as [[conns' w'] r].
  cbn [fst snd m_conns m_isValid m_login m_hexa] in *.
  destruct H as (Hlen & Huse & Hr).
  split; [destruct r; split; congruence|].
  split; [reflexivity|]. split; [reflexivity|]. split; [exact Hlen|].
  split; [exact Huse|]. split.
  - intros ->. exact Hr.
  - intros e ->. exact Hr.
Qed.

End WithNetwork.

(** *** Handing out connections *)

(** The connection at [i] can be handed out. *)
Definition free (i : nat) (m : SSHManager) : Prop :=
  exists c, m_conns m !! i = Some (Some c) /\ inUse c = false.

Lemma findFree_spec (conns : list (option SSHConnection)) :
  forall base,
    match findFree conns base with
    | Some k =>
        (base <= k)%nat
        /\ (exists c, conns !! (k - base)%nat = Some (Some c)
                      /\ inUse c = false)
        /\ (forall j c, (j < k - base)%nat -> conns !! j = Some (Some c) ->
              inUse c = true)
    | None =>
        forall j c, conns !! j = Some (Some c) -> inUse c = true
    end.
Proof.
  induction conns as [|[c|] conns IH]; intros base; cbn [findFree].
  - intros j c H. discriminate.
  - destruct (inUse c) eqn:Hc; cbn [negb].
    + specialize (IH (S base)). destruct (findFree conns (S base)) as [k|].
      * destruct IH as (Hk & (c' & Hc' & Hf) & Hb). split; [lia|]. split.
        -- exists c'. split; [|exact Hf].
           replace (k - base)%nat with (S (k - S base)) by lia. exact Hc'.
        -- intros [|j] c0 Hj H; cbn in H; [congruence|].
           apply (Hb j); [lia|exact H].
      * intros [|j] c0 H; cbn in H; [congruence|]. now apply (IH j).
    + split; [lia|]. rewrite Nat.sub_diag. split; [now exists c|].
      intros j c0 Hj. lia.
  - specialize (IH (S base)). destruct (findFree conns (S base)) as [k|].
    + destruct IH as (Hk & (c' & Hc' & Hf) & Hb). split; [lia|]. split.
      * exists c'. split; [|exact Hf].
        replace (k - base)%nat with (S (k - S base)) by lia. exact Hc'.
      * intros [|j] c0 Hj H; cbn in H; [congruence|].
        apply (Hb j); [lia|exact H].
    + intros [|j] c0 H; cbn in H; [congruence|]. now apply (IH j).
Qed.

Lemma findFree_free (m : SSHManager) k :
  findFree (m_conns m) 0 = Some k -> free k m.
Proof.
  intros E. pose proof (findFree_spec (m_conns m) 0) as H. rewrite E in H.
  destruct H as (_ & H & _). now rewrite Nat.sub_0_r in H.
Qed.

Lemma getFreeConnection_returns (m : SSHManager) :
  forall fuel i m',
    getFreeConnection fuel m = Returns (i, m') ->
    exists c,
      m_conns m !! i = Some (Some c) /\ inUse c = false
      /\ (forall j c', (j < i)%nat -> m_conns m !! j = Some (Some c') ->
            inUse c' = true)
      /\ m' = setConns (<[i := Some (setUsed true c)]> (m_conns m)) m.
Proof.
  pose proof (findFree_spec (m_conns m) 0) as Hspec.
  intros fuel. induction fuel as [|fuel IH]; intros i m';
    cbn [getFreeConnection]; [discriminate|].
  destruct (findFree (m_conns m) 0) as [k|]; [|apply IH].
  intros H. injection H as <- <-.
  destruct Hspec as (_ & (c & Hc & Hf) & Hb).
  rewrite Nat.sub_0_r in Hc, Hb. exists c.
  split; [exact Hc|]. split; [exact Hf|]. split; [exact Hb|].
  unfold checkOut. now rewrite Duplicates.alter_as_insert, Hc.
Qed.

Lemma getFreeConnection_spins (m : SSHManager) :
  (forall i, ~ free i m) -> forall fuel, getFreeConnection fuel m = Spins.
Proof.
  intros Hnone fuel. induction fuel as [|fuel IH]; [reflexivity|].
  cbn [getFreeConnection].
  destruct (findFree (m_conns m) 0) as [k|] eqn:E; [|exact IH].
  exfalso. apply (Hnone k). now apply findFree_free.
Qed.

(** X14.  [getFreeConnection] hands out the first connection of the
    list that is not in use, marks it used and changes nothing else of
    the manager; it returns in the first round when some connection is
    free, and when every connection is in use (or deleted) it never
    returns on its own. *)
Theorem getFreeConnection_first_free (m : SSHManager) :
  (forall fuel i m',
      getFreeConnection fuel m = Returns (i, m') ->
      exists c,
        m_conns m !! i = Some (Some c) /\ inUse c = false
        /\ (forall j c', (j < i)%nat -> m_conns m !! j = Some (Some c') ->
              inUse c' = true)
        /\ m' = setConns (<[i := Some (setUsed true c)]> (m_conns m)) m)
  /\ (forall i, free i m ->
        exists k m', (k <= i)%nat /\ free k m
          /\ forall fuel, getFreeConnection (S fuel) m = Returns (k, m'))
  /\ ((forall i, ~ free i m) ->
      forall fuel, getFreeConnection fuel m = Spins).
Proof.
  split; [apply getFreeConnection_returns|].
  split; [|apply getFreeConnection_spins].
  pose proof (findFree_spec (m_conns m) 0) as Hspec.
  intros i (c & Hc & Hf). destruct (findFree (m_conns m) 0) as [k|] eqn:E.
  - destruct Hspec as (_ & (c' & Hc' & Hf') & Hb).
    rewrite Nat.sub_0_r in Hc', Hb. exists k, (checkOut k m).
    split; [|split; [now exists c'|]].
    + destruct (decide (k <= i)%nat) as [|Hlt]; [assumption|].
      specialize (Hb i c ltac:(lia) Hc). congruence.
    + intros fuel. cbn [getFreeConnection]. now rewrite E.
  - specialize (Hspec i c Hc). congruence.
Qed.

(** X15.  Taking a connection and giving it back leaves the manager
    as it was: the connection is free again, and was not while it was
    out. *)
Theorem unlockConnection_after_getFreeConnection
    (fuel i : nat) (m m' : SSHManager) :
  getFreeConnection fuel m = Returns (i, m') ->
  unlockConnection i m' = m /\ free i m /\ ~ free i m'.
Proof.
  intros H.
  destruct (getFreeConnection_returns m fuel i m' H)
    as (c & Hc & Hf & _ & ->).
  pose proof (lookup_lt_Some _ _ _ Hc) as Hi.
  split; [|split; [now exists c|]].
  - unfold unlockConnection, setConns. cbn.
    rewrite Duplicates.alter_as_insert, list_lookup_insert_eq by exact Hi.
    rewrite list_insert_insert_eq. cbn.
    replace (setUsed false (setUsed true c)) with c
      by (destruct c; cbn in Hf; now subst).
    rewrite list_insert_id by exact Hc. now destruct m.
  - intros (c' & Hc' & Hf'). cbn in Hc'.
    rewrite list_lookup_insert_eq in Hc' by exact Hi.
    injection Hc' as <-. discriminate.
Qed.

(** *** Exclusive use *)

(** A history of the pool: the rounds of [getFreeConnection] and the
    calls of [unlockConnection] of the threads that use it, in the order
    in which they take effect, and what they do. *)
Inductive Op : Type := Get | Unlock (i : nat).

Inductive Event : Type := Got (i : nat) | Blocked | Unlocked (i : nat).

Fixpoint run (ops : list Op) (m : SSHManager) : list Event :=
  match ops with
  | [] => []
  | Get :: ops' =>
      match findFree (m_conns m) 0 with
      | Some i => Got i :: run ops' (checkOut i m)
      | None => Blocked :: run ops' m
      end
  | Unlock i :: ops' => Unlocked i :: run ops' (unlockConnection i m)
  end.

Lemma not_free_checkOut i k m :
  i = k \/ ~ free i m -> ~ free i (checkOut k m).
Proof.
  intros Hor (c & Hc & Hf). unfold checkOut in Hc. cbn in Hc.
  destruct (decide (i = k)) as [->|Hne].
  - rewrite list_lookup_alter_eq in Hc.
    destruct (m_conns m !! k) as [[c0|]|]; cbn in Hc; try discriminate.
    injection Hc as <-. discriminate.
  - rewrite list_lookup_alter_ne in Hc by congruence.
    destruct Hor as [|Hn]; [congruence|]. apply Hn. now exists c.
Qed.

Lemma not_free_unlockConnection i j m :
  i <> j -> ~ free i m -> ~ free i (unlockConnection j m).
Proof.
  intros Hne Hn (c & Hc & Hf). unfold unlockConnection in Hc. cbn in Hc.
  rewrite list_lookup_alter_ne in Hc by congruence. apply Hn. now exists c.
Qed.

Lemma busy_until_unlocked (ops : list Op) (i : nat) :
  forall m mid post,
    ~ free i m -> run ops m = (mid ++ Got i :: post)%list ->
    Unlocked i ∈ mid.
Proof.
  induction ops as [|[|j] ops IH]; intros m mid post Hn; cbn [run].
  - intros H. now destruct mid.
  - destruct (findFree (m_conns m) 0) as [k|] eqn:E.
    + destruct mid as [|e mid]; cbn; intros H; injection H as H1 H2.
      * subst k. exfalso. apply Hn. now apply findFree_free.
      * right. eapply IH; [|exact H2]. apply not_free_checkOut. now right.
    + destruct mid as [|e mid]; cbn; intros H; [discriminate|].
      injection H as H1 H2. right. eapply IH; eauto.
  - destruct mid as [|e mid]; cbn; intros H; [discriminate|].
    injection H as H1 H2. subst e.
    destruct (decide (i = j)) as [->|Hne]; [left|]. right.
    eapply IH; [|exact H2]. now apply not_free_unlockConnection.
Qed.

(** X16.  A connection is in exclusive use: in every history of the
    pool, between two rounds of [getFreeConnection] that hand out the
    same connection there is a call of [unlockConnection] for it. *)
Theorem getFreeConnection_exclusive (ops : list Op) (i : nat) :
  forall m pre mid post,
    run ops m = (pre ++ Got i :: mid ++ Got i :: post)%list ->
    Unlocked i ∈ mid.
Proof.
  induction ops as [|op ops IH]; intros m pre mid post.
  - cbn. intros H. now destruct pre.
  - destruct pre as [|e pre].
    + destruct op as [|j]; cbn [run app].
      * destruct (findFree (m_conns m) 0) as [k|]; intros H;
          [|discriminate]. injection H as -> H.
        eapply busy_until_unlocked; [|exact H].
        apply not_free_checkOut. now left.
      * intros H. discriminate.
    + destruct op as [|j]; cbn [run app].
      * destruct (findFree (m_conns m) 0) as [k|]; intros H;
          injection H as _ H; eapply IH, H.
      * intros H. injection H as _ H. eapply IH, H.
Qed.

Lemma getFreeConnection_exclusive_witness :
  run [Get; Unlock 0; Get] (SSHManager_new 1)
  = ([] ++ Got 0 :: [Unlocked 0] ++ Got 0 :: [])%list
  /\ Unlocked 0 ∈ [Unlocked 0].
Proof.
  split; [reflexivity|].
  exact (getFreeConnection_exclusive [Get; Unlock 0; Get] 0
           (SSHManager_new 1) [] [Unlocked 0] [] eq_refl).
Defined.

Lemma unlockConnection_after_getFreeConnection_witness :
  unlockConnection 0 (checkOut 0 (SSHManager_new 2)) = SSHManager_new 2
  /\ free 0 (SSHManager_new 2)
  /\ ~ free 0 (checkOut 0 (SSHManager_new 2)).
Proof.
  exact (unlockConnection_after_getFreeConnection 1 0 (SSHManager_new 2)
           (checkOut 0 (SSHManager_new 2)) eq_refl).
Defined.

(** *** Teardown *)

Lemma deleteAll_spec (conns : list (option SSHConnection)) :
  match deleteAll conns with
  | Returns r =>
      r = replicate (length conns) None
      /\ forall i p, conns !! i = Some p ->
           exists c, p = Some c /\ inUse c = false
  | Spins =>
      exists k c, conns !! k = Some (Some c) /\ inUse c = true
                  /\ forall i p, (i < k)%nat -> conns !! i = Some p ->
                       exists c0, p = Some c0 /\ inUse c0 = false
  | Crashes => exists k, conns !! k = Some None
  end.
Proof.
  induction conns as [|[c|] conns IH]; cbn [deleteAll].
  - split; [reflexivity|]. intros i p H. discriminate.
  - destruct (inUse c) eqn:Hc.
    + exists 0%nat, c. split; [reflexivity|]. split; [exact Hc|].
      intros i p Hi. lia.
    + destruct (deleteAll conns) as [r| |].
      * destruct IH as [-> IH]. split; [reflexivity|].
        intros [|i] p H; cbn in H; [|now apply (IH i)].
        injection H as <-. now exists c.
      * destruct IH as (k & c0 & H1 & H2 & H3). exists (S k), c0.
        split; [exact H1|]. split; [exact H2|].
        intros [|i] p Hi H; cbn in H; [|apply (H3 i); [lia|exact H]].
        injection H as <-. now exists c.
      * destruct IH as [k Hk]. now exists (S k).
  - now exists 0%nat.
Qed.

(** X18.  The destructor returns only when every connection is there
    and free; it leaves null pointers only, so that a later
    [getFreeConnection] never returns.  With a connection in use it
    stays in its loop at the first such connection. *)
Theorem SSHManager_delete_waits_for_connections (m : SSHManager) :
  (forall m', SSHManager_delete m = Returns m' ->
     m' = setConns (replicate (length (m_conns m)) None) m
     /\ (forall i p, m_conns m !! i = Some p ->
           exists c, p = Some c /\ inUse c = false)
     /\ forall fuel, getFreeConnection fuel m' = Spins)
  /\ ((forall i p, m_conns m !! i = Some p ->
         exists c, p = Some c /\ inUse c = false) ->
      SSHManager_delete m
      = Returns (setConns (replicate (length (m_conns m)) None) m))
  /\ (SSHManager_delete m = Spins ->
      exists k c, m_conns m !! k = Some (Some c) /\ inUse c = true
                  /\ forall i p, (i < k)%nat -> m_conns m !! i = Some p ->
                       exists c0, p = Some c0 /\ inUse c0 = false).
Proof.
  unfold SSHManager_delete. pose proof (deleteAll_spec (m_conns m)) as H.
  destruct (deleteAll (m_conns m)) as [r| |].
  - destruct H as [-> H]. split; [|split; [reflexivity|discriminate]].
    intros m' E. injection E as <-. split; [reflexivity|].
    split; [exact H|]. apply getFreeConnection_spins.
    intros i (c & Hc & _). cbn in Hc.
    apply lookup_replicate in Hc as [Hc _]. discriminate.
  - split; [discriminate|]. split; [|intros _; exact H].
    intros Hall. destruct H as (k & c & H1 & H2 & _).
    destruct (Hall k _ H1) as (c' & E & Hf). injection E as <-. congruence.
  - split; [discriminate|]. split; [|discriminate].
    intros Hall. destruct H as (k & H1).
    destruct (Hall k _ H1) as (c' & E & _). discriminate.
Qed.

End SSHManager.

(** ** XtalOpt: the engine *)

Module Engine.

Local Open Scope string_scope.

(** The state of the engine that the functions below read and write.
    - [tracker]: the list of [m_tracker]; a [Structure*] is the position
      of the structure in it.
    - [jobStartTracker]: the structures waiting for their first
      submission, as positions in [tracker].
    - [isStarting], [readOnly]: the flags of the same names.
    - [scans]: the calls of [checkForDuplicates_] handed to
      [QtConcurrent::run] that have not finished yet.
    - [messages]: what [error] and [warning] were called with. *)
Record Engine : Type := mkEngine {
  tracker : list Xtal;
  jobStartTracker : list nat;
  isStarting : bool;
  readOnly : bool;
  scans : nat;
  messages : list string
}.

Definition setTracker (t : list Xtal) (e : Engine) : Engine :=
  mkEngine t (jobStartTracker e) (isStarting e) (readOnly e) (scans e)
           (messages e).

Definition setJobStartTracker (j : list nat) (e : Engine) : Engine :=
  mkEngine (tracker e) j (isStarting e) (readOnly e) (scans e) (messages e).

Definition setReadOnly (r : bool) (e : Engine) : Engine :=
  mkEngine (tracker e) (jobStartTracker e) (isStarting e) r (scans e)
           (messages e).

Definition setScans (n : nat) (e : Engine) : Engine :=
  mkEngine (tracker e) (jobStartTracker e) (isStarting e) (readOnly e) n
           (messages e).

(** [error(msg)] and [warning(msg)] *)
Definition report (msg : string) (e : Engine) : Engine :=
  mkEngine (tracker e) (jobStartTracker e) (isStarting e) (readOnly e)
           (scans e) (messages e ++ [msg]).

(** [XtalOpt::checkForDuplicates], the slot: nothing while the session
    is starting, otherwise one more run of [checkForDuplicates_] is
    handed to the thread pool. *)
Definition checkForDuplicates (e : Engine) : Engine :=
  if isStarting e then e else setScans (S (scans e)) e.

(** A run of [checkForDuplicates_] comes to its end. *)
Definition scanFinished (e : Engine) : Engine :=
  setScans (Nat.pred (scans e)) e.

(** Modelled from the spec: [Tracker::append] is declared in tracker.h
    and defined outside the sources.  The specification has it publish
    the candidate and emit [new_structure_added]; the constructor of
    [XtalOpt] connects that signal to the slot [checkForDuplicates]. *)
Definition trackerAppend (x : Xtal) (e : Engine) : Engine :=
  checkForDuplicates (setTracker (tracker e ++ [x]) e).

(** The result of a function with a loop that need not end, or that may
    index a list out of its range. *)
Inductive Result (A : Type) : Type :=
| Done (a : A)
| OutOfFuel
| Abort.
Arguments Done {A} a.
Arguments OutOfFuel {A}.
Arguments Abort {A}.

(** [sprintf("%05d", n)] *)
Definition pad5 (n : nat) : string :=
  let digits := pretty n in
  String.concat "" (replicate (5 - String.length digits) "0") ++ digits.

Inductive Operators : Type := OP_Crossover | OP_Stripple | OP_Permustrain.

Section WithEnvironment.

(** The random number generator ([INIT_RANDOM_GENERATOR], [RANDDOUBLE]). *)
Variable Rng : Type.
Variable INIT_RANDOM_GENERATOR : Rng -> Rng.
Variable RANDDOUBLE : Rng -> Q * Rng.

(** The crystal library. *)
Variable getVolume : Molecule -> Q.
Variable setVolume : Q -> Molecule -> Molecule.
Variable rescaleCell : Q -> Q -> Q -> Q -> Q -> Q -> Molecule -> Molecule.
Variable fixAngles : Molecule -> Molecule.
Variable getShortestInteratomicDistance : Molecule -> option Q.
Variable Xtal_new : Q -> Q -> Q -> Q -> Q -> Q -> Xtal.
Variable OBUnitCell_new : Cell.
Variable addAtomRandomly :
  nat -> Q -> Molecule -> Rng -> option Molecule * Rng.
Variable detectSpaceGroup : Q -> Molecule -> nat.

(** The queue manager, the genetic operators and Qt's formatting. *)
Variable getAllOptimizedStructures : list Xtal -> list Xtal.
Variable sortByEnthalpy : list Xtal -> list Xtal.
Variable getProbabilityList : list Xtal -> list Q.
Variable crossover : Xtal -> Xtal -> Q -> Rng -> option Xtal * Q * Rng.
Variable stripple :
  Xtal -> Q -> Q -> Q -> Q -> nat -> nat -> Rng -> option Xtal * Q * Q * Rng.
Variable permustrain : Xtal -> Q -> nat -> Rng -> option Xtal * Q * Rng.
Variable formatDouble : Q -> nat -> string.

(** [dir.exists() || dir.mkpath(path)] *)
Variable pathAvailable : string -> bool.

Variable opt : Settings.

Definition checkXtal : option Xtal -> bool * option Xtal :=
  CheckXtal.checkXtal getVolume setVolume rescaleCell fixAngles
                  getShortestInteratomicDistance opt.

(** [Xtal::findSpaceGroup(tol)] *)
Definition findSpaceGroup (tol : Q) (x : Xtal) : Xtal :=
  setSpacegroup (detectSpaceGroup tol (mol x)) x.

(** The loop [for (uint i = 0; i < q; i++)] of [generateRandomXtal]:
    [None] when an atom could not be placed. *)
Fixpoint addAtoms (atomicNum : nat) (IAD : Q) (q : nat) (m : Molecule)
    (rng : Rng) : option Molecule * Rng :=
  match q with
  | O => (Some m, rng)
  | S q' =>
      match addAtomRandomly atomicNum IAD m rng with
      | (Some m', rng') => addAtoms atomicNum IAD q' m' rng'
      | (None, rng') => (None, rng')
      end
  end.

(** The loop over the composition. *)
Fixpoint populate (composition : list (nat * nat)) (m : Molecule)
    (rng : Rng) : option Molecule * Rng :=
  match composition with
  | [] => (Some m, rng)
  | (atomicNum, q) :: composition' =>
      let IAD := if using_shortestInteratomicDistance opt
                 then shortestInteratomicDistance opt else -1 in
      match addAtoms atomicNum IAD q m rng with
      | (Some m', rng') => populate composition' m' rng'
      | (None, rng') => (None, rng')
      end
  end.

(** [XtalOpt::generateRandomXtal]; [None] is the null pointer it
    returns when the atoms cannot be placed. *)
Definition generateRandomXtal (generation id : nat) (rng : Rng)
  : option Xtal * Rng :=
  let rng := INIT_RANDOM_GENERATOR rng in
  let '(r, rng) := RANDDOUBLE rng in
  let a := r * (a_max opt - a_min opt) + a_min opt in
  let '(r, rng) := RANDDOUBLE rng in
  let b := r * (b_max opt - b_min opt) + b_min opt in
  let '(r, rng) := RANDDOUBLE rng in
  let c := r * (c_max opt - c_min opt) + c_min opt in
  let '(r, rng) := RANDDOUBLE rng in
  let alpha := r * (alpha_max opt - alpha_min opt) + alpha_min opt in
  let '(r, rng) := RANDDOUBLE rng in
  let beta := r * (beta_max opt - beta_min opt) + beta_min opt in
  let '(r, rng) := RANDDOUBLE rng in
  let gamma := r * (gamma_max opt - gamma_min opt) + gamma_min opt in
  let xtal := Xtal_new a b c alpha beta gamma in
  let xtal := setStatus Empty xtal in
  let xtal := if using_fixed_volume opt
              then setMol (setVolume (vol_fixed opt) (mol xtal)) xtal
              else xtal in
  match populate (comp opt) (mol xtal) rng with
  | (None, rng) => (None, rng)
  | (Some m, rng) =>
      let xtal := setMol m xtal in
      let xtal := setGeneration generation xtal in
      let xtal := setIDNumber id xtal in
      let xtal := setParents "Randomly generated" xtal in
      let xtal := setStatus WaitingForOptimization xtal in
      (Some xtal, rng)
  end.

(** [while (!checkXtal(xtal)) xtal = generateRandomXtal(generation, id);]
    with the candidate that passed as the result. *)
Fixpoint randomUntilValid (fuel : nat) (generation id : nat)
    (xtal : option Xtal) (rng : Rng) : option (Xtal * Rng) :=
  match fuel with
  | O => None
  | S fuel' =>
      match checkXtal xtal with
      | (true, Some xtal') => Some (xtal', rng)
      | _ =>
          let '(xtal', rng') := generateRandomXtal generation id rng in
          randomUntilValid fuel' generation id xtal' rng'
      end
  end.

(** "Copy info over" (lines 246-268 of [replaceWithRandom]). *)
Definition copyInfoOver (oldXtal xtal : Xtal) (reason : string) : Xtal :=
  (* oldXtal->clear(): the molecule loses its atoms *)
  let oldXtal := setMol (mkMolecule (cell (mol oldXtal)) []) oldXtal in
  let oldXtal := setMol (mkMolecule OBUnitCell_new (atoms (mol oldXtal)))
                        oldXtal in
  let oldXtal := setMol (mkMolecule (cell (mol xtal)) (atoms (mol oldXtal)))
                        oldXtal in
  let oldXtal := resetEnergy oldXtal in
  let oldXtal := resetEnthalpy oldXtal in
  let oldXtal := setPV 0 oldXtal in
  let oldXtal := setCurrentOptStep 1 oldXtal in
  let parents := "Randomly generated" in
  let parents := if negb (Template.isEmpty reason)
                 then parents ++ " (" ++ reason ++ ")" else parents in
  let oldXtal := setParents parents oldXtal in
  let oldXtal :=
    foldl (fun old atom2 =>
             setMol (mkMolecule (cell (mol old))
                       (atoms (mol old)
                        ++ [mkAtom (atomicNumber atom2) (pos atom2)]))
                    old)
          oldXtal (atoms (mol xtal)) in
  let oldXtal := findSpaceGroup (tol_spg opt) oldXtal in
  resetFailCount oldXtal.

(** [XtalOpt::replaceWithRandom(s, reason)]; the result is the pointer
    it returns.  [None]: the loop did not end within [fuel] rounds, or
    [s] points to no structure. *)
Definition replaceWithRandom (fuel : nat) (s : nat) (reason : string)
    (rng : Rng) (e : Engine) : option (nat * Rng * Engine) :=
  match tracker e !! s with
  | None => None
  | Some oldXtal =>
      match randomUntilValid fuel 0 0 None rng with
      | None => None
      | Some (xtal, rng') =>
          Some (s, rng',
                setTracker (<[s := copyInfoOver oldXtal xtal reason]>
                              (tracker e)) e)
      end
  end.

(** The loop of [initializeAndAddXtal] that finds the next free id of a
    generation. *)
Definition nextId (generation : nat) (allStructures : list Xtal) : nat :=
  foldl (fun id structure =>
           if Nat.eqb (Structure.generation structure) generation
              && Nat.leb id (idNumber structure)
           then (idNumber structure + 1)%nat else id)
        1%nat allStructures.

(** [XtalOpt::initializeAndAddXtal].  Modelled from the spec:
    [lockForNaming] and [unlockForNaming] belong to the queue manager,
    outside the sources; the specification has the first give the
    candidates of the store and the second publish the new one, whose
    [index] is its place in the order of insertion. *)
Definition initializeAndAddXtal (xtal : Xtal) (generation : nat)
    (parents : string) (e : Engine) : Engine :=
  let allStructures := tracker e in
  let id := nextId generation allStructures in
  let xtal := setIDNumber id xtal in
  let xtal := setGeneration generation xtal in
  let xtal := setParents parents xtal in
  let id_s := pad5 (idNumber xtal) in
  let gen_s := pad5 (Structure.generation xtal) in
  let locpath_s := filePath opt ++ "/" ++ gen_s ++ "x" ++ id_s ++ "/" in
  let rempath_s := rempath_base opt ++ "/" ++ gen_s ++ "x" ++ id_s ++ "/" in
  let e := if pathAvailable locpath_s then e
           else report ("XtalOpt::initializeAndAddXtal: Cannot write to path: "
                        ++ locpath_s ++ " (path creation failure)") e in
  let xtal := setFileName locpath_s xtal in
  let xtal := setRempath rempath_s xtal in
  let xtal := setCurrentOptStep 1 xtal in
  let xtal := findSpaceGroup (tol_spg opt) xtal in
  trackerAppend (setIndex (length (tracker e)) xtal) e.

(** The selection loop
    [for (ind = 0; ind < probs.size(); ind++) if (r < probs.at(ind)) break;] *)
Fixpoint selectIndex (r : Q) (probs : list Q) (ind : nat) : nat :=
  match probs with
  | [] => ind
  | p :: probs' => if Qltb r p then ind else selectIndex r probs' (S ind)
  end.

(** The body of the [switch] for a crossover (lines 439-480): the new
    candidate, its generation and its [parents] text.  [xtals.at(ind)]
    out of range is an [Abort]. *)
Definition applyCrossover (probs : list Q) (xtals : list Xtal) (rng : Rng)
  : Result (option Xtal * nat * string * Rng) :=
  let '(r1, rng) := RANDDOUBLE rng in
  let '(r2, rng) := RANDDOUBLE rng in
  let ind1 := selectIndex r1 probs 0 in
  let ind2 := selectIndex r2 probs 0 in
  match xtals !! ind1, xtals !! ind2 with
  | Some xtal1, Some xtal2 =>
      let '(xtal, percent1, rng) :=
        crossover xtal1 xtal2 (cross_minimumContribution opt) rng in
      let gen1 := generation xtal1 in
      let gen2 := generation xtal2 in
      let id1 := idNumber xtal1 in
      let id2 := idNumber xtal2 in
      let gen := if Nat.leb gen2 gen1 then (gen1 + 1)%nat
                 else (gen2 + 1)%nat in
      let parents :=
        "Crossover: " ++ pretty gen1 ++ "x" ++ pretty id1 ++ " ("
        ++ formatDouble percent1 0 ++ "%) + "
        ++ pretty gen2 ++ "x" ++ pretty id2 ++ " ("
        ++ formatDouble (100 - percent1) 0 ++ "%)" in
      Done (xtal, gen, parents, rng)
  | _, _ => Abort
  end.

(** The stripple case (lines 481-517). *)
Definition applyStripple (probs : list Q) (xtals : list Xtal) (rng : Rng)
  : Result (option Xtal * nat * string * Rng) :=
  let '(r, rng) := RANDDOUBLE rng in
  let ind := selectIndex r probs 0 in
  match xtals !! ind with
  | Some xtal1 =>
      let '(xtal, stdev, amplitude, rng) :=
        stripple xtal1 (strip_strainStdev_min opt)
                 (strip_strainStdev_max opt) (strip_amp_min opt)
                 (strip_amp_max opt) (strip_per1 opt) (strip_per2 opt) rng in
      let gen1 := generation xtal1 in
      let id1 := idNumber xtal1 in
      let gen := (gen1 + 1)%nat in
      let parents :=
        "Stripple: " ++ pretty gen1 ++ "x" ++ pretty id1
        ++ " stdev=" ++ formatDouble stdev 5
        ++ " amp=" ++ formatDouble amplitude 5
        ++ " waves=" ++ pretty (strip_per1 opt) ++ ","
        ++ pretty (strip_per2 opt) in
      Done (xtal, gen, parents, rng)
  | None => Abort
  end.

(** The permustrain case (lines 518-542). *)
Definition applyPermustrain (probs : list Q) (xtals : list Xtal) (rng : Rng)
  : Result (option Xtal * nat * string * Rng) :=
  let '(r, rng) := RANDDOUBLE rng in
  let ind := selectIndex r probs 0 in
  match xtals !! ind with
  | Some xtal1 =>
      let '(xtal, stdev, rng) :=
        permustrain xtal1 (perm_strainStdev_max opt) (perm_ex opt) rng in
      let gen1 := generation xtal1 in
      let id1 := idNumber xtal1 in
      let gen := (gen1 + 1)%nat in
      let parents :=
        "Permustrain: " ++ pretty gen1 ++ "x" ++ pretty id1
        ++ " stdev=" ++ formatDouble stdev 5
        ++ " exch=" ++ pretty (perm_ex opt) in
      Done (xtal, gen, parents, rng)
  | None => Abort
  end.

Definition applyOperator (op : Operators) (probs : list Q)
    (xtals : list Xtal) (rng : Rng)
  : Result (option Xtal * nat * string * Rng) :=
  match op with
  | OP_Crossover => applyCrossover probs xtals rng
  | OP_Stripple => applyStripple probs xtals rng
  | OP_Permustrain => applyPermustrain probs xtals rng
  end.

(** [while (attemptCount < 1000 && !checkXtal(xtal))]; [left] counts
    down from 1000.  The last component of the result tells whether the
    loop ended on [attemptCount >= 1000]. *)
Fixpoint operatorLoop (left : nat) (op : Operators) (probs : list Q)
    (xtals : list Xtal) (xtal : option Xtal) (gen : nat) (parents : string)
    (rng : Rng) : Result (option Xtal * nat * string * Rng * bool) :=
  match left with
  | O => Done (xtal, gen, parents, rng, true)
  | S left' =>
      match checkXtal xtal with
      | (true, xtal') => Done (xtal', gen, parents, rng, false)
      | (false, _) =>
          match applyOperator op probs xtals rng with
          | Done (xtal', gen', parents', rng') =>
              operatorLoop left' op probs xtals xtal' gen' parents' rng'
          | OutOfFuel => OutOfFuel
          | Abort => Abort
          end
      end
  end.

Definition operatorName (op : Operators) : string :=
  match op with
  | OP_Crossover => "crossover"
  | OP_Stripple => "stripple"
  | OP_Permustrain => "permustrain"
  end.

(** "Perform operation until xtal is valid" (lines 408-557). *)
Fixpoint geneticUntilValid (fuel : nat) (probs : list Q)
    (xtals : list Xtal) (xtal : option Xtal) (gen : nat) (parents : string)
    (rng : Rng) (e : Engine) : Result (Xtal * nat * string * Rng * Engine) :=
  match fuel with
  | O => OutOfFuel
  | S fuel' =>
      match checkXtal xtal with
      | (true, Some xtal') => Done (xtal', gen, parents, rng, e)
      | _ =>
          let '(r, rng) := RANDDOUBLE rng in
          let op :=
            if Qltb r (p_cross opt / 100) then OP_Crossover
            else if Qltb r ((p_cross opt + p_strip opt) / 100)
                 then OP_Stripple
                 else OP_Permustrain in
          match operatorLoop 1000 op probs xtals None gen parents rng with
          | Done (xtal', gen', parents', rng', exhausted) =>
              let e :=
                if exhausted : bool
                then report ("Unable to perform operation "
                             ++ operatorName op
                             ++ " after 1000 tries. Reselecting operator...")
                            e
                else e in
              geneticUntilValid fuel' probs xtals xtal' gen' parents' rng' e
          | OutOfFuel => OutOfFuel
          | Abort => Abort
          end
      end
  end.

(** [while (structures.size() > popSize + 1) structures.removeLast();] *)
Definition trim (structures : list Xtal) : list Xtal :=
  take (popSize opt + 1) structures.

(** [XtalOpt::generateNewStructure_]. *)
Definition generateNewStructure_ (fuel : nat) (rng : Rng) (e : Engine)
  : Result (Rng * Engine) :=
  let rng := INIT_RANDOM_GENERATOR rng in
  let structures := getAllOptimizedStructures (tracker e) in
  if Nat.ltb (length structures) 3 then
    match randomUntilValid fuel 1 0 None rng with
    | Some (xtal, rng) =>
        Done (rng, initializeAndAddXtal xtal 1 (parents xtal) e)
    | None => OutOfFuel
    end
  else
    let structures := sortByEnthalpy structures in
    let structures := trim structures in
    let probs := getProbabilityList structures in
    let xtals := structures in
    match geneticUntilValid fuel probs xtals None 0 "" rng e with
    | Done (xtal, gen, parents, rng, e) =>
        Done (rng, initializeAndAddXtal xtal gen parents e)
    | OutOfFuel => OutOfFuel
    | Abort => Abort
    end.

(** *** The specification's side *)

(** The loop [while (!checkXtal(xtal)) xtal = generateRandomXtal(...)]
    as a relation: from the candidate [xtal] and the generator state
    [rng] it ends with the candidate [xtal'] that passed the check. *)
Inductive untilValid (generation id : nat)
  : option Xtal -> Rng -> Xtal -> Rng -> Prop :=
| untilValid_passed xtal xtal' rng :
    checkXtal xtal = (true, Some xtal') ->
    untilValid generation id xtal rng xtal' rng
| untilValid_retry xtal rng candidate rng' xtal'' rng'' :
    (forall xtal', checkXtal xtal <> (true, Some xtal')) ->
    generateRandomXtal generation id rng = (candidate, rng') ->
    untilValid generation id candidate rng' xtal'' rng'' ->
    untilValid generation id xtal rng xtal'' rng''.

(** [y] is [x] with another molecule. *)
Definition sameButMol (x y : Xtal) : Prop := y = setMol (mol y) x.

(** The [parents] text the specification gives a replaced candidate. *)
Definition randomParents (reason : string) : string :=
  if Template.isEmpty reason then "Randomly generated"
  else "Randomly generated (" ++ reason ++ ")".

(** *** Proofs *)

Lemma sameButMol_refl x : sameButMol x x.
Proof. now destruct x. Qed.

Lemma sameButMol_trans x y z :
  sameButMol x y -> sameButMol y z -> sameButMol x z.
Proof. unfold sameButMol. intros -> ->. reflexivity. Qed.

Lemma checkVolume_frame x :
  sameButMol x (CheckXtal.checkVolume getVolume setVolume opt x).
Proof.
  unfold CheckXtal.checkVolume.
  repeat match goal with |- context [if ?b then _ else _] => destruct b end;
    try apply sameButMol_refl; reflexivity.
Qed.

Lemma checkLattice_frame x :
  sameButMol x (CheckXtal.checkLattice rescaleCell fixAngles
                  getShortestInteratomicDistance opt x).2.
Proof.
  unfold CheckXtal.checkLattice. cbv zeta.
  repeat match goal with
         | |- context [if ?b then _ else _] => destruct b
         | |- context [match ?o with Some _ => _ | None => _ end] =>
             destruct o
         end; cbn [snd]; reflexivity.
Qed.

Lemma checkXtal_frame x ok r :
  checkXtal (Some x) = (ok, r) -> exists y, r = Some y /\ sameButMol x y.
Proof.
  unfold checkXtal, CheckXtal.checkXtal.
  destruct (State_eqb (status x) Empty).
  - intros [= <- <-]. eauto using sameButMol_refl.
  - pose proof (checkLattice_frame
                  (CheckXtal.checkVolume getVolume setVolume opt x)) as H.
    destruct (CheckXtal.checkLattice _ _ _ _ _) as [ok' y]. intros [= <- <-].
    exists y. split; [reflexivity|].
    eapply sameButMol_trans; [apply checkVolume_frame|exact H].
Qed.

Lemma checkXtal_null : checkXtal None = (false, None).
Proof. reflexivity. Qed.

Lemma generateRandomXtal_fields generation id rng candidate rng' :
  generateRandomXtal generation id rng = (Some candidate, rng') ->
  Structure.generation candidate = generation
  /\ idNumber candidate = id
  /\ parents candidate = "Randomly generated"
  /\ status candidate = WaitingForOptimization.
Proof.
  unfold generateRandomXtal.
  repeat match goal with
         | |- context [RANDDOUBLE ?r] => destruct (RANDDOUBLE r)
         end.
  destruct (populate _ _ _) as [[m|] rng1]; [|discriminate].
  intros [= <- _]. repeat split; reflexivity.
Qed.

(** The function and the relation describe the same loop. *)
Lemma randomUntilValid_sound fuel generation id :
  forall xtal rng xtal' rng',
    randomUntilValid fuel generation id xtal rng = Some (xtal', rng') ->
    untilValid generation id xtal rng xtal' rng'.
Proof.
  induction fuel as [|fuel IH]; intros xtal rng xtal' rng'; [discriminate|].
  cbn [randomUntilValid].
  destruct (checkXtal xtal) as [[|] [y|]] eqn:E.
  - intros [= <- <-]. now apply untilValid_passed with (xtal := xtal).
  - destruct (generateRandomXtal generation id rng) as [c rng1] eqn:G.
    intros H. eapply untilValid_retry; [|exact G|apply IH, H].
    intros x' Hx. congruence.
  - destruct (generateRandomXtal generation id rng) as [c rng1] eqn:G.
    intros H. eapply untilValid_retry; [|exact G|apply IH, H].
    intros x' Hx. congruence.
  - destruct (generateRandomXtal generation id rng) as [c rng1] eqn:G.
    intros H. eapply untilValid_retry; [|exact G|apply IH, H].
    intros x' Hx. congruence.
Qed.

Lemma randomUntilValid_complete generation id xtal rng xtal' rng' :
  untilValid generation id xtal rng xtal' rng' ->
  exists fuel0, forall fuel, (fuel0 <= fuel)%nat ->
    randomUntilValid fuel generation id xtal rng = Some (xtal', rng').
Proof.
  induction 1 as [xtal xtal' rng Hc
                 |xtal rng c rng1 xtal'' rng'' Hc G _ (fuel0 & IH)].
  - exists 1%nat. intros [|fuel] Hf; [lia|].
    cbn [randomUntilValid]. now rewrite Hc.
  - exists (S fuel0). intros [|fuel] Hf; [lia|].
    cbn [randomUntilValid]. rewrite G.
    destruct (checkXtal xtal) as [[|] [y|]] eqn:E;
      try (apply IH; lia).
    exfalso. now apply (Hc y).
Qed.

(** A candidate that comes out of the loop started from the null
    pointer was generated with the generation asked for. *)
Lemma untilValid_generation generation id xtal rng xtal' rng' :
  untilValid generation id xtal rng xtal' rng' ->
  (forall x, xtal = Some x ->
     Structure.generation x = generation
     /\ parents x = "Randomly generated") ->
  Structure.generation xtal' = generation
  /\ parents xtal' = "Randomly generated".
Proof.
  induction 1 as [xtal xtal' rng Hc
                 |xtal rng c rng1 xtal'' rng'' Hc G _ IH]; intros Hx.
  - destruct xtal as [x|]; [|discriminate].
    apply checkXtal_frame in Hc as (y & [= <-] & Hy).
    destruct (Hx x eq_refl) as [Hg Hp]. rewrite Hy. simpl. auto.
  - apply IH. intros x ->.
    apply generateRandomXtal_fields in G. tauto.
Qed.

Lemma atoms_copy_frame (atoms2 : list Atom) :
  forall old,
    sameButMol old
      (foldl (fun old atom2 =>
                setMol (mkMolecule (cell (mol old))
                          (atoms (mol old)
                           ++ [mkAtom (atomicNumber atom2) (pos atom2)]))
                       old)
             old atoms2).
Proof.
  induction atoms2 as [|a atoms2 IH]; intros old; [apply sameButMol_refl|].
  cbn [foldl]. eapply sameButMol_trans; [|apply IH]. reflexivity.
Qed.

Lemma copyInfoOver_fields (oldXtal xtal : Xtal) (reason : string) :
  let new := copyInfoOver oldXtal xtal reason in
  idNumber new = idNumber oldXtal
  /\ generation new = generation oldXtal
  /\ index new = index oldXtal
  /\ failCount new = 0%nat
  /\ currentOptStep new = 1%nat
  /\ energy new = None /\ enthalpy new = None /\ PV new = 0
  /\ parents new = randomParents reason.
Proof.
  unfold copyInfoOver. cbv zeta.
  match goal with
  | |- context [foldl ?f ?o ?l] =>
      pose proof (atoms_copy_frame l o) as H; destruct (foldl f o l)
  end.
  unfold sameButMol in H. injection H as -> -> -> -> -> -> -> -> -> -> -> -> -> ->.
  unfold randomParents. destruct reason; repeat split; reflexivity.
Qed.

(** C3.  [replaceWithRandom(s, reason)] returns the pointer it was
    given; the structure behind it keeps its id number, generation and
    index, has its fail count at 0, its optimization step at 1, its
    energy and enthalpy reset and its PV at 0, and its [parents] reads
    "Randomly generated", followed by the reason in parentheses when
    there is one; no other structure of the tracker changes.  The
    function returns as soon as the generator yields a candidate that
    passes the check. *)
Theorem replaceWithRandom_preserves_identity
    (s : nat) (reason : string) (rng : Rng) (e : Engine) (oldXtal : Xtal) :
  tracker e !! s = Some oldXtal ->
  (forall fuel h rng' e',
      replaceWithRandom fuel s reason rng e = Some (h, rng', e') ->
      h = s
      /\ (forall k, k <> s -> tracker e' !! k = tracker e !! k)
      /\ exists new,
          tracker e' !! s = Some new
          /\ idNumber new = idNumber oldXtal
          /\ generation new = generation oldXtal
          /\ index new = index oldXtal
          /\ failCount new = 0%nat
          /\ currentOptStep new = 1%nat
          /\ energy new = None /\ enthalpy new = None /\ PV new = 0
          /\ parents new = randomParents reason)
  /\ (forall xtal rng',
        untilValid 0 0 None rng xtal rng' ->
        exists fuel0, forall fuel, (fuel0 <= fuel)%nat ->
          exists e', replaceWithRandom fuel s reason rng e
                     = Some (s, rng', e')).
Proof.
  intros Hs. split.
  - intros fuel h rng' e'. unfold replaceWithRandom. rewrite Hs.
    destruct (randomUntilValid fuel 0 0 None rng) as [[xtal rng1]|];
      [|discriminate].
    intros [= <- <- <-]. split; [reflexivity|]. split.
    + intros k Hk. simpl. now apply list_lookup_insert_ne.
    + exists (copyInfoOver oldXtal xtal reason). split.
      * simpl. apply list_lookup_insert_eq. eapply lookup_lt_Some, Hs.
      * apply copyInfoOver_fields.
  - intros xtal rng' Hloop.
    destruct (randomUntilValid_complete _ _ _ _ _ _ Hloop) as [fuel0 Hf].
    exists fuel0. intros fuel Hle. unfold replaceWithRandom.
    rewrite Hs, (Hf fuel Hle). eauto.
Qed.

Lemma trackerAppend_tracker x e :
  tracker (trackerAppend x e) = (tracker e ++ [x])%list.
Proof.
  unfold trackerAppend, checkForDuplicates. simpl.
  now destruct (isStarting e).
Qed.

Lemma initializeAndAddXtal_tracker xtal generation parents e :
  exists published,
    tracker (initializeAndAddXtal xtal generation parents e)
    = (tracker e ++ [published])%list
    /\ Structure.generation published = generation
    /\ Structure.parents published = parents
    /\ idNumber published = nextId generation (tracker e)
    /\ index published = length (tracker e)
    /\ mol published = mol xtal.
Proof.
  unfold initializeAndAddXtal. cbv zeta.
  match goal with
  | |- context [pathAvailable ?p] => destruct (pathAvailable p)
  end; eexists; rewrite trackerAppend_tracker;
    (split; [reflexivity|repeat split; reflexivity]).
Qed.

(** C9.  With fewer than three optimized structures
    [generateNewStructure_] is the loop that generates random candidates
    of generation 1 until one passes the check, followed by
    [initializeAndAddXtal] on that candidate: neither the genetic
    operators nor the probability list take part.  What it publishes is
    the candidate that passed, in generation 1, and it returns as soon
    as the generator yields such a candidate. *)
Theorem generateNewStructure_few_optimized
    (fuel : nat) (rng : Rng) (e : Engine) :
  (length (getAllOptimizedStructures (tracker e)) < 3)%nat ->
  generateNewStructure_ fuel rng e
  = match randomUntilValid fuel 1 0 None (INIT_RANDOM_GENERATOR rng) with
    | Some (xtal, rng') =>
        Done (rng', initializeAndAddXtal xtal 1 (parents xtal) e)
    | None => OutOfFuel
    end
  /\ (forall rng' e',
        generateNewStructure_ fuel rng e = Done (rng', e') ->
        exists xtal published,
          untilValid 1 0 None (INIT_RANDOM_GENERATOR rng) xtal rng'
          /\ generation xtal = 1%nat
          /\ e' = initializeAndAddXtal xtal 1 (parents xtal) e
          /\ tracker e' = (tracker e ++ [published])%list
          /\ generation published = 1%nat
          /\ parents published = "Randomly generated"
          /\ mol published = mol xtal)
  /\ (forall xtal rng',
        untilValid 1 0 None (INIT_RANDOM_GENERATOR rng) xtal rng' ->
        exists fuel0, forall fuel', (fuel0 <= fuel')%nat ->
          generateNewStructure_ fuel' rng e
          = Done (rng', initializeAndAddXtal xtal 1 (parents xtal) e)).
Proof.
  intros Hfew.
  assert (Hlt : Nat.ltb (length (getAllOptimizedStructures (tracker e))) 3
                = true) by now apply Nat.ltb_lt.
  assert (Heq : forall fuel,
             generateNewStructure_ fuel rng e
             = match randomUntilValid fuel 1 0 None
                       (INIT_RANDOM_GENERATOR rng) with
               | Some (xtal, rng') =>
                   Done (rng', initializeAndAddXtal xtal 1 (parents xtal) e)
               | None => OutOfFuel
               end).
  { intros f. unfold generateNewStructure_. cbv zeta. rewrite Hlt.
    destruct (randomUntilValid f 1 0 None _) as [[x r]|]; reflexivity. }
  split; [apply Heq|]. split.
  - intros rng' e'. rewrite Heq.
    destruct (randomUntilValid fuel 1 0 None _) as [[xtal rng1]|] eqn:E;
      [|discriminate].
    intros [= <- <-]. apply randomUntilValid_sound in E.
    destruct (untilValid_generation _ _ _ _ _ _ E) as [Hg Hp];
      [discriminate|].
    destruct (initializeAndAddXtal_tracker xtal 1 (parents xtal) e)
      as (published & Ht & Hpg & Hpp & _ & _ & Hm).
    exists xtal, published. rewrite Hp in Hpp. repeat split; assumption.
  - intros xtal rng' Hloop.
    destruct (randomUntilValid_complete _ _ _ _ _ _ Hloop) as [fuel0 Hf].
    exists fuel0. intros fuel' Hle. now rewrite Heq, (Hf fuel' Hle).
Qed.

(** *** Naming a new candidate *)

Lemma nextId_spec (g : nat) (l : list Xtal) :
  forall id0,
    let id := foldl (fun id structure =>
                       if Nat.eqb (Structure.generation structure) g
                          && Nat.leb id (idNumber structure)
                       then (idNumber structure + 1)%nat else id)
                    id0 l in
    (id0 <= id)%nat
    /\ (forall x, x ∈ l -> Structure.generation x = g ->
          (idNumber x < id)%nat)
    /\ (id = id0
        \/ exists x, x ∈ l /\ Structure.generation x = g
                     /\ id = (idNumber x + 1)%nat).
Proof.
  induction l as [|y l IH]; intros id0; cbv zeta; cbn [foldl].
  - split; [lia|]. split; [|now left].
    intros x Hx. now apply elem_of_nil in Hx.
  - match goal with
    | |- context [foldl _ ?i l] => set (id1 := i)
    end.
    assert (Hid1 : (id0 <= id1)%nat
                   /\ (Structure.generation y = g -> (idNumber y < id1)%nat)
                   /\ (id1 = id0
                       \/ (Structure.generation y = g
                           /\ id1 = (idNumber y + 1)%nat))).
    { unfold id1. destruct (Nat.eqb_spec (Structure.generation y) g);
        cbn [andb]; [|split; [lia|]; split; [tauto|now left]].
      destruct (Nat.leb_spec id0 (idNumber y));
        (split; [lia|]; split; [lia|tauto]). }
    destruct Hid1 as (Ha & Hb & Hc). destruct (IH id1) as (H1 & H2 & H3).
    split; [lia|]. split.
    + intros x [->|Hx]%elem_of_cons Hg.
      * specialize (Hb Hg). lia.
      * now apply H2.
    + destruct H3 as [H3|(x & Hx & Hg & H3)].
      * rewrite H3. destruct Hc as [Hc|[Hg Hc]]; [now left|].
        right. exists y. split; [left|]. now split.
      * right. exists x. split; [now right|]. now split.
Qed.

(** X7.  [initializeAndAddXtal] appends exactly one structure, with
    the generation asked for and an id that is at least 1 and above the
    id of every structure of that generation already in the tracker:
    1 when there is none, otherwise the highest one plus 1.  So, if no
    two structures of the tracker had the same generation and id, none
    have afterwards. *)
Theorem initializeAndAddXtal_fresh_id
    (xtal : Xtal) (g : nat) (parents : string) (e : Engine) :
  exists published,
    tracker (initializeAndAddXtal xtal g parents e)
    = (tracker e ++ [published])%list
    /\ generation published = g
    /\ (1 <= idNumber published)%nat
    /\ (forall x, x ∈ tracker e -> generation x = g ->
          (idNumber x < idNumber published)%nat)
    /\ (idNumber published = 1%nat
        \/ exists x, x ∈ tracker e /\ generation x = g
                     /\ idNumber published = (idNumber x + 1)%nat)
    /\ (NoDup (map (fun x => (generation x, idNumber x)) (tracker e)) ->
        NoDup (map (fun x => (generation x, idNumber x))
                   (tracker (initializeAndAddXtal xtal g parents e)))).
Proof.
  destruct (initializeAndAddXtal_tracker xtal g parents e)
    as (published & Ht & Hg & _ & Hid & _).
  destruct (nextId_spec g (tracker e) 1) as (H1 & H2 & H3).
  fold (nextId g (tracker e)) in H1, H2, H3. rewrite <- Hid in H1, H2, H3.
  exists published. split; [exact Ht|]. split; [exact Hg|].
  split; [exact H1|]. split; [exact H2|]. split; [exact H3|].
  intros Hnd. rewrite Ht, map_app. apply NoDup_app.
  split; [exact Hnd|]. split; [|apply NoDup_singleton].
  intros p Hp Hq. apply list_elem_of_singleton in Hq. subst p.
  apply list_elem_of_In, in_map_iff in Hp as (x & Heq & Hx).
  injection Heq as Hgx Hix. apply list_elem_of_In in Hx.
  specialize (H2 x Hx ltac:(congruence)). lia.
Qed.

(** *** The replacement of a structure *)

Lemma atoms_copy_mol (atoms2 : list Atom) :
  forall old,
    mol (foldl (fun old atom2 =>
                  setMol (mkMolecule (cell (mol old))
                            (atoms (mol old)
                             ++ [mkAtom (atomicNumber atom2) (pos atom2)]))
                         old)
               old atoms2)
    = mkMolecule (cell (mol old)) (atoms (mol old) ++ atoms2)%list.
Proof.
  induction atoms2 as [|a atoms2 IH]; intros old; cbn [foldl].
  - rewrite app_nil_r. now destruct (mol old).
  - rewrite IH. cbn. rewrite <- app_assoc. now destruct a.
Qed.

Lemma copyInfoOver_molecule (oldXtal xtal : Xtal) (reason : string) :
  let new := copyInfoOver oldXtal xtal reason in
  mol new = mol xtal
  /\ spacegroup new = detectSpaceGroup (tol_spg opt) (mol xtal)
  /\ status new = status oldXtal
  /\ duplicateString new = duplicateString oldXtal
  /\ fileName new = fileName oldXtal /\ rempath new = rempath oldXtal.
Proof.
  unfold copyInfoOver. cbv zeta.
  match goal with
  | |- context [foldl ?f ?o ?l] =>
      pose proof (atoms_copy_frame l o) as H;
      pose proof (atoms_copy_mol l o) as Hm;
      destruct (foldl f o l)
  end.
  cbn in Hm. assert (Hm' : mol0 = mol xtal)
    by (rewrite Hm; now destruct (mol xtal)).
  unfold sameButMol in H.
  injection H as -> -> -> -> -> -> -> -> -> -> -> -> -> ->.
  cbn. rewrite Hm'. repeat split; reflexivity.
Qed.

Lemma untilValid_checked g id xtal rng xtal' rng' :
  untilValid g id xtal rng xtal' rng' ->
  exists candidate, checkXtal candidate = (true, Some xtal').
Proof. induction 1; eauto. Qed.

(** X8.  When [replaceWithRandom] returns, the structure it was given
    holds the molecule of a random candidate that passed [checkXtal]
    (its cell and its atoms), with the space group detected for that
    molecule; its status, [duplicate_of] and paths are those it had;
    the tracker has the same length and the rest of the engine is as it
    was.  For an index that names no structure of the tracker the
    result is [None]. *)
Theorem replaceWithRandom_installs_checked_candidate
    (fuel s : nat) (reason : string) (rng : Rng) (e : Engine) :
  (tracker e !! s = None -> replaceWithRandom fuel s reason rng e = None)
  /\ forall h rng' e',
       replaceWithRandom fuel s reason rng e = Some (h, rng', e') ->
       exists oldXtal xtal candidate new,
         tracker e !! s = Some oldXtal
         /\ untilValid 0 0 None rng xtal rng'
         /\ checkXtal candidate = (true, Some xtal)
         /\ e' = setTracker (<[s := new]> (tracker e)) e
         /\ tracker e' !! s = Some new
         /\ length (tracker e') = length (tracker e)
         /\ mol new = mol xtal
         /\ spacegroup new = detectSpaceGroup (tol_spg opt) (mol xtal)
         /\ status new = status oldXtal
         /\ duplicateString new = duplicateString oldXtal
         /\ fileName new = fileName oldXtal
         /\ rempath new = rempath oldXtal.
Proof.
  unfold replaceWithRandom. split; [now intros ->|].
  intros h rng' e'. destruct (tracker e !! s) as [oldXtal|] eqn:Hs;
    [|discriminate].
  destruct (randomUntilValid fuel 0 0 None rng) as [[xtal rng1]|] eqn:Hr;
    [|discriminate].
  intros H. injection H as <- <- <-.
  apply randomUntilValid_sound in Hr.
  destruct (untilValid_checked _ _ _ _ _ _ Hr) as [candidate Hc].
  destruct (copyInfoOver_molecule oldXtal xtal reason)
    as (H1 & H2 & H3 & H4 & H5 & H6).
  exists oldXtal, xtal, candidate, (copyInfoOver oldXtal xtal reason).
  split; [reflexivity|]. split; [exact Hr|]. split; [exact Hc|].
  split; [reflexivity|].
  split; [apply list_lookup_insert_eq; eapply lookup_lt_Some, Hs|].
  split; [apply length_insert|]. repeat split; assumption.
Qed.

(** *** Breeding a candidate *)

(** [gen] is one more than the generation of a structure of the pool. *)
Definition bred (xtals : list Xtal) (gen : nat) : Prop :=
  exists parent, parent ∈ xtals /\ gen = (generation parent + 1)%nat.

Lemma applyOperator_bred op probs xtals rng xtal gen parents rng' :
  applyOperator op probs xtals rng = Done (xtal, gen, parents, rng') ->
  bred xtals gen.
Proof.
  destruct op; cbn [applyOperator];
    unfold applyCrossover, applyStripple, applyPermustrain.
  - destruct (RANDDOUBLE rng) as [r1 rng1].
    destruct (RANDDOUBLE rng1) as [r2 rng2].
    destruct (xtals !! selectIndex r1 probs 0) as [xtal1|] eqn:E1;
      [|discriminate].
    destruct (xtals !! selectIndex r2 probs 0) as [xtal2|] eqn:E2;
      [|discriminate].
    destruct (crossover _ _ _ _) as [[c percent1] rng3].
    intros H. injection H as _ <- _ _.
    apply list_elem_of_lookup_2 in E1, E2.
    destruct (Nat.leb _ _); [exists xtal1|exists xtal2]; now split.
  - destruct (RANDDOUBLE rng) as [r rng1].
    destruct (xtals !! selectIndex r probs 0) as [xtal1|] eqn:E1;
      [|discriminate].
    destruct (stripple _ _ _ _ _ _ _ _) as [[[c stdev] amplitude] rng2].
    intros H. injection H as _ <- _ _.
    apply list_elem_of_lookup_2 in E1. exists xtal1. now split.
  - destruct (RANDDOUBLE rng) as [r rng1].
    destruct (xtals !! selectIndex r probs 0) as [xtal1|] eqn:E1;
      [|discriminate].
    destruct (permustrain _ _ _ _) as [[c stdev] rng2].
    intros H. injection H as _ <- _ _.
    apply list_elem_of_lookup_2 in E1. exists xtal1. now split.
Qed.

Lemma operatorLoop_bred left op probs xtals :
  forall xtal gen parents rng xtal' gen' parents' rng' exhausted,
    operatorLoop left op probs xtals xtal gen parents rng
    = Done (xtal', gen', parents', rng', exhausted) ->
    bred xtals gen -> bred xtals gen'.
Proof.
  induction left as [|left IH];
    intros xtal gen parents rng xtal' gen' parents' rng' exhausted;
    cbn [operatorLoop].
  - intros H. now injection H as _ <- _ _ _.
  - destruct (checkXtal xtal) as [[|] y].
    + intros H. now injection H as _ <- _ _ _.
    + destruct (applyOperator op probs xtals rng)
        as [[[[c gen1] parents1] rng1]| |] eqn:Ha; try discriminate.
      intros H _. eapply IH; [exact H|].
      eapply applyOperator_bred, Ha.
Qed.

Lemma operatorLoop_from_null left op probs xtals gen parents rng
    xtal' gen' parents' rng' exhausted :
  operatorLoop (S left) op probs xtals None gen parents rng
  = Done (xtal', gen', parents', rng', exhausted) ->
  bred xtals gen'.
Proof.
  cbn [operatorLoop]. rewrite checkXtal_null.
  destruct (applyOperator op probs xtals rng)
    as [[[[c gen1] parents1] rng1]| |] eqn:Ha; try discriminate.
  intros H. eapply operatorLoop_bred; [exact H|].
  eapply applyOperator_bred, Ha.
Qed.

Lemma geneticUntilValid_bred fuel probs xtals :
  forall xtal gen parents rng e xtal' gen' parents' rng' e',
    geneticUntilValid fuel probs xtals xtal gen parents rng e
    = Done (xtal', gen', parents', rng', e') ->
    xtal = None \/ bred xtals gen ->
    bred xtals gen'
    /\ (exists candidate, checkXtal candidate = (true, Some xtal'))
    /\ tracker e' = tracker e.
Proof.
  induction fuel as [|fuel IH];
    intros xtal gen parents rng e xtal' gen' parents' rng' e';
    cbn [geneticUntilValid]; [discriminate|].
  assert (Hnext :
    (let '(r, rng) := RANDDOUBLE rng in
     let op :=
       if Qltb r (p_cross opt / 100) then OP_Crossover
       else if Qltb r ((p_cross opt + p_strip opt) / 100)
            then OP_Stripple else OP_Permustrain in
     match operatorLoop 1000 op probs xtals None gen parents rng with
     | Done (xtal', gen', parents', rng', exhausted) =>
         let e :=
           if exhausted : bool
           then report ("Unable to perform operation "
                        ++ operatorName op
                        ++ " after 1000 tries. Reselecting operator...")
                       e
           else e in
         geneticUntilValid fuel probs xtals xtal' gen' parents' rng' e
     | OutOfFuel => OutOfFuel
     | Abort => Abort
     end) = Done (xtal', gen', parents', rng', e') ->
    bred xtals gen'
    /\ (exists candidate, checkXtal candidate = (true, Some xtal'))
    /\ tracker e' = tracker e).
  { destruct (RANDDOUBLE rng) as [r rng1]. cbv zeta.
    match goal with
    | |- context [operatorLoop 1000 ?op _ _ _ _ _ _] =>
        destruct (operatorLoop 1000 op probs xtals None gen parents rng1)
          as [[[[[c gen1] parents1] rng2] exhausted]| |] eqn:Hl
    end; try discriminate.
    apply operatorLoop_from_null in Hl. intros H.
    apply IH in H; [|now right]. destruct H as (H1 & H2 & H3).
    split; [exact H1|]. split; [exact H2|]. rewrite H3.
    now destruct exhausted. }
  destruct (checkXtal xtal) as [[|] [y|]] eqn:Hc; try exact (fun H _ => Hnext H).
  intros H Hor. injection H as <- <- _ _ <-.
  split; [|split; [eauto|reflexivity]].
  destruct Hor as [->|Hb]; [|exact Hb].
  rewrite checkXtal_null in Hc. discriminate.
Qed.

(** X9.  With three or more optimized structures, a structure that
    [generateNewStructure_] publishes is bred from the pool (the
    optimized structures sorted by enthalpy and cut to [popSize + 1]):
    its generation is one more than that of a structure of the pool, its
    molecule is that of a candidate that passed [checkXtal], its id is
    the next free one of its generation, and it is appended to the
    tracker, whose other structures stay as they are. *)
Theorem generateNewStructure_breeds_from_pool
    (fuel : nat) (rng rng' : Rng) (e e' : Engine) :
  (3 <= length (getAllOptimizedStructures (tracker e)))%nat ->
  generateNewStructure_ fuel rng e = Done (rng', e') ->
  exists published parent candidate xtal,
    tracker e' = (tracker e ++ [published])%list
    /\ parent ∈ trim (sortByEnthalpy (getAllOptimizedStructures (tracker e)))
    /\ generation published = (generation parent + 1)%nat
    /\ checkXtal candidate = (true, Some xtal)
    /\ mol published = mol xtal
    /\ idNumber published = nextId (generation published) (tracker e)
    /\ index published = length (tracker e).
Proof.
  intros Hn. unfold generateNewStructure_. cbv zeta.
  destruct (Nat.ltb_spec (length (getAllOptimizedStructures (tracker e))) 3)
    as [Hlt|_]; [lia|].
  destruct (geneticUntilValid _ _ _ _ _ _ _ _)
    as [[[[[xtal gen] parents] rng1] e1]| |] eqn:Hg; try discriminate.
  intros H. injection H as <- <-.
  apply geneticUntilValid_bred in Hg; [|now left].
  destruct Hg as ((parent & Hp & ->) & (candidate & Hc) & Ht).
  destruct (initializeAndAddXtal_tracker xtal (generation parent + 1)
              parents e1) as (published & H1 & H2 & _ & H3 & H4 & H5).
  rewrite Ht in H1, H3, H4.
  exists published, parent, candidate, xtal.
  split; [exact H1|]. split; [exact Hp|]. split; [exact H2|].
  split; [exact Hc|]. split; [exact H5|]. split; [now rewrite H2|exact H4].
Qed.

(** *** The atoms of a random candidate *)

(** The atomic numbers the composition asks for, in its order. *)
Definition compositionAtoms (composition : list (nat * nat)) : list nat :=
  flat_map (fun entry => replicate entry.2 entry.1) composition.

Section Placement.

(** What the crystal library is taken to do: [addAtomRandomly], when it
    succeeds, adds one atom of the element asked for after those
    present; [setVolume] keeps the atoms; a new [Xtal] has none. *)
Hypothesis addAtomRandomly_adds :
  forall atomicNum IAD m rng m' rng',
    addAtomRandomly atomicNum IAD m rng = (Some m', rng') ->
    map atomicNumber (atoms m')
    = (map atomicNumber (atoms m) ++ [atomicNum])%list.
Hypothesis setVolume_atoms :
  forall v m, atoms (setVolume v m) = atoms m.
Hypothesis Xtal_new_atoms :
  forall a b c alpha beta gamma,
    atoms (mol (Xtal_new a b c alpha beta gamma)) = [].

Lemma addAtoms_atoms atomicNum IAD q :
  forall m rng m' rng',
    addAtoms atomicNum IAD q m rng = (Some m', rng') ->
    map atomicNumber (atoms m')
    = (map atomicNumber (atoms m) ++ replicate q atomicNum)%list.
Proof.
  induction q as [|q IH]; intros m rng m' rng'; cbn [addAtoms replicate].
  - intros H. injection H as <- _. now rewrite app_nil_r.
  - destruct (addAtomRandomly atomicNum IAD m rng) as [[m1|] rng1] eqn:E;
      [|discriminate].
    intros H. rewrite (IH _ _ _ _ H), (addAtomRandomly_adds _ _ _ _ _ _ E).
    now rewrite <- app_assoc.
Qed.

Lemma populate_atoms composition :
  forall m rng m' rng',
    populate composition m rng = (Some m', rng') ->
    map atomicNumber (atoms m')
    = (map atomicNumber (atoms m) ++ compositionAtoms composition)%list.
Proof.
  induction composition as [|[atomicNum q] composition IH];
    intros m rng m' rng'; cbn [populate].
  - intros H. injection H as <- _. cbn. now rewrite app_nil_r.
  - destruct (addAtoms atomicNum _ q m rng) as [[m1|] rng1] eqn:E;
      [|discriminate].
    intros H. rewrite (IH _ _ _ _ H), (addAtoms_atoms _ _ _ _ _ _ _ E).
    unfold compositionAtoms. cbn. now rewrite <- app_assoc.
Qed.

(** X24.  A candidate that [generateRandomXtal] returns holds exactly
    the atoms the composition asks for: for each element, in the order
    of the composition, as many atoms as its quantity, given that a new
    crystal has no atoms, that [setVolume] keeps them and that
    [addAtomRandomly] adds one atom of the element it is given. *)
Theorem generateRandomXtal_composition
    (g id : nat) (rng rng' : Rng) (candidate : Xtal) :
  generateRandomXtal g id rng = (Some candidate, rng') ->
  map atomicNumber (atoms (mol candidate)) = compositionAtoms (comp opt)
  /\ length (atoms (mol candidate))
     = list_sum (map snd (comp opt)).
Proof.
  unfold generateRandomXtal.
  repeat match goal with
         | |- context [RANDDOUBLE ?r] => destruct (RANDDOUBLE r)
         end.
  destruct (populate _ _ _) as [[m|] rng1] eqn:E; [|discriminate].
  intros H. injection H as <- _. cbn [mol setMol setGeneration setIDNumber
                                       setParents setStatus].
  apply populate_atoms in E.
  assert (Hstart : forall x : Xtal,
            atoms (mol x) = [] ->
            atoms (mol (if using_fixed_volume opt
                        then setMol (setVolume (vol_fixed opt) (mol x)) x
                        else x)) = []).
  { intros x Hx. destruct (using_fixed_volume opt); [|exact Hx].
    cbn. now rewrite setVolume_atoms. }
  rewrite Hstart in E by (cbn; apply Xtal_new_atoms). cbn in E.
  split; [exact E|].
  apply (f_equal length) in E. rewrite length_map in E. rewrite E.
  unfold compositionAtoms. clear.
  induction (comp opt) as [|[z q] l IH]; [reflexivity|].
  cbn. now rewrite length_app, length_replicate, IH.
Qed.

End Placement.

(** *** Selecting the parents *)

Lemma selectIndex_spec (r : Q) (probs : list Q) :
  forall k,
    let c := selectIndex r probs k in
    (k <= c <= k + length probs)%nat
    /\ (forall i p, (k + i < c)%nat -> probs !! i = Some p -> p <= r)
    /\ ((c < k + length probs)%nat ->
        exists p, probs !! (c - k)%nat = Some p /\ r < p).
Proof.
  induction probs as [|p probs IH]; intros k; cbv zeta; cbn [selectIndex length].
  - split; [lia|]. split; [intros i p Hi; lia|]. intros Hc. lia.
  - destruct (Qltb r p) eqn:E.
    + split; [lia|]. split; [intros i q Hi; lia|]. intros _.
      rewrite Nat.sub_diag. exists p. split; [reflexivity|].
      now apply Qltb_lt.
    + destruct (IH (S k)) as (H1 & H2 & H3). split; [lia|]. split.
      * intros [|i] q Hi Hq; cbn in Hq.
        -- injection Hq as <-. now apply Qltb_ge.
        -- apply (H2 i); [lia|exact Hq].
      * intros Hc. destruct H3 as (q & Hq & Hr); [lia|]. exists q.
        split; [|exact Hr].
        replace (selectIndex r probs (S k) - k)%nat
          with (S (selectIndex r probs (S k) - S k)) by lia.
        exact Hq.
Qed.

(** X25.  The selection loop of the operators stops at the first
    entry of the probability list above the draw, and at the length of
    the list when there is none.  An operator indexes the pool out of
    its range exactly when a selected index is not below the size of the
    pool; so it does whenever the probability list is as long as the
    pool and the draw is not below any of its entries. *)
Theorem applyOperator_aborts_out_of_range
    (probs : list Q) (xtals : list Xtal) (rng : Rng) :
  let r1 := (RANDDOUBLE rng).1 in
  let r2 := (RANDDOUBLE (RANDDOUBLE rng).2).1 in
  let ind1 := selectIndex r1 probs 0 in
  let ind2 := selectIndex r2 probs 0 in
  ((ind1 <= length probs)%nat
   /\ (forall i p, (i < ind1)%nat -> probs !! i = Some p -> p <= r1)
   /\ ((ind1 < length probs)%nat ->
       exists p, probs !! ind1 = Some p /\ r1 < p))
  /\ (applyOperator OP_Stripple probs xtals rng = Abort
      <-> (length xtals <= ind1)%nat)
  /\ (applyOperator OP_Permustrain probs xtals rng = Abort
      <-> (length xtals <= ind1)%nat)
  /\ (applyOperator OP_Crossover probs xtals rng = Abort
      <-> (length xtals <= ind1)%nat \/ (length xtals <= ind2)%nat)
  /\ (length probs = length xtals ->
      (forall i p, probs !! i = Some p -> p <= r1) ->
      forall op, applyOperator op probs xtals rng = Abort).
Proof.
  cbv zeta.
  destruct (selectIndex_spec (RANDDOUBLE rng).1 probs 0) as (H1 & H2 & H3).
  rewrite Nat.sub_0_r in H3. cbn in H1, H2, H3.
  assert (Hlook : forall ind : nat,
            match xtals !! ind with
            | Some _ => (ind < length xtals)%nat
            | None => (length xtals <= ind)%nat
            end).
  { intros ind. destruct (xtals !! ind) eqn:E;
      [eapply lookup_lt_Some, E|eapply lookup_ge_None_1, E]. }
  assert (HS : applyOperator OP_Stripple probs xtals rng = Abort
               <-> (length xtals
                    <= selectIndex (RANDDOUBLE rng).1 probs 0)%nat).
  { cbn [applyOperator]. unfold applyStripple.
    destruct (RANDDOUBLE rng) as [r1 rng1]. cbn [fst].
    pose proof (Hlook (selectIndex r1 probs 0)) as Hl.
    destruct (xtals !! selectIndex r1 probs 0); [|tauto].
    destruct (stripple _ _ _ _ _ _ _ _) as [[[c s1] a1] rng3].
    split; [discriminate|lia]. }
  assert (HP : applyOperator OP_Permustrain probs xtals rng = Abort
               <-> (length xtals
                    <= selectIndex (RANDDOUBLE rng).1 probs 0)%nat).
  { cbn [applyOperator]. unfold applyPermustrain.
    destruct (RANDDOUBLE rng) as [r1 rng1]. cbn [fst].
    pose proof (Hlook (selectIndex r1 probs 0)) as Hl.
    destruct (xtals !! selectIndex r1 probs 0); [|tauto].
    destruct (permustrain _ _ _ _) as [[c s1] rng3].
    split; [discriminate|lia]. }
  assert (HC : applyOperator OP_Crossover probs xtals rng = Abort
               <-> (length xtals
                    <= selectIndex (RANDDOUBLE rng).1 probs 0)%nat
                   \/ (length xtals
                       <= selectIndex (RANDDOUBLE (RANDDOUBLE rng).2).1
                                      probs 0)%nat).
  { cbn [applyOperator]. unfold applyCrossover.
    destruct (RANDDOUBLE rng) as [r1 rng1]. cbn [fst snd].
    destruct (RANDDOUBLE rng1) as [r2 rng2]. cbn [fst].
    pose proof (Hlook (selectIndex r1 probs 0)) as Hl1.
    pose proof (Hlook (selectIndex r2 probs 0)) as Hl2.
    destruct (xtals !! selectIndex r1 probs 0); [|tauto].
    destruct (xtals !! selectIndex r2 probs 0); [|tauto].
    destruct (crossover _ _ _ _) as [[c p1] rng3].
    split; [discriminate|lia]. }
  split; [split; [lia|split; [exact H2|exact H3]]|].
  split; [exact HS|]. split; [exact HP|]. split; [exact HC|].
  intros Hlen Hlast.
  assert (Hout : (length xtals
                  <= selectIndex (RANDDOUBLE rng).1 probs 0)%nat).
  { destruct (decide (selectIndex (RANDDOUBLE rng).1 probs 0
                      < length probs)%nat) as [Hlt|]; [|lia].
    exfalso. destruct (H3 Hlt) as (p & Hp & Hrp).
    specialize (Hlast _ _ Hp). lra. }
  intros [| |]; [apply HC; now left|now apply HS|now apply HP].
Qed.

(** *** Resetting the duplicates ([XtalOpt::resetDuplicates_]) *)

(** The body of the loop of [resetDuplicates_]. *)
Definition resetDuplicate (xtal : Xtal) : Xtal :=
  let xtal := findSpaceGroup (tol_spg opt) xtal in
  if State_eqb (status xtal) Duplicate then setStatus Optimized xtal
  else xtal.

(** [XtalOpt::resetDuplicates_]: the loop over the tracker's list, then
    the slot [checkForDuplicates]. *)
Definition resetDuplicates_ (e : Engine) : Engine :=
  checkForDuplicates (setTracker (map resetDuplicate (tracker e)) e).

Lemma resetDuplicate_spec (x : Xtal) :
  status (resetDuplicate x)
  = (if State_eqb (status x) Duplicate then Optimized else status x)
  /\ spacegroup (resetDuplicate x) = detectSpaceGroup (tol_spg opt) (mol x)
  /\ resetDuplicate x
     = setStatus (status (resetDuplicate x))
         (setSpacegroup (spacegroup (resetDuplicate x)) x).
Proof.
  unfold resetDuplicate, findSpaceGroup. destruct x. cbn.
  destruct (State_eqb _ Duplicate); cbn; repeat split; reflexivity.
Qed.

Lemma resetDuplicates__tracker (e : Engine) :
  tracker (resetDuplicates_ e) = map resetDuplicate (tracker e).
Proof.
  unfold resetDuplicates_, checkForDuplicates. cbn.
  now destruct (isStarting e).
Qed.

Lemma resetDuplicate_not_duplicate (x : Xtal) :
  status (resetDuplicate x) <> Duplicate.
Proof.
  rewrite (proj1 (resetDuplicate_spec x)).
  destruct (status x); cbn; discriminate.
Qed.

(** X10.  [resetDuplicates_] leaves no [Duplicate] in the tracker:
    every structure gets the space group detected for its molecule, a
    [Duplicate] becomes [Optimized], every other status stays, and
    nothing else of a structure changes (a former duplicate keeps its
    [duplicate_of]).  The tracker keeps its length and order, and one
    scan for duplicates is handed over unless the session is
    starting. *)
Theorem resetDuplicates_clears_duplicates (e : Engine) :
  let e' := resetDuplicates_ e in
  length (tracker e') = length (tracker e)
  /\ (forall y, y ∈ tracker e' -> status y <> Duplicate)
  /\ (forall k x, tracker e !! k = Some x ->
        exists y, tracker e' !! k = Some y
          /\ status y = (if State_eqb (status x) Duplicate
                         then Optimized else status x)
          /\ spacegroup y = detectSpaceGroup (tol_spg opt) (mol x)
          /\ y = setStatus (status y) (setSpacegroup (spacegroup y) x))
  /\ scans e' = (if isStarting e then scans e else S (scans e))
  /\ jobStartTracker e' = jobStartTracker e
  /\ messages e' = messages e.
Proof.
  cbv zeta. rewrite resetDuplicates__tracker.
  split; [apply length_map|]. split; [|split].
  - intros y Hy. apply list_elem_of_In, in_map_iff in Hy as (x & <- & _).
    apply resetDuplicate_not_duplicate.
  - intros k x Hx. exists (resetDuplicate x).
    split; [rewrite SubstrateProps.lookup_map, Hx; reflexivity|].
    apply resetDuplicate_spec.
  - unfold resetDuplicates_, checkForDuplicates. cbn.
    destruct (isStarting e); repeat split; reflexivity.
Qed.

Section Rescan.

Variable getFingerprint : Xtal -> Duplicates.Fingerprint.

(** X11.  A scan run on the tracker that [resetDuplicates_] leaves
    marks by the current fingerprints and tolerances alone: of every
    pair that matches one is a [Duplicate] afterwards, and every
    [Duplicate] afterwards matches another structure of the tracker,
    whose "GxI" string is its [duplicate_of]. *)
Theorem rescan_after_reset_marks_current_matches (e : Engine) :
  let reset := tracker (resetDuplicates_ e) in
  let final :=
    (Duplicates.checkForDuplicates_ getFingerprint opt reset).1 in
  (forall i j, Duplicates.matching getFingerprint opt reset i j ->
     exists k y, (k = i \/ k = j) /\ final !! k = Some y
                 /\ status y = Duplicate)
  /\ (forall k y, final !! k = Some y -> status y = Duplicate ->
        exists w xw,
          (Duplicates.matching getFingerprint opt reset k w
           \/ Duplicates.matching getFingerprint opt reset w k)
          /\ reset !! w = Some xw
          /\ duplicateString y = Duplicates.GxI xw).
Proof.
  intros reset final.
  set (trace := (Duplicates.checkForDuplicates_ getFingerprint opt reset).2).
  assert (Heffect : final = Duplicates.markings getFingerprint reset trace
                              reset)
    by apply Duplicates.scanOuter_effect.
  assert (Hcorrect : forall i j, (i, j, true) ∈ trace ->
                       Duplicates.matching getFingerprint opt reset i j).
  { intros i j H.
    now apply (Duplicates.checkForDuplicates_trace_correct
                 getFingerprint opt reset i j true). }
  split.
  - intros i j Hm. pose proof Hm as (Hij & _).
    destruct (Duplicates.matching_pair_found getFingerprint opt reset i j Hm)
      as (j0 & Hor & Hin).
    destruct (Duplicates.markings_mark_loser getFingerprint opt reset trace
                Hcorrect i j0 Hin) as (x & Hx & Hst).
    rewrite Heffect. destruct Hor as [->|Hl].
    + destruct (Duplicates.loser_winner_distinct getFingerprint reset i j Hij)
        as [_ [Hl|Hl]]; rewrite Hl in Hx; eauto 6.
    + rewrite Hl in Hx. eauto 6.
  - intros k y Hy Hst.
    assert (Hframe : Duplicates.scanFrame getFingerprint opt reset final).
    { rewrite Heffect. apply Duplicates.markings_frame; [exact Hcorrect|].
      split; [reflexivity|]. intros k0 x0 Hx0. eauto. }
    destruct Hframe as [Hlen Hframe].
    destruct (lookup_lt_is_Some_2 reset k) as [x Hx].
    { rewrite <- Hlen. eapply lookup_lt_Some, Hy. }
    destruct (Hframe k x Hx) as (y' & Hy' & Hor).
    rewrite Hy in Hy'. injection Hy' as <-.
    destruct Hor as [->|(w & xw & Hm & Hw & ->)].
    + exfalso. apply list_elem_of_lookup_2 in Hx.
      unfold reset in Hx. rewrite resetDuplicates__tracker in Hx.
      apply list_elem_of_In, in_map_iff in Hx as (x0 & <- & _).
      now apply (resetDuplicate_not_duplicate x0).
    + exists w, xw. split; [exact Hm|]. split; [exact Hw|]. reflexivity.
Qed.

End Rescan.

(** *** Starting a search ([XtalOpt::checkLimits], [XtalOpt::startSearch]) *)

(** [XtalOpt::checkLimits]; a warning goes where [report] puts it. *)
Definition checkLimits (e : Engine) : bool * Engine :=
  if Qltb (a_max opt) (a_min opt) then
    (false, report "XtalOptRand::checkLimits error: Illogical A limits." e)
  else if Qltb (b_max opt) (b_min opt) then
    (false, report "XtalOptRand::checkLimits error: Illogical B limits." e)
  else if Qltb (c_max opt) (c_min opt) then
    (false, report "XtalOptRand::checkLimits error: Illogical C limits." e)
  else if Qltb (alpha_max opt) (alpha_min opt) then
    (false,
     report "XtalOptRand::checkLimits error: Illogical Alpha limits." e)
  else if Qltb (beta_max opt) (beta_min opt) then
    (false,
     report "XtalOptRand::checkLimits error: Illogical Beta limits." e)
  else if Qltb (gamma_max opt) (gamma_min opt) then
    (false,
     report "XtalOptRand::checkLimits error: Illogical Gamma limits." e)
  else if (using_fixed_volume opt
           && (Qltb (vol_fixed opt) (a_min opt * b_min opt * c_min opt)
               || Qltb (a_max opt * b_max opt * c_max opt) (vol_fixed opt)))
          || (negb (using_fixed_volume opt)
              && (Qltb (vol_max opt) (a_min opt * b_min opt * c_min opt)
                  || Qltb (a_max opt * b_max opt * c_max opt) (vol_min opt)
                  || Qltb (vol_max opt) (vol_min opt)))
  then
    (false,
     report ("XtalOptRand::checkLimits error: Illogical Volume limits. "
             ++ "(Also check min/max volumes based on cell lengths)") e)
  else (true, e).

(** Modelled from the spec: [Tracker::deleteAllStructures] is declared
    in tracker.h and defined outside the sources; the specification has
    it disown and destroy every candidate. *)
Definition deleteAllStructures (e : Engine) : Engine := setTracker [] e.

(** [qSort] on a list of atomic numbers. *)
Fixpoint insertSorted (x : nat) (l : list nat) : list nat :=
  match l with
  | [] => [x]
  | y :: l' => if Nat.leb x y then x :: l else y :: insertSorted x l'
  end.

Definition qSort (l : list nat) : list nat := foldr insertSorted [] l.

Section Start.

(** What [startSearch] reads beyond the settings above: the number of
    structures to start with and the seed files; of the optimizer its
    id string, whether its "POTCAR info" is empty, its "Composition" and
    what [read] makes of a seed file; the login details; the network
    behind the connections; the answers of the user to [needBoolean]
    and [needPassword]. *)
Variable numInitial : nat.
Variable seedList : list string.
Variable optimizerId : string.
Variable potcarInfoEmpty : bool.
Variable oldcomp : list nat.
Variable optimizerRead : string -> option Xtal.
Variable host : string.
Variable username : string.
Variable port : nat.
Variable World : Type.
Variable openSession :
  SSHManager.LoginDetails -> World
  -> option SSHManager.SSHConnectionException * World.
Variable addKeyToKnownHosts : string -> nat -> World -> bool * World.
Variable needBoolean : string -> World -> bool * World.
Variable needPassword : string -> World -> option string * World.

(** "Create the SSHManager" (lines 112-169), from [for (;;)] on: whether
    the connections are made, or [startSearch] returns. *)
Fixpoint connectLoop (fuel : nat) (pw : string)
    (ssh : SSHManager.SSHManager) (w : World) (e : Engine)
  : Result (bool * SSHManager.SSHManager * World * Engine) :=
  match fuel with
  | O => OutOfFuel
  | S fuel' =>
      match SSHManager.makeConnections World openSession
              host username pw port ssh w with
      | (ssh, w, SSHManager.Connected) => Done (true, ssh, w, e)
      | (ssh, w, SSHManager.Thrown SSHManager.SSH_UNKNOWN_HOST_ERROR) =>
          let err :=
            "The host " ++ host ++ ":" ++ pretty port
            ++ " either has an unknown key, or has changed it's key:"
            ++ Template.NL ++ SSHManager.getServerKeyHash ssh ++ Template.NL
            ++ "Would you like to trust the specified host?" in
          let '(ok, w) := needBoolean err w in
          if negb ok then Done (false, ssh, w, e)
          else
            let '(_, w) :=
              SSHManager.validateServerKey World addKeyToKnownHosts ssh w in
            connectLoop fuel' pw ssh w e
      | (ssh, w, SSHManager.Thrown SSHManager.SSH_BAD_PASSWORD_ERROR) =>
          let err :=
            "Please enter a password for " ++ username ++ "@" ++ host
            ++ ":" ++ pretty port ++ ":" in
          match needPassword err w with
          | (None, w) => Done (false, ssh, w, e)
          | (Some newPassword, w) => connectLoop fuel' newPassword ssh w e
          end
      | (ssh, w, SSHManager.Thrown _) =>
          Done (false, ssh, w,
                report ("There was a problem connection to the ssh server at "
                        ++ username ++ "@" ++ host ++ ":" ++ pretty port
                        ++ ". "
                        ++ "Please check that all provided information is correct, "
                        ++ "and attempt to log in outside of Avogadro before trying again.")
                       e)
      | (_, _, SSHManager.NullPointer) => Abort
      end
  end.

(** "Load seeds..." (lines 190-205): [false] when a seed cannot be
    read. *)
Fixpoint loadSeeds (seeds : list string) (e : Engine) : bool * Engine :=
  match seeds with
  | [] => (true, e)
  | filename :: seeds' =>
      match optimizerRead filename with
      | None =>
          (false,
           report ("Error loading seed " ++ filename)
                  (deleteAllStructures e))
      | Some xtal =>
          loadSeeds seeds'
                    (initializeAndAddXtal xtal 1 ("Seeded: " ++ filename) e)
      end
  end.

(** "Generation loop..." (lines 207-229); after a candidate that fails
    the check, [i--] and the [i++] of the loop leave [i] as it was. *)
Fixpoint fillLoop (fuel : nat) (i : nat) (rng : Rng) (e : Engine)
  : Result (Rng * Engine) :=
  if Nat.ltb i numInitial then
    match fuel with
    | O => OutOfFuel
    | S fuel' =>
        let '(xtal, rng) := generateRandomXtal 1 (i + 1) rng in
        match checkXtal xtal with
        | (true, Some xtal) =>
            let xtal := findSpaceGroup (tol_spg opt) xtal in
            fillLoop fuel' (i + 1) rng
                     (initializeAndAddXtal xtal 1 (parents xtal) e)
        | _ => fillLoop fuel' i rng e
        end
    end
  else Done (rng, e).

(** [XtalOpt::startSearch].  The first component of the result tells
    whether the end was reached, where [sessionStarted] is emitted.
    What the dialog shows and saves, and the files that
    [buildPOTCARs] writes, are left out. *)
Definition startSearch (fuel : nat) (ssh : SSHManager.SSHManager)
    (w : World) (rng : Rng) (e : Engine)
  : Result (bool * SSHManager.SSHManager * World * Rng * Engine) :=
  match checkLimits e with
  | (false, e) =>
      Done (false, ssh, w, rng,
            report "Cannot create structures. Check log for details." e)
  | (true, e) =>
      if match comp opt with [] => true | _ => false end then
        Done (false, ssh, w, rng,
              report "Cannot create structures. Composition is not set." e)
      else if (optimizerId =? "VASP")
              && (potcarInfoEmpty
                  || negb (bool_decide
                             (oldcomp = qSort (map fst (comp opt)))))
      then
        Done (false, ssh, w, rng,
              report ("Using VASP and POTCAR is empty. "
                      ++ "Please select the pseudopotentials before continuing.")
                     e)
      else
        match (if negb (optimizerId =? "GULP")
               then connectLoop fuel "" ssh w e
               else Done (true, ssh, w, e)) with
        | Done (false, ssh, w, e) => Done (false, ssh, w, rng, e)
        | Done (true, ssh, w, e) =>
            let e := deleteAllStructures e in
            match loadSeeds seedList e with
            | (false, e) => Done (false, ssh, w, rng, e)
            | (true, e) =>
                match fillLoop fuel (length seedList) rng e with
                | Done (rng, e) => Done (true, ssh, w, rng, e)
                | OutOfFuel => OutOfFuel
                | Abort => Abort
                end
            end
        | OutOfFuel => OutOfFuel
        | Abort => Abort
        end
  end.

(** *** Proofs about [startSearch] *)

(** The limits that [checkLimits] accepts. *)
Definition logicalLimits : Prop :=
  a_min opt <= a_max opt /\ b_min opt <= b_max opt
  /\ c_min opt <= c_max opt /\ alpha_min opt <= alpha_max opt
  /\ beta_min opt <= beta_max opt /\ gamma_min opt <= gamma_max opt
  /\ (if using_fixed_volume opt
      then a_min opt * b_min opt * c_min opt <= vol_fixed opt
           /\ vol_fixed opt <= a_max opt * b_max opt * c_max opt
      else a_min opt * b_min opt * c_min opt <= vol_max opt
           /\ vol_min opt <= a_max opt * b_max opt * c_max opt
           /\ vol_min opt <= vol_max opt).

Lemma checkLimits_cases (e : Engine) :
  (checkLimits e = (true, e) /\ logicalLimits)
  \/ (exists msg, checkLimits e = (false, report msg e) /\ ~ logicalLimits).
Proof.
  unfold checkLimits, logicalLimits.
  destruct (Qltb (a_max opt) (a_min opt)) eqn:Ha.
  { right. eexists. split; [reflexivity|]. apply Qltb_lt in Ha.
    intros (H & _). lra. }
  destruct (Qltb (b_max opt) (b_min opt)) eqn:Hb.
  { right. eexists. split; [reflexivity|]. apply Qltb_lt in Hb.
    intros (_ & H & _). lra. }
  destruct (Qltb (c_max opt) (c_min opt)) eqn:Hc.
  { right. eexists. split; [reflexivity|]. apply Qltb_lt in Hc.
    intros (_ & _ & H & _). lra. }
  destruct (Qltb (alpha_max opt) (alpha_min opt)) eqn:Hal.
  { right. eexists. split; [reflexivity|]. apply Qltb_lt in Hal.
    intros (_ & _ & _ & H & _). lra. }
  destruct (Qltb (beta_max opt) (beta_min opt)) eqn:Hbe.
  { right. eexists. split; [reflexivity|]. apply Qltb_lt in Hbe.
    intros (_ & _ & _ & _ & H & _). lra. }
  destruct (Qltb (gamma_max opt) (gamma_min opt)) eqn:Hga.
  { right. eexists. split; [reflexivity|]. apply Qltb_lt in Hga.
    intros (_ & _ & _ & _ & _ & H & _). lra. }
  apply Qltb_ge in Ha, Hb, Hc, Hal, Hbe, Hga.
  destruct (using_fixed_volume opt); cbn [andb negb orb].
  - destruct (Qltb (vol_fixed opt) _) eqn:H1; cbn [orb].
    { right. eexists. split; [reflexivity|]. apply Qltb_lt in H1.
      intros (_ & _ & _ & _ & _ & _ & H & _). lra. }
    destruct (Qltb _ (vol_fixed opt)) eqn:H2.
    { right. eexists. split; [reflexivity|]. apply Qltb_lt in H2.
      intros (_ & _ & _ & _ & _ & _ & _ & H). lra. }
    apply Qltb_ge in H1, H2. left. split; [reflexivity|]. tauto.
  - destruct (Qltb (vol_max opt) (_ * _ * _)) eqn:H1; cbn [orb].
    { right. eexists. split; [reflexivity|]. apply Qltb_lt in H1.
      intros (_ & _ & _ & _ & _ & _ & H & _). lra. }
    destruct (Qltb _ (vol_min opt)) eqn:H2; cbn [orb].
    { right. eexists. split; [reflexivity|]. apply Qltb_lt in H2.
      intros (_ & _ & _ & _ & _ & _ & _ & H & _). lra. }
    destruct (Qltb (vol_max opt) (vol_min opt)) eqn:H3.
    { right. eexists. split; [reflexivity|]. apply Qltb_lt in H3.
      intros (_ & _ & _ & _ & _ & _ & _ & _ & H). lra. }
    apply Qltb_ge in H1, H2, H3. left. split; [reflexivity|]. tauto.
Qed.

(** X19.  [checkLimits] accepts exactly the limits in which every
    minimum is at most its maximum and the volume asked for lies between
    the products of the shortest and of the longest lengths.  With
    other limits, or with an empty composition, [startSearch] returns at
    once: it makes no connection, draws no number, leaves the tracker
    as it is and reports what is wrong. *)
Theorem startSearch_refuses_illogical_settings
    (fuel : nat) (ssh : SSHManager.SSHManager) (w : World) (rng : Rng)
    (e : Engine) :
  (logicalLimits <-> (checkLimits e).1 = true)
  /\ (~ logicalLimits \/ comp opt = [] ->
      exists e' msgs,
        startSearch fuel ssh w rng e = Done (false, ssh, w, rng, e')
        /\ tracker e' = tracker e
        /\ jobStartTracker e' = jobStartTracker e
        /\ scans e' = scans e
        /\ msgs <> [] /\ messages e' = (messages e ++ msgs)%list).
Proof.
  split.
  - destruct (checkLimits_cases e) as [[-> H]|(msg & -> & H)]; cbn;
      split; intros; try assumption; try reflexivity; try tauto;
      discriminate.
  - intros Hor. unfold startSearch.
    destruct (checkLimits_cases e) as [[-> H]|(msg & -> & H)].
    + destruct Hor as [Hn|Hc]; [tauto|]. rewrite Hc.
      eexists _, [_]. split; [reflexivity|]. cbn.
      repeat split; try reflexivity. discriminate.
    + eexists _, [_; _]. split; [reflexivity|]. cbn.
      rewrite <- app_assoc. repeat split; try reflexivity. discriminate.
Qed.

(** The first [k] structures of a first generation: ids 1, ..., k and
    indices 0, ..., k-1. *)
Definition firstGeneration (k : nat) (l : list Xtal) : Prop :=
  map generation l = replicate k 1%nat
  /\ map idNumber l = seq 1 k
  /\ map index l = seq 0 k.

Lemma nextId_firstGeneration (k : nat) (l : list Xtal) :
  firstGeneration k l -> nextId 1 l = S k.
Proof.
  intros (Hg & Hi & _).
  assert (Hgen : forall x, x ∈ l -> generation x = 1%nat).
  { intros x Hx. apply (elem_of_replicate_inv _ k). rewrite <- Hg.
    apply list_elem_of_In, in_map. now apply list_elem_of_In. }
  assert (Hid : forall x, x ∈ l -> (1 <= idNumber x <= k)%nat).
  { intros x Hx. assert (H : idNumber x ∈ seq 1 k).
    { rewrite <- Hi. apply list_elem_of_In, in_map. now apply list_elem_of_In. }
    apply elem_of_seq in H. lia. }
  destruct (nextId_spec 1 l 1) as (H1 & H2 & H3).
  fold (nextId 1 l) in H1, H2, H3.
  assert (Hle : (nextId 1 l <= S k)%nat).
  { destruct H3 as [->|(x & Hx & _ & ->)]; [lia|].
    specialize (Hid x Hx). lia. }
  destruct k as [|k]; [lia|].
  assert (Hk : S k ∈ map idNumber l)
    by (rewrite Hi; apply elem_of_seq; lia).
  apply list_elem_of_In, in_map_iff in Hk as (x & Hx & Hin).
  apply list_elem_of_In in Hin.
  specialize (H2 x Hin (Hgen x Hin)). lia.
Qed.

Lemma initializeAndAddXtal_published xtal g parents e :
  exists published,
    tracker (initializeAndAddXtal xtal g parents e)
    = (tracker e ++ [published])%list
    /\ generation published = g
    /\ Structure.parents published = parents
    /\ idNumber published = nextId g (tracker e)
    /\ index published = length (tracker e)
    /\ mol published = mol xtal
    /\ status published = status xtal
    /\ spacegroup published = detectSpaceGroup (tol_spg opt) (mol xtal).
Proof.
  unfold initializeAndAddXtal. cbv zeta.
  match goal with
  | |- context [pathAvailable ?p] => destruct (pathAvailable p)
  end; eexists; rewrite trackerAppend_tracker;
    (split; [reflexivity|repeat split; reflexivity]).
Qed.

Lemma firstGeneration_length k l : firstGeneration k l -> length l = k.
Proof.
  intros (_ & _ & H). apply (f_equal length) in H.
  now rewrite length_map, length_seq in H.
Qed.

Lemma firstGeneration_snoc k l x :
  firstGeneration k l -> generation x = 1%nat -> idNumber x = S k ->
  index x = k -> firstGeneration (S k) (l ++ [x]).
Proof.
  intros (Hg & Hi & Hx) H1 H2 H3. unfold firstGeneration.
  rewrite !map_app, Hg, Hi, Hx, replicate_S_end, !seq_S. cbn.
  now rewrite H1, H2, H3.
Qed.

(** What [startSearch] appends for a seed, and for a random candidate. *)
Definition seeded (filename : string) (x : Xtal) : Prop :=
  exists xtal, optimizerRead filename = Some xtal
    /\ parents x = "Seeded: " ++ filename
    /\ mol x = mol xtal /\ status x = status xtal.

Definition randomlyGenerated (x : Xtal) : Prop :=
  parents x = "Randomly generated"
  /\ status x = WaitingForOptimization
  /\ exists candidate xtal,
       checkXtal candidate = (true, Some xtal)
       /\ mol x = mol xtal
       /\ spacegroup x = detectSpaceGroup (tol_spg opt) (mol xtal).

Lemma loadSeeds_spec (seeds : list string) :
  forall e k,
    firstGeneration k (tracker e) ->
    match loadSeeds seeds e with
    | (true, e') =>
        exists l,
          tracker e' = (tracker e ++ l)%list
          /\ firstGeneration (k + length seeds) (tracker e')
          /\ Forall2 seeded seeds l
    | (false, e') =>
        tracker e' = []
        /\ exists f, f ∈ seeds /\ optimizerRead f = None
                     /\ last (messages e') = Some ("Error loading seed " ++ f)
    end.
Proof.
  induction seeds as [|f seeds IH]; intros e k Hk; cbn [loadSeeds].
  - exists []. rewrite app_nil_r, Nat.add_0_r. split; [reflexivity|].
    split; [exact Hk|constructor].
  - destruct (optimizerRead f) as [xtal|] eqn:Hr.
    + destruct (initializeAndAddXtal_published xtal 1 ("Seeded: " ++ f) e)
        as (p & Ht & Hg & Hp & Hi & Hx & Hm & Hs & _).
      rewrite (nextId_firstGeneration k _ Hk) in Hi.
      rewrite (firstGeneration_length k _ Hk) in Hx.
      specialize (IH (initializeAndAddXtal xtal 1 ("Seeded: " ++ f) e) (S k)).
      rewrite Ht in IH. specialize (IH (firstGeneration_snoc _ _ _ Hk Hg Hi Hx)).
      destruct (loadSeeds seeds _) as [[|] e'].
      * destruct IH as (l & Hl & Hfg & Hall). exists (p :: l).
        rewrite Hl in Hfg. rewrite <- app_assoc in Hfg.
        rewrite Hl, <- app_assoc. split; [reflexivity|].
        split; [cbn [length]; rewrite Nat.add_succ_r; exact Hfg|].
        constructor; [|exact Hall]. exists xtal. tauto.
      * destruct IH as (Hnil & f' & Hf' & Hr' & Hlast).
        split; [exact Hnil|]. exists f'. split; [now right|]. tauto.
    + split; [reflexivity|]. exists f. split; [left|].
      split; [exact Hr|]. cbn. apply last_snoc.
Qed.

Lemma fillLoop_spec (fuel : nat) :
  forall i rng e rng' e',
    firstGeneration i (tracker e) ->
    fillLoop fuel i rng e = Done (rng', e') ->
    exists l,
      tracker e' = (tracker e ++ l)%list
      /\ length l = (numInitial - i)%nat
      /\ firstGeneration (i + (numInitial - i)) (tracker e')
      /\ Forall randomlyGenerated l.
Proof.
  assert (Hstop : forall i (rng : Rng) (e : Engine) (rng' : Rng) e',
            firstGeneration i (tracker e) -> (numInitial <= i)%nat ->
            Done (rng, e) = Done (rng', e') ->
            exists l,
              tracker e' = (tracker e ++ l)%list
              /\ length l = (numInitial - i)%nat
              /\ firstGeneration (i + (numInitial - i)) (tracker e')
              /\ Forall randomlyGenerated l).
  { intros i rng e rng' e' Hi Hge H. injection H as <- <-. exists [].
    rewrite app_nil_r. replace (numInitial - i)%nat with 0%nat by lia.
    rewrite Nat.add_0_r. split; [reflexivity|]. split; [reflexivity|].
    split; [exact Hi|constructor]. }
  induction fuel as [|fuel IH]; intros i rng e rng' e' Hi; cbn [fillLoop];
    destruct (Nat.ltb_spec i numInitial) as [Hlt|Hge];
    try (now apply Hstop); [discriminate|].
  destruct (generateRandomXtal 1 (i + 1) rng) as [c rng1] eqn:Hgen.
  destruct (checkXtal c) as [[|] [x'|]] eqn:Hc;
    try (intros H; destruct (IH _ _ _ _ _ Hi H) as (l & Hl); now exists l).
  destruct c as [x|]; [|rewrite checkXtal_null in Hc; discriminate].
  destruct (generateRandomXtal_fields _ _ _ _ _ Hgen) as (_ & _ & Hp & Hs).
  destruct (checkXtal_frame _ _ _ Hc) as (y & Hy & Hsame).
  injection Hy as <-. unfold sameButMol in Hsame.
  assert (Hp' : parents x' = "Randomly generated")
    by (rewrite Hsame; exact Hp).
  assert (Hs' : status x' = WaitingForOptimization)
    by (rewrite Hsame; exact Hs).
  set (xs := findSpaceGroup (tol_spg opt) x').
  destruct (initializeAndAddXtal_published xs 1 (parents xs) e)
    as (p & Ht & Hg & Hpp & Hid & Hx & Hm & Hst & Hsg).
  rewrite (nextId_firstGeneration i _ Hi) in Hid.
  rewrite (firstGeneration_length i _ Hi) in Hx.
  intros H. apply IH in H.
  2:{ rewrite Ht, Nat.add_1_r. now apply firstGeneration_snoc. }
  destruct H as (l & Hl & Hlen & Hfg & Hall). exists (p :: l).
  rewrite Hl, Ht in Hfg. rewrite <- app_assoc in Hfg.
  rewrite Hl, Ht, <- app_assoc. split; [reflexivity|].
  split; [cbn [length]; lia|].
  split; [now replace (i + (numInitial - i))%nat
            with (i + 1 + (numInitial - (i + 1)))%nat by lia|].
  constructor; [|exact Hall].
  split; [rewrite Hpp; exact Hp'|]. split; [rewrite Hst; exact Hs'|].
  exists (Some x), x'. split; [exact Hc|]. split; [exact Hm|exact Hsg].
Qed.

Lemma connectLoop_spec (fuel : nat) :
  forall pw ssh w e b ssh' w' e',
    connectLoop fuel pw ssh w e = Done (b, ssh', w', e') ->
    tracker e' = tracker e
    /\ (b = true -> SSHManager.m_isValid ssh' = true /\ e' = e).
Proof.
  induction fuel as [|fuel IH]; intros pw ssh w e b ssh' w' e';
    cbn [connectLoop]; [discriminate|].
  destruct (SSHManager.makeConnections _ _ _ _ _ _ _ _)
    as [[ssh1 w1] [|ex|]] eqn:Hm; [| |discriminate].
  - intros H. injection H as <- <- <- <-. split; [reflexivity|].
    intros _. split; [|reflexivity].
    unfold SSHManager.makeConnections in Hm.
    destruct (SSHManager.connectAll _ _ _ _ _) as [[conns w2] r].
    injection Hm as <- _ ->. reflexivity.
  - destruct ex.
    + intros H. injection H as <- <- <- <-. split; [reflexivity|discriminate].
    + intros H. injection H as <- <- <- <-. split; [reflexivity|discriminate].
    + destruct (needBoolean _ w1) as [[|] w2]; cbn [negb].
      * destruct (SSHManager.validateServerKey _ _ _ _) as [r w3].
        apply IH.
      * intros H. injection H as <- <- <- <-.
        split; [reflexivity|discriminate].
    + destruct (needPassword _ w1) as [[newPassword|] w2]; [apply IH|].
      intros H. injection H as <- <- <- <-. split; [reflexivity|discriminate].
Qed.

(** X20.  When [startSearch] returns before its end, it has drawn no
    random number, and the tracker is either as it was or empty: it is
    emptied only once the connections are made, and then it is left
    empty when a seed cannot be read, which is reported as the last
    message. *)
Theorem startSearch_gives_up_without_partial_fill
    (fuel : nat) (ssh ssh' : SSHManager.SSHManager) (w w' : World)
    (rng rng' : Rng) (e e' : Engine) :
  startSearch fuel ssh w rng e = Done (false, ssh', w', rng', e') ->
  rng' = rng
  /\ (tracker e' = tracker e
      \/ (tracker e' = []
          /\ exists f, f ∈ seedList /\ optimizerRead f = None
               /\ last (messages e') = Some ("Error loading seed " ++ f))).
Proof.
  unfold startSearch.
  destruct (checkLimits_cases e) as [[-> _]|(msg & -> & _)].
  2:{ intros H. injection H as _ _ <- <-. split; [reflexivity|now left]. }
  destruct (comp opt) as [|c0 comp0].
  { intros H. injection H as _ _ <- <-. split; [reflexivity|now left]. }
  destruct (_ && _).
  { intros H. injection H as _ _ <- <-. split; [reflexivity|now left]. }
  match goal with
  | |- match ?c with _ => _ end = _ -> _ =>
      destruct c as [[[[b ssh1] w1] e1]| |] eqn:Hc
  end; try discriminate.
  assert (Ht : tracker e1 = tracker e).
  { destruct (negb _); [now apply connectLoop_spec in Hc|].
    now injection Hc as _ _ _ <-. }
  destruct b.
  - pose proof (loadSeeds_spec seedList (deleteAllStructures e1) 0
                  ltac:(repeat split)) as Hs.
    destruct (loadSeeds seedList (deleteAllStructures e1)) as [[|] e2].
    + destruct (fillLoop _ _ _ _) as [[rng2 e3]| |]; discriminate.
    + intros H. injection H as _ _ <- <-. split; [reflexivity|].
      right. exact Hs.
  - intros H. injection H as _ _ <- <-. split; [reflexivity|].
    left. exact Ht.
Qed.

(** X21.  When [startSearch] reaches its end, the limits were logical
    and the composition was not empty; unless the optimizer is GULP the
    manager of the connections is valid; and the tracker holds, in place
    of what it held, the seeds in the order of the seed list followed by
    random candidates that passed [checkXtal] and wait for optimization,
    [numInitial] structures in all (or as many as there are seeds, when
    these are more), all of generation 1, with the ids 1, 2, ... and the
    indices 0, 1, ... in this order. *)
Theorem startSearch_fills_first_generation
    (fuel : nat) (ssh ssh' : SSHManager.SSHManager) (w w' : World)
    (rng rng' : Rng) (e e' : Engine) :
  startSearch fuel ssh w rng e = Done (true, ssh', w', rng', e') ->
  logicalLimits /\ comp opt <> []
  /\ (optimizerId <> "GULP" -> SSHManager.m_isValid ssh' = true)
  /\ exists seeds randoms,
       tracker e' = (seeds ++ randoms)%list
       /\ Forall2 seeded seedList seeds
       /\ Forall randomlyGenerated randoms
       /\ length (tracker e') = Nat.max (length seedList) numInitial
       /\ firstGeneration (length (tracker e')) (tracker e').
Proof.
  unfold startSearch.
  destruct (checkLimits_cases e) as [[-> Hlim]|(msg & -> & _)];
    [|discriminate].
  destruct (comp opt) as [|c0 comp0]; [discriminate|].
  destruct (_ && _); [discriminate|].
  match goal with
  | |- match ?c with _ => _ end = _ -> _ =>
      destruct c as [[[[b ssh1] w1] e1]| |] eqn:Hc
  end; try discriminate.
  destruct b; [|discriminate].
  pose proof (loadSeeds_spec seedList (deleteAllStructures e1) 0
                ltac:(repeat split)) as Hs.
  destruct (loadSeeds seedList (deleteAllStructures e1)) as [[|] e2];
    [|discriminate].
  destruct Hs as (seeds & Hseeds & Hfg & Hall). cbn in Hseeds, Hfg.
  destruct (fillLoop _ _ _ _) as [[rng2 e3]| |] eqn:Hf; try discriminate.
  intros H. injection H as <- <- <- <-.
  apply fillLoop_spec in Hf; [|exact Hfg].
  destruct Hf as (randoms & Hr & Hlen & Hfg' & Hrand).
  split; [exact Hlim|]. split; [discriminate|]. split.
  { intros Hne. destruct (String.eqb_spec optimizerId "GULP") as [|_];
      [contradiction|]. cbn [negb] in Hc.
    now apply connectLoop_spec in Hc as [_ [Hv _]]. }
  exists seeds, randoms. rewrite Hr, Hseeds.
  split; [reflexivity|]. split; [exact Hall|]. split; [exact Hrand|].
  assert (Hl : length (seeds ++ randoms)
               = Nat.max (length seedList) numInitial).
  { rewrite length_app, Hlen, <- (Forall2_length _ _ _ Hall). lia. }
  split; [exact Hl|]. rewrite Hl. rewrite Hr, Hseeds in Hfg'.
  now replace (Nat.max (length seedList) numInitial)
    with (length seedList + (numInitial - length seedList))%nat by lia.
Qed.

End Start.

End WithEnvironment.

(** *** Loading a session ([XtalOpt::load]) *)

(** A value of a settings file, as [QSettings::value] returns it. *)
Inductive QVariant : Type :=
| QInvalid
| QBool (b : bool)
| QInt (z : Z)
| QText (s : string).

Definition toLower (c : ascii) : ascii :=
  let n := nat_of_ascii c in
  if Nat.leb 65 n && Nat.leb n 90 then ascii_of_nat (n + 32) else c.

Fixpoint lowered (s : string) : string :=
  match s with
  | "" => ""
  | String c s' => String (toLower c) (lowered s')
  end.

(** [QVariant::toBool]: a text is true unless its lower-case content is
    empty, "0" or "false". *)
Definition toBool (v : QVariant) : bool :=
  match v with
  | QInvalid => false
  | QBool b => b
  | QInt z => negb (Z.eqb z 0)
  | QText s =>
      negb ((lowered s =? "") || (lowered s =? "0")
            || (lowered s =? "false"))
  end.

(** [settings->value(key, defaultValue)] *)
Definition value (settings : gmap string QVariant) (key : string)
    (defaultValue : QVariant) : QVariant :=
  default defaultValue (settings !! key).

(** [QList::swap(i, j)] *)
Definition swap (i j : nat) (l : list Xtal) : list Xtal :=
  match l !! i, l !! j with
  | Some a, Some b => <[i := b]> (<[j := a]> l)
  | _, _ => l
  end.

(** "Sort Xtals by index values" (lines 1086-1099). *)
Definition sortByIndex (loadedStructures : list Xtal) : list Xtal :=
  let n := length loadedStructures in
  (foldl (fun st i =>
            foldl (fun '(l, curpos) j =>
                     match l !! j with
                     | Some s =>
                         if Nat.eqb (index s) i
                         then (swap j curpos l, S curpos)
                         else (l, curpos)
                     | None => (l, curpos)
                     end)
                  st (seq 0 n))
         (loadedStructures, 0%nat) (seq 0 n)).1.

(** "Reassign indices" (lines 1106-1110). *)
Definition reassignIndices (loadedStructures : list Xtal) : list Xtal :=
  imap (fun i s => setIndex i s) loadedStructures.

(** [m_queue->appendToJobStartTracker(s)] for the structure appended
    last. *)
Definition appendToJobStartTracker (e : Engine) : Engine :=
  setJobStartTracker (jobStartTracker e ++ [(length (tracker e) - 1)%nat]) e.

Definition incompleteMessage (fileName : string) : string :=
  "XtalOpt::load(): File " ++ fileName
  ++ " is incomplete, corrupt, or invalid. (Try "
  ++ fileName ++ ".old if it exists)".

(** *** The sort of the loaded structures *)

(** The body of the inner loop of "Sort Xtals by index values". *)
Definition sortStep (i : nat) (st : list Xtal * nat) (j : nat)
  : list Xtal * nat :=
  let '(l, curpos) := st in
  match l !! j with
  | Some s =>
      if Nat.eqb (index s) i then (swap j curpos l, S curpos)
      else (l, curpos)
  | None => (l, curpos)
  end.

Lemma foldl_pointwise {A B} (f g : A -> B -> A) (l : list B) :
  (forall a b, f a b = g a b) -> forall a, foldl f a l = foldl g a l.
Proof.
  intros H. induction l as [|b l IH]; intros a; [reflexivity|].
  cbn [foldl]. now rewrite H, IH.
Qed.

Lemma sortByIndex_passes (l : list Xtal) :
  sortByIndex l
  = (foldl (fun st i => foldl (sortStep i) st (seq 0 (length l)))
           (l, 0%nat) (seq 0 (length l))).1.
Proof.
  unfold sortByIndex. cbv zeta. f_equal. apply foldl_pointwise.
  intros st i. apply foldl_pointwise. now intros [l0 c] j.
Qed.

Lemma swap_Permutation (i j : nat) (l : list Xtal) : swap i j l ≡ₚ l.
Proof.
  unfold swap. destruct (l !! i) as [a|] eqn:Ha; [|reflexivity].
  destruct (l !! j) as [b|] eqn:Hb; [|reflexivity].
  now apply Permutation_insert_swap.
Qed.

Lemma swap_lookup (i j : nat) (l : list Xtal) a b k :
  l !! i = Some a -> l !! j = Some b ->
  swap i j l !! k
  = if Nat.eqb k i then Some b else if Nat.eqb k j then Some a else l !! k.
Proof.
  intros Ha Hb. unfold swap. rewrite Ha, Hb.
  pose proof (lookup_lt_Some _ _ _ Ha). pose proof (lookup_lt_Some _ _ _ Hb).
  case Nat.eqb_spec; [intros ->|intros Hki].
  { now rewrite list_lookup_insert_eq by (rewrite length_insert; lia). }
  rewrite list_lookup_insert_ne by congruence.
  case Nat.eqb_spec; [intros ->|intros Hkj].
  { now rewrite list_lookup_insert_eq by lia. }
  now rewrite list_lookup_insert_ne by congruence.
Qed.

Lemma sortStep_Permutation i st j : (sortStep i st j).1 ≡ₚ st.1.
Proof.
  destruct st as [l c]. unfold sortStep. destruct (l !! j); [|reflexivity].
  destruct (Nat.eqb _ _); [apply swap_Permutation|reflexivity].
Qed.

Lemma sortPass_Permutation i js :
  forall st, (foldl (sortStep i) st js).1 ≡ₚ st.1.
Proof.
  induction js as [|j js IH]; intros st; [reflexivity|].
  cbn [foldl]. rewrite IH. apply sortStep_Permutation.
Qed.

Lemma sortByIndex_Permutation (l : list Xtal) : sortByIndex l ≡ₚ l.
Proof.
  rewrite sortByIndex_passes. generalize (length l) at 1. intros n.
  generalize (seq 0 (length l)). intros idxs.
  change l with (l, 0%nat).1 at 2. generalize (l, 0%nat).
  induction idxs as [|i idxs IH]; intros st; [reflexivity|].
  cbn [foldl]. rewrite IH. apply sortPass_Permutation.
Qed.

Lemma sortPass_skip i js l c :
  (forall j s, j ∈ js -> l !! j = Some s -> index s <> i) ->
  foldl (sortStep i) (l, c) js = (l, c).
Proof.
  induction js as [|j js IH]; intros H; [reflexivity|].
  cbn [foldl]. assert (E : sortStep i (l, c) j = (l, c)).
  { unfold sortStep. destruct (l !! j) as [s|] eqn:Hs; [|reflexivity].
    destruct (Nat.eqb_spec (index s) i) as [Hi|]; [|reflexivity].
    exfalso. eapply H; [left|exact Hs|exact Hi]. }
  rewrite E. apply IH. intros j' s Hj'. apply H. now right.
Qed.

Lemma index_unique (l : list Xtal) j j' s s' :
  NoDup (map index l) -> l !! j = Some s -> l !! j' = Some s' ->
  index s = index s' -> j = j'.
Proof.
  intros Hnd Hs Hs' Hi. apply (NoDup_lookup (map index l) j j' (index s) Hnd).
  - now rewrite SubstrateProps.lookup_map, Hs.
  - now rewrite SubstrateProps.lookup_map, Hs', Hi.
Qed.

(** One pass: the structure of index [i], found at [j], goes to
    position [i]. *)
Lemma sortPass_places (l : list Xtal) (i j : nat) s :
  NoDup (map index l) -> l !! j = Some s -> index s = i -> (i <= j)%nat ->
  foldl (sortStep i) (l, i) (seq 0 (length l)) = (swap j i l, S i).
Proof.
  intros Hnd Hs Hi Hij. pose proof (lookup_lt_Some _ _ _ Hs) as Hj.
  destruct (lookup_lt_is_Some_2 l i) as [b Hb]; [lia|].
  replace (length l) with (j + (1 + (length l - S j)))%nat by lia.
  rewrite !seq_app, !foldl_app. cbn [seq foldl]. rewrite Nat.add_0_l.
  rewrite sortPass_skip.
  2:{ intros j' s' Hj' Hs' Hi'. apply elem_of_seq in Hj'.
      assert (j' = j) by (eapply (index_unique l); eauto; congruence). lia. }
  assert (E : sortStep i (l, i) j = (swap j i l, S i)).
  { unfold sortStep. now rewrite Hs, Hi, Nat.eqb_refl. }
  rewrite E. apply sortPass_skip.
  intros j' s' Hj' Hs' Hi'. apply elem_of_seq in Hj'.
  rewrite (swap_lookup j i l s b j' Hs Hb) in Hs'.
  rewrite (proj2 (Nat.eqb_neq j' j)) in Hs' by lia.
  rewrite (proj2 (Nat.eqb_neq j' i)) in Hs' by lia.
  assert (j' = j) by (eapply (index_unique l); eauto; congruence). lia.
Qed.

Lemma sortByIndex_prefix (l : list Xtal) :
  map index l ≡ₚ seq 0 (length l) ->
  forall m, (m <= length l)%nat ->
    exists l',
      foldl (fun st i => foldl (sortStep i) st (seq 0 (length l)))
            (l, 0%nat) (seq 0 m) = (l', m)
      /\ l' ≡ₚ l
      /\ forall k, (k < m)%nat -> exists s, l' !! k = Some s /\ index s = k.
Proof.
  intros Hperm. induction m as [|m IH]; intros Hm.
  - exists l. split; [reflexivity|]. split; [reflexivity|]. intros k Hk. lia.
  - destruct IH as (l' & Hf & Hp & Hsorted); [lia|].
    rewrite seq_S, foldl_app, Hf. cbn [foldl]. rewrite Nat.add_0_l.
    assert (Hlen : length l' = length l) by now rewrite Hp.
    assert (Hperm' : map index l' ≡ₚ seq 0 (length l))
      by (rewrite <- Hperm; now apply Permutation_map).
    assert (Hnd : NoDup (map index l'))
      by (rewrite Hperm'; apply NoDup_seq).
    assert (Hin : m ∈ map index l')
      by (rewrite Hperm'; apply elem_of_seq; lia).
    apply list_elem_of_In, in_map_iff in Hin as (s & Hi & Hs).
    apply list_elem_of_In, list_elem_of_lookup in Hs as [j Hs].
    assert (Hj : (m <= j)%nat).
    { destruct (decide (m <= j)%nat) as [|Hlt]; [assumption|].
      destruct (Hsorted j) as (s' & Hs' & Hi'); [lia|].
      rewrite Hs in Hs'. injection Hs' as <-. lia. }
    exists (swap j m l'). rewrite <- Hlen.
    split; [now apply (sortPass_places l' m j s)|].
    split; [now rewrite swap_Permutation|].
    destruct (lookup_lt_is_Some_2 l' m) as [b Hb]; [lia|].
    intros k Hk. rewrite (swap_lookup j m l' s b k Hs Hb).
    destruct (decide (k = m)) as [->|Hkm].
    + destruct (Nat.eqb_spec m j) as [->|_].
      * exists b. split; [reflexivity|]. rewrite Hs in Hb. now injection Hb as <-.
      * rewrite Nat.eqb_refl. eauto.
    + rewrite (proj2 (Nat.eqb_neq k j)) by lia.
      rewrite (proj2 (Nat.eqb_neq k m)) by lia. apply Hsorted. lia.
Qed.

(** X12.  The sort of [load] loses and repeats no structure: its
    result is a rearrangement of the list it is given.  When the stored
    indices are 0, ..., n-1 in some order, it puts every structure at
    the position of its index, and the indices assigned afterwards are
    the stored ones. *)
Theorem sortByIndex_sorts (loadedStructures : list Xtal) :
  sortByIndex loadedStructures ≡ₚ loadedStructures
  /\ (map index loadedStructures ≡ₚ seq 0 (length loadedStructures) ->
      map index (sortByIndex loadedStructures)
      = seq 0 (length loadedStructures)
      /\ reassignIndices (sortByIndex loadedStructures)
         = sortByIndex loadedStructures).
Proof.
  split; [apply sortByIndex_Permutation|]. intros Hperm.
  destruct (sortByIndex_prefix loadedStructures Hperm
              (length loadedStructures)) as (l' & Hf & Hp & Hsorted); [lia|].
  assert (E : sortByIndex loadedStructures = l')
    by (rewrite sortByIndex_passes, Hf; reflexivity).
  rewrite E. assert (Hlen : length l' = length loadedStructures)
    by now rewrite Hp.
  split.
  - apply list_eq. intros k. rewrite SubstrateProps.lookup_map.
    destruct (decide (k < length loadedStructures)%nat) as [Hk|Hk].
    + destruct (Hsorted k Hk) as (s & -> & Hi). cbn. rewrite Hi.
      symmetry. apply lookup_seq. lia.
    + rewrite (lookup_ge_None_2 l') by lia.
      rewrite (lookup_ge_None_2 (seq _ _)) by (rewrite length_seq; lia).
      reflexivity.
  - unfold reassignIndices. apply list_eq. intros k.
    rewrite list_lookup_imap.
    destruct (l' !! k) as [s|] eqn:Hs; [|reflexivity]. cbn.
    destruct (Hsorted k) as (s' & Hs' & Hi);
      [apply lookup_lt_Some in Hs; lia|].
    rewrite Hs in Hs'. injection Hs' as <-. f_equal.
    destruct s. cbn in Hi. now subst.
Qed.

(** The positions in the tracker, from [base] on, of the structures of
    [l] that wait for their optimization. *)
Fixpoint waitingPositions (base : nat) (l : list Xtal) : list nat :=
  match l with
  | [] => []
  | s :: l' =>
      ((if State_eqb (status s) WaitingForOptimization then [base] else [])
       ++ waitingPositions (S base) l')%list
  end.

(** The loop that hands the loaded structures to the tracker
    (lines 1121-1127). *)
Definition republish (e : Engine) (l : list Xtal) : Engine :=
  foldl (fun e s =>
           let e := trackerAppend s e in
           if State_eqb (status s) WaitingForOptimization
           then appendToJobStartTracker e else e)
        e l.

Lemma republish_cons e s l :
  republish e (s :: l)
  = republish (if State_eqb (status s) WaitingForOptimization
               then appendToJobStartTracker (trackerAppend s e)
               else trackerAppend s e) l.
Proof. reflexivity. Qed.

Lemma republish_spec (l : list Xtal) :
  forall e,
    tracker (republish e l) = (tracker e ++ l)%list
    /\ jobStartTracker (republish e l)
       = (jobStartTracker e ++ waitingPositions (length (tracker e)) l)%list
    /\ messages (republish e l) = messages e
    /\ readOnly (republish e l) = readOnly e.
Proof.
  induction l as [|s l IH]; intros e.
  - cbn. rewrite !app_nil_r. repeat split; reflexivity.
  - rewrite republish_cons. cbn [waitingPositions].
    set (e1 := if State_eqb (status s) WaitingForOptimization
               then appendToJobStartTracker (trackerAppend s e)
               else trackerAppend s e).
    assert (H1 : tracker e1 = (tracker e ++ [s])%list
                 /\ jobStartTracker e1
                    = (jobStartTracker e ++
                       (if State_eqb (status s) WaitingForOptimization
                        then [length (tracker e)] else []))%list
                 /\ messages e1 = messages e
                 /\ readOnly e1 = readOnly e).
    { unfold e1, appendToJobStartTracker, trackerAppend, checkForDuplicates.
      cbn [isStarting setTracker].
      destruct (State_eqb _ _), (isStarting e); cbn;
        rewrite ?app_nil_r, ?length_app; cbn;
        rewrite ?Nat.add_sub; repeat split; reflexivity. }
    destruct H1 as (Ht & Hj & Hm & Hr).
    destruct (IH e1) as (H1 & H2 & H3 & H4).
    rewrite H1, H2, H3, H4, Ht, Hj, Hm, Hr, length_app. cbn [length].
    rewrite <- !app_assoc, Nat.add_1_r. repeat split; reflexivity.
Qed.

Lemma reassignIndices_index (l : list Xtal) :
  map index (reassignIndices l) = seq 0 (length l).
Proof.
  apply list_eq. intros k. unfold reassignIndices.
  rewrite SubstrateProps.lookup_map, list_lookup_imap.
  destruct (l !! k) as [s|] eqn:Hs; cbn.
  - symmetry. apply lookup_seq. apply lookup_lt_Some in Hs. lia.
  - symmetry. apply lookup_ge_None_2. rewrite length_seq.
    now apply lookup_ge_None_1.
Qed.

Lemma reassignIndices_same (l : list Xtal) :
  map (setIndex 0) (reassignIndices l) = map (setIndex 0) l.
Proof.
  apply list_eq. intros k. unfold reassignIndices.
  rewrite !SubstrateProps.lookup_map, list_lookup_imap.
  now destruct (l !! k).
Qed.

Section WithSession.

(** What lies outside the sources: the dialog's settings, the choice of
    the optimizer and the SSH connection (lines 949-1027), which may
    leave the engine read-only; the path of the session's directory and
    those of its directories that hold a state file (lines 916-935);
    whether a file exists; a new [Xtal] with one empty atom for each
    atom of the composition (lines 1044-1050); [Xtal::readSettings];
    [Optimizer::load] and [Optimizer::getIDString] of the optimizer set
    for the session file; the answer to the question whether to resume
    the search.  [Optimizer::load] answers whether it could load the
    structure, which it may have changed. *)
Variable connect : string -> bool -> Engine -> Engine.
Variable dataPath : string -> string.
Variable xtalDirs : string -> list string.
Variable fileExists : string -> bool.
Variable newXtal : Xtal.
Variable readSettings : string -> Xtal -> Xtal.
Variable optimizerLoad : string -> Xtal -> bool * Xtal.
Variable getIDString : string -> string.
Variable promptResume : Engine -> bool.

(** The state file of the structure in the directory [dir]: older
    sessions have [xtal.state] (lines 1037-1042). *)
Definition xtalStateFileName (path dir : string) : string :=
  let name := path ++ "/" ++ dir ++ "/structure.state" in
  if negb (fileExists name)
     && fileExists (path ++ "/" ++ dir ++ "/xtal.state")
  then path ++ "/" ++ dir ++ "/xtal.state"
  else name.

(** The structure read from the directory [dir] (lines 1044-1054). *)
Definition readXtal (filename dir : string) : Xtal :=
  let path := dataPath filename in
  let xtal := setFileName (path ++ "/" ++ dir ++ "/") newXtal in
  readSettings (xtalStateFileName path dir) xtal.

Definition noDataMessage (idString fileName : string) : string :=
  "Error, no (or not appropriate for " ++ idString ++ ") xtal data in "
  ++ fileName ++ "." ++ Template.NL ++ Template.NL
  ++ "This could be a result of resuming a structure that has not yet done any local optimizations. If so, safely ignore this message.".

(** The body of the loop over the directories (lines 1029-1079): a
    structure that the optimizer cannot load is reported and left out,
    one that it can load gets back the status read from its file and
    is appended to [loadedStructures].  The end of the optimization
    timer, saved and restored with the status, is no field of [Xtal]
    here. *)
Definition loadStructure (filename : string)
    (st : Engine * list Xtal) (dir : string) : Engine * list Xtal :=
  let xtal := readXtal filename dir in
  let state := status xtal in
  let loaded := optimizerLoad filename xtal in
  if negb loaded.1 then
    (report (noDataMessage (getIDString filename) (fileName loaded.2)) st.1,
     st.2)
  else (st.1, (st.2 ++ [setStatus state loaded.2])%list).

Definition readStructures (filename : string) (e : Engine)
  : Engine * list Xtal :=
  foldl (loadStructure filename) (e, []) (xtalDirs filename).

(** [XtalOpt::load(filename, forceReadOnly)]; [files] maps the name of
    a file that can be opened to the settings it holds. *)
Definition load (files : gmap string (gmap string QVariant))
    (filename : string) (forceReadOnly : bool) (e : Engine)
  : bool * Engine :=
  let e := if forceReadOnly then setReadOnly true e else e in
  match files !! filename with
  | None =>
      (false, report ("XtalOpt::load(): Error opening file " ++ filename
                      ++ " for reading...") e)
  | Some settings =>
      let stateFileIsValid :=
        toBool (value settings "xtalopt/saveSuccessful" (QBool false)) in
      if negb stateFileIsValid then
        (false, report (incompleteMessage filename) e)
      else
        let e := connect filename forceReadOnly e in
        let read := readStructures filename e in
        let e := read.1 in
        let loadedStructures := read.2 in
        let loadedStructures := sortByIndex loadedStructures in
        let loadedStructures := reassignIndices loadedStructures in
        let e :=
          foldl (fun e s =>
                   let e := trackerAppend s e in
                   if State_eqb (status s) WaitingForOptimization
                   then appendToJobStartTracker e else e)
                e loadedStructures in
        let e := if negb (readOnly e)
                 then setReadOnly (negb (promptResume e)) e else e in
        (true, e)
  end.

(** The flag [saveSuccessful] of a settings file is absent or false. *)
Definition saveUnsuccessful (settings : gmap string QVariant) : Prop :=
  settings !! "xtalopt/saveSuccessful" = None
  \/ exists v, settings !! "xtalopt/saveSuccessful" = Some v
               /\ toBool v = false.

(** C5.  A session file whose [saveSuccessful] flag is absent or false
    is not loaded: [load] returns [false], reports the file as
    incomplete, corrupt or invalid, and adds no structure to the tracker
    (nor to the job-start tracker, and it triggers no scan). *)
Theorem load_refuses_unsuccessful_save
    (files : gmap string (gmap string QVariant)) (filename : string)
    (forceReadOnly : bool) (e : Engine) (settings : gmap string QVariant) :
  files !! filename = Some settings ->
  saveUnsuccessful settings ->
  (load files filename forceReadOnly e).1 = false
  /\ tracker (load files filename forceReadOnly e).2 = tracker e
  /\ jobStartTracker (load files filename forceReadOnly e).2
     = jobStartTracker e
  /\ scans (load files filename forceReadOnly e).2 = scans e
  /\ messages (load files filename forceReadOnly e).2
     = (messages e ++ [incompleteMessage filename])%list.
Proof.
  intros Hfile Hflag. unfold load. rewrite Hfile.
  assert (Hv : toBool (value settings "xtalopt/saveSuccessful"
                             (QBool false)) = false).
  { unfold value. destruct Hflag as [->|(v & -> & Hv)]; [reflexivity|].
    exact Hv. }
  rewrite Hv. simpl. destruct forceReadOnly; repeat split; reflexivity.
Qed.

(** A file that cannot be opened is refused in the same way. *)
Lemma load_refuses_missing_file
    (files : gmap string (gmap string QVariant)) (filename : string)
    (forceReadOnly : bool) (e : Engine) :
  files !! filename = None ->
  (load files filename forceReadOnly e).1 = false
  /\ tracker (load files filename forceReadOnly e).2 = tracker e.
Proof.
  intros Hfile. unfold load. rewrite Hfile.
  destruct forceReadOnly; split; reflexivity.
Qed.

(** *** The loop that reads the structures *)

(** What the directory [dir] gives: the structure, when the optimizer
    can load it, with the status read from its state file. *)
Definition loadedFrom (filename dir : string) : list Xtal :=
  let xtal := readXtal filename dir in
  if (optimizerLoad filename xtal).1
  then [setStatus (status xtal) (optimizerLoad filename xtal).2]
  else [].

(** The error reported for [dir], when the optimizer cannot load its
    structure. *)
Definition errorFrom (filename dir : string) : list string :=
  let xtal := readXtal filename dir in
  if (optimizerLoad filename xtal).1 then []
  else [noDataMessage (getIDString filename)
                      (fileName (optimizerLoad filename xtal).2)].

Lemma loadStructure_spec (filename dir : string) (st : Engine * list Xtal) :
  let r := loadStructure filename st dir in
  r.2 = (st.2 ++ loadedFrom filename dir)%list
  /\ messages r.1 = (messages st.1 ++ errorFrom filename dir)%list
  /\ tracker r.1 = tracker st.1
  /\ jobStartTracker r.1 = jobStartTracker st.1
  /\ isStarting r.1 = isStarting st.1
  /\ readOnly r.1 = readOnly st.1
  /\ scans r.1 = scans st.1.
Proof.
  cbv zeta. unfold loadStructure, loadedFrom, errorFrom. cbv zeta.
  destruct (optimizerLoad filename (readXtal filename dir)) as [[|] x];
    cbn; rewrite ?app_nil_r; repeat split; reflexivity.
Qed.

Lemma readLoop_spec (filename : string) (dirs : list string) :
  forall st : Engine * list Xtal,
    let r := foldl (loadStructure filename) st dirs in
    r.2 = (st.2 ++ flat_map (loadedFrom filename) dirs)%list
    /\ messages r.1
       = (messages st.1 ++ flat_map (errorFrom filename) dirs)%list
    /\ tracker r.1 = tracker st.1
    /\ jobStartTracker r.1 = jobStartTracker st.1
    /\ isStarting r.1 = isStarting st.1
    /\ readOnly r.1 = readOnly st.1
    /\ scans r.1 = scans st.1.
Proof.
  induction dirs as [|dir dirs IH]; intros st; cbv zeta.
  - cbn. rewrite !app_nil_r. repeat split; reflexivity.
  - cbn [foldl flat_map].
    destruct (loadStructure_spec filename dir st)
      as (H1 & H2 & H3 & H4 & H5 & H6 & H7).
    destruct (IH (loadStructure filename st dir))
      as (I1 & I2 & I3 & I4 & I5 & I6 & I7).
    rewrite I1, I2, I3, I4, I5, I6, I7, H1, H2, H3, H4, H5, H6, H7.
    rewrite <- !app_assoc. repeat split; reflexivity.
Qed.

Lemma loadedFrom_errorFrom (filename : string) (dirs : list string) :
  (length (flat_map (loadedFrom filename) dirs)
   + length (flat_map (errorFrom filename) dirs))%nat = length dirs.
Proof.
  induction dirs as [|dir dirs IH]; [reflexivity|]. cbn [flat_map].
  rewrite !length_app. cbn [length]. rewrite <- IH.
  unfold loadedFrom, errorFrom. cbv zeta.
  destruct (optimizerLoad filename (readXtal filename dir)).1; cbn; lia.
Qed.

(** X13.  A session file whose [saveSuccessful] flag is set is
    loaded: [load] returns [true].  Each directory of the session gives
    a structure, with the status read from its state file, or, when the
    optimizer cannot load it, one error message.  The structures are
    appended to the tracker once each, in the order of the sort and
    with the indices 0, ..., n-1; those waiting for optimization are put
    on the job-start tracker at their positions in the tracker; the
    messages added are those errors, in the order of the directories;
    an engine that was read-only stays so. *)
Theorem load_republishes_structures
    (files : gmap string (gmap string QVariant)) (filename : string)
    (forceReadOnly : bool) (e : Engine) (settings : gmap string QVariant) :
  files !! filename = Some settings ->
  toBool (value settings "xtalopt/saveSuccessful" (QBool false)) = true ->
  let e0 := connect filename forceReadOnly
              (if forceReadOnly then setReadOnly true e else e) in
  let read := flat_map (loadedFrom filename) (xtalDirs filename) in
  let errors := flat_map (errorFrom filename) (xtalDirs filename) in
  let loaded := reassignIndices (sortByIndex read) in
  let r := load files filename forceReadOnly e in
  r.1 = true
  /\ (length read + length errors)%nat = length (xtalDirs filename)
  /\ tracker r.2 = (tracker e0 ++ loaded)%list
  /\ map index loaded = seq 0 (length read)
  /\ map (setIndex 0) loaded ≡ₚ map (setIndex 0) read
  /\ jobStartTracker r.2
     = (jobStartTracker e0
        ++ waitingPositions (length (tracker e0)) loaded)%list
  /\ messages r.2 = (messages e0 ++ errors)%list
  /\ (readOnly e0 = true -> readOnly r.2 = true).
Proof.
  intros Hfile Hflag e0 read errors loaded r. unfold r, load.
  rewrite Hfile, Hflag. cbn [negb]. cbv zeta. fold e0.
  destruct (readLoop_spec filename (xtalDirs filename) (e0, []))
    as (R1 & R2 & R3 & R4 & _ & R6 & _).
  cbv zeta in R1, R2, R3, R4, R6. cbn [fst snd app] in R1, R2, R3, R4, R6.
  fold (readStructures filename e0) in R1, R2, R3, R4, R6.
  fold read in R1. fold errors in R2. rewrite R1. fold loaded.
  set (e1 := (readStructures filename e0).1) in *.
  destruct (republish_spec loaded e1) as (H1 & H2 & H3 & H4).
  match goal with
  | |- context [foldl ?f e1 loaded] =>
      change (foldl f e1 loaded) with (republish e1 loaded)
  end.
  set (e2 := republish e1 loaded) in *.
  assert (Hlen : length (sortByIndex read) = length read)
    by now rewrite sortByIndex_Permutation.
  cbn [fst snd]. split; [reflexivity|].
  split; [apply loadedFrom_errorFrom|].
  split; [destruct (negb (readOnly e2)); cbn; now rewrite H1, R3|].
  split; [unfold loaded; now rewrite reassignIndices_index, Hlen|].
  split.
  { unfold loaded. rewrite reassignIndices_same.
    apply Permutation_map, sortByIndex_Permutation. }
  split; [destruct (negb (readOnly e2)); cbn; now rewrite H2, R4, R3|].
  split; [destruct (negb (readOnly e2)); cbn; now rewrite H3, R2|].
  intros Hro. rewrite <- R6, <- H4 in Hro. now rewrite Hro.
Qed.

End WithSession.

(** *** The trigger of the duplicate scan *)

(** C7, as the specification has it: a trigger that comes while a scan
    is scheduled or running is dropped. *)
Definition singleFlight : Prop :=
  forall e : Engine, (0 < scans e)%nat ->
    scans (checkForDuplicates e) = scans e.

(** C7 (what the code does).  The only guard of the slot is the flag
    [isStarting]: while the session is starting the trigger is dropped,
    and otherwise every trigger hands one more run of the scan to the
    thread pool, however many are scheduled or running already. *)
Theorem checkForDuplicates_gated_by_isStarting (e : Engine) :
  checkForDuplicates e
  = (if isStarting e then e else setScans (S (scans e)) e)
  /\ scans (checkForDuplicates e)
     = (if isStarting e then scans e else S (scans e))
  /\ forall x, tracker (trackerAppend x e) = (tracker e ++ [x])%list
               /\ scans (trackerAppend x e)
                  = (if isStarting e then scans e else S (scans e)).
Proof.
  unfold trackerAppend, checkForDuplicates.
  destruct e as [t j st ro sc msg]. simpl.
  destruct st; repeat split; reflexivity.
Qed.

(** An engine that is not starting, with nothing scheduled. *)
Definition idleEngine : Engine := mkEngine [] [] false false 0 [].

(** Two structures appended one after the other leave two scans
    scheduled; so a trigger is not dropped because of a scan that is
    scheduled already. *)
Lemma checkForDuplicates_not_single_flight :
  scans (trackerAppend (CheckXtal.example_xtal 4 4 4)
           (trackerAppend (CheckXtal.example_xtal 3 3 3) idleEngine)) = 2%nat
  /\ ~ singleFlight.
Proof.
  split; [reflexivity|].
  intros H. specialize (H (mkEngine [] [] false false 1 []) ltac:(simpl; lia)).
  discriminate H.
Qed.

(** *** An environment, to run the engine *)

(** A generator over a counter: the draws 0.3, 0.0, 0.7, 0.4, ... *)
Definition example_RANDDOUBLE (rng : nat) : Q * nat :=
  (inject_Z (Z.of_nat ((rng * 7 + 3) mod 10)) / 10, S rng).

Definition example_Xtal_new (a b c alpha beta gamma : Q) : Xtal :=
  mkXtal (mkMolecule
            (mkCell (Fin a) (Fin b) (Fin c) (Fin alpha) (Fin beta)
                    (Fin gamma)) [])
         0 Empty 0 0 0 "" "" None None 0 0 0 "" "".

Definition example_addAtomRandomly (atomicNum : nat) (IAD : Q)
    (m : Molecule) (rng : nat) : option Molecule * nat :=
  let '(r, rng) := example_RANDDOUBLE rng in
  (Some (mkMolecule (cell m) (atoms m ++ [mkAtom atomicNum (r, r, r)])),
   rng).

Definition example_getAllOptimizedStructures (l : list Xtal) : list Xtal :=
  List.filter (fun x => State_eqb (status x) Optimized) l.

Definition example_replaceWithRandom
  : nat -> nat -> string -> nat -> Engine -> option (nat * nat * Engine) :=
  replaceWithRandom nat (fun rng => rng) example_RANDDOUBLE
    CheckXtal.ortho_getVolume CheckXtal.ortho_setVolume CheckXtal.ortho_rescaleCell
    CheckXtal.ortho_fixAngles CheckXtal.ortho_shortestDistance
    example_Xtal_new (mkCell (Fin 0) (Fin 0) (Fin 0) (Fin 0) (Fin 0) (Fin 0))
    example_addAtomRandomly (fun _ _ => 1%nat) CheckXtal.example_settings.

Definition example_generateNewStructure_
  : nat -> nat -> Engine -> Result (nat * Engine) :=
  generateNewStructure_ nat (fun rng => rng) example_RANDDOUBLE
    CheckXtal.ortho_getVolume CheckXtal.ortho_setVolume CheckXtal.ortho_rescaleCell
    CheckXtal.ortho_fixAngles CheckXtal.ortho_shortestDistance
    example_Xtal_new example_addAtomRandomly (fun _ _ => 1%nat)
    example_getAllOptimizedStructures (fun l => l)
    (fun l => map (fun _ => 1) l)
    (fun x1 x2 _ rng => (Some x1, 50, rng))
    (fun x1 _ _ _ _ _ _ rng => (Some x1, 0, 0, rng))
    (fun x1 _ _ rng => (Some x1, 0, rng))
    (fun q _ => Template.example_number (Fin q))
    (fun _ => true) CheckXtal.example_settings.

(** A structure that failed, in an engine that is running. *)
Definition failedXtal : Xtal :=
  mkXtal (CheckXtal.example_molecule 4 4 4) 12 Error 3 7 0
         "Crossover: 2x1 (60%) + 2x4 (40%)" "" (Some (-10)) (Some (-9)) 1
         2 5 "/tmp/session/00003x00007/" "/remote/session/00003x00007/".

Definition runningEngine : Engine :=
  mkEngine [failedXtal] [] false false 0 [].

Lemma replaceWithRandom_preserves_identity_witness :
  exists h rng' e' new,
    example_replaceWithRandom 3 0 "too many failures" 0 runningEngine
    = Some (h, rng', e')
    /\ h = 0%nat
    /\ tracker e' !! 0%nat = Some new
    /\ idNumber new = 7%nat /\ generation new = 3%nat /\ index new = 0%nat
    /\ failCount new = 0%nat /\ currentOptStep new = 1%nat
    /\ energy new = None /\ enthalpy new = None /\ PV new = 0
    /\ parents new = "Randomly generated (too many failures)".
Proof.
  unfold example_replaceWithRandom.
  match goal with
  | |- context [replaceWithRandom ?R ?i ?d ?gv ?sv ?rc ?fa ?sd ?xn ?uc ?aa
                  ?ds ?o ?f ?s ?r ?g ?e] =>
      destruct (replaceWithRandom R i d gv sv rc fa sd xn uc aa ds o f s r
                  g e) as [[[h rng'] e']|] eqn:E
  end; [|vm_compute in E; discriminate E].
  destruct (proj1 (replaceWithRandom_preserves_identity
                     nat (fun rng => rng) example_RANDDOUBLE
                     CheckXtal.ortho_getVolume CheckXtal.ortho_setVolume
                     CheckXtal.ortho_rescaleCell CheckXtal.ortho_fixAngles
                     CheckXtal.ortho_shortestDistance example_Xtal_new
                     (mkCell (Fin 0) (Fin 0) (Fin 0) (Fin 0) (Fin 0) (Fin 0))
                     example_addAtomRandomly (fun _ _ => 1%nat)
                     CheckXtal.example_settings
                     0%nat "too many failures" 0%nat runningEngine
                     failedXtal eq_refl)
                  3%nat h rng' e' E)
    as (Hh & _ & new & Hnew & Hfields).
  exists h, rng', e', new.
  exact (conj eq_refl (conj Hh (conj Hnew Hfields))).
Defined.

Lemma generateNewStructure_few_optimized_witness :
  exists rng' e' published,
    example_generateNewStructure_ 3 0 runningEngine = Done (rng', e')
    /\ tracker e' = ([failedXtal] ++ [published])%list
    /\ generation published = 1%nat
    /\ parents published = "Randomly generated".
Proof.
  unfold example_generateNewStructure_.
  match goal with
  | |- exists rng' e' published, ?lhs = _ /\ _ =>
      destruct lhs as [[rng' e']| |] eqn:E
  end; [|vm_compute in E; discriminate E..].
  destruct (proj1 (proj2 (generateNewStructure_few_optimized
                nat (fun rng => rng) example_RANDDOUBLE
                CheckXtal.ortho_getVolume CheckXtal.ortho_setVolume
                CheckXtal.ortho_rescaleCell CheckXtal.ortho_fixAngles
                CheckXtal.ortho_shortestDistance example_Xtal_new
                example_addAtomRandomly (fun _ _ => 1%nat)
                example_getAllOptimizedStructures (fun l => l)
                (fun l => map (fun _ => 1) l)
                (fun x1 x2 _ rng => (Some x1, 50, rng))
                (fun x1 _ _ _ _ _ _ rng => (Some x1, 0, 0, rng))
                (fun x1 _ _ rng => (Some x1, 0, rng))
                (fun q _ => Template.example_number (Fin q))
                (fun _ => true) CheckXtal.example_settings
                3%nat 0%nat runningEngine ltac:(simpl; lia)))
              rng' e' E)
    as (xtal & published & _ & _ & _ & Ht & Hg & Hp & _).
  exists rng', e', published.
  exact (conj eq_refl (conj Ht (conj Hg Hp))).
Defined.

(** An engine with three optimized structures to breed from. *)
Definition breedingEngine : Engine :=
  mkEngine [Duplicates.optimized 1 (-10) 4; Duplicates.optimized 2 (-11) 4;
            Duplicates.optimized 3 (-12) 4] [] false false 0 [].

Lemma generateNewStructure_breeds_from_pool_witness :
  exists rng' e' published parent,
    example_generateNewStructure_ 3 0 breedingEngine = Done (rng', e')
    /\ tracker e' = (tracker breedingEngine ++ [published])%list
    /\ parent ∈ trim CheckXtal.example_settings
                  (example_getAllOptimizedStructures (tracker breedingEngine))
    /\ generation published = (generation parent + 1)%nat.
Proof.
  unfold example_generateNewStructure_.
  match goal with
  | |- exists rng' e' published parent, ?lhs = _ /\ _ =>
      destruct lhs as [[rng' e']| |] eqn:E
  end; [|vm_compute in E; discriminate E..].
  destruct (generateNewStructure_breeds_from_pool
                nat (fun rng => rng) example_RANDDOUBLE
                CheckXtal.ortho_getVolume CheckXtal.ortho_setVolume
                CheckXtal.ortho_rescaleCell CheckXtal.ortho_fixAngles
                CheckXtal.ortho_shortestDistance example_Xtal_new
                example_addAtomRandomly (fun _ _ => 1%nat)
                example_getAllOptimizedStructures (fun l => l)
                (fun l => map (fun _ => 1) l)
                (fun x1 x2 _ rng => (Some x1, 50, rng))
                (fun x1 _ _ _ _ _ _ rng => (Some x1, 0, 0, rng))
                (fun x1 _ _ rng => (Some x1, 0, rng))
                (fun q _ => Template.example_number (Fin q))
                (fun _ => true) CheckXtal.example_settings
                3%nat 0%nat rng' breedingEngine e'
                ltac:(vm_compute; lia) E)
    as (published & parent & _ & _ & Ht & Hp & Hg & _).
  exists rng', e', published, parent.
  exact (conj eq_refl (conj Ht (conj Hp Hg))).
Defined.

Lemma generateRandomXtal_composition_witness :
  exists candidate rng',
    generateRandomXtal nat (fun rng => rng) example_RANDDOUBLE
      CheckXtal.ortho_setVolume example_Xtal_new example_addAtomRandomly
      CheckXtal.example_settings 1%nat 1%nat 0%nat = (Some candidate, rng')
    /\ map atomicNumber (atoms (mol candidate)) = [14; 14; 14; 14]%nat
    /\ length (atoms (mol candidate)) = 4%nat.
Proof.
  match goal with
  | |- exists candidate rng', ?lhs = _ /\ _ =>
      destruct lhs as [[candidate|] rng'] eqn:E
  end; [|vm_compute in E; discriminate E].
  destruct (generateRandomXtal_composition
              nat (fun rng => rng) example_RANDDOUBLE
              CheckXtal.ortho_setVolume example_Xtal_new
              example_addAtomRandomly CheckXtal.example_settings
              ltac:(intros atomicNum IAD m r0 m1 r1 H;
                    unfold example_addAtomRandomly in H;
                    destruct (example_RANDDOUBLE r0) as [r r2];
                    injection H as <- _; cbn [atoms];
                    rewrite map_app; reflexivity)
              ltac:(intros v m; reflexivity)
              ltac:(intros a b c alpha beta gamma; reflexivity)
              1%nat 1%nat 0%nat rng' candidate E) as [Ha Hl].
  exists candidate, rng'.
  exact (conj eq_refl (conj Ha Hl)).
Defined.

(** [startSearch] with the optimizer GULP, which needs no connection,
    for [numInitial] structures and the seeds [seedList]. *)
Definition example_startSearch (numInitial : nat) (seedList : list string)
    (optimizerRead : string -> option Xtal)
  : nat -> SSHManager.SSHManager -> unit -> nat -> Engine
    -> Result (bool * SSHManager.SSHManager * unit * nat * Engine) :=
  startSearch nat (fun rng => rng) example_RANDDOUBLE
    CheckXtal.ortho_getVolume CheckXtal.ortho_setVolume
    CheckXtal.ortho_rescaleCell CheckXtal.ortho_fixAngles
    CheckXtal.ortho_shortestDistance example_Xtal_new
    example_addAtomRandomly (fun _ _ => 1%nat) (fun _ => true)
    CheckXtal.example_settings numInitial seedList "GULP" false []
    optimizerRead "host" "user" 22 unit
    (fun _ w => (None, w)) (fun _ _ w => (true, w))
    (fun _ w => (true, w)) (fun _ w => (None, w)).

(** Scenario S1: three structures to start with, no seeds. *)
Lemma startSearch_fills_first_generation_witness :
  exists ssh' w' rng' e',
    example_startSearch 3 [] (fun _ => None) 20
      (SSHManager.SSHManager_new 2) tt 0 runningEngine
    = Done (true, ssh', w', rng', e')
    /\ length (tracker e') = Nat.max 0 3
    /\ firstGeneration (length (tracker e')) (tracker e').
Proof.
  unfold example_startSearch.
  match goal with
  | |- exists ssh' w' rng' e', ?lhs = _ /\ _ =>
      destruct lhs as [[[[[[|] ssh'] w'] rng'] e']| |] eqn:E
  end; [|vm_compute in E; discriminate E..].
  destruct (startSearch_fills_first_generation
              nat (fun rng => rng) example_RANDDOUBLE
              CheckXtal.ortho_getVolume CheckXtal.ortho_setVolume
              CheckXtal.ortho_rescaleCell CheckXtal.ortho_fixAngles
              CheckXtal.ortho_shortestDistance example_Xtal_new
              example_addAtomRandomly (fun _ _ => 1%nat)
              example_getAllOptimizedStructures (fun l => l)
              (fun l => map (fun _ => 1) l)
              (fun x1 x2 _ rng => (Some x1, 50, rng))
              (fun x1 _ _ _ _ _ _ rng => (Some x1, 0, 0, rng))
              (fun x1 _ _ rng => (Some x1, 0, rng))
              (fun _ => true)
              CheckXtal.example_settings 3%nat [] "GULP" false []
              (fun _ => None) "host" "user" 22%nat unit
              (fun _ w => (None, w)) (fun _ _ w => (true, w))
              (fun _ w => (true, w)) (fun _ w => (None, w))
              20%nat (SSHManager.SSHManager_new 2) ssh' tt w' 0%nat rng'
              runningEngine e' E)
    as (_ & _ & _ & seeds & randoms & _ & _ & _ & Hlen & Hfg).
  exists ssh', w', rng', e'.
  exact (conj eq_refl (conj Hlen Hfg)).
Defined.

(** A seed that cannot be read. *)
Lemma startSearch_gives_up_without_partial_fill_witness :
  exists ssh' w' rng' e',
    example_startSearch 3 ["seed.cif"] (fun _ => None) 20
      (SSHManager.SSHManager_new 2) tt 0 runningEngine
    = Done (false, ssh', w', rng', e')
    /\ rng' = 0%nat
    /\ (tracker e' = tracker runningEngine
        \/ (tracker e' = []
            /\ exists f, f ∈ ["seed.cif"] /\ (fun _ => None) f = @None Xtal
                 /\ last (messages e') = Some ("Error loading seed " ++ f))).
Proof.
  unfold example_startSearch.
  match goal with
  | |- exists ssh' w' rng' e', ?lhs = _ /\ _ =>
      destruct lhs as [[[[[[|] ssh'] w'] rng'] e']| |] eqn:E
  end; [vm_compute in E; discriminate E| |vm_compute in E; discriminate E..].
  destruct (startSearch_gives_up_without_partial_fill
              nat (fun rng => rng) example_RANDDOUBLE
              CheckXtal.ortho_getVolume CheckXtal.ortho_setVolume
              CheckXtal.ortho_rescaleCell CheckXtal.ortho_fixAngles
              CheckXtal.ortho_shortestDistance example_Xtal_new
              example_addAtomRandomly (fun _ _ => 1%nat)
              example_getAllOptimizedStructures (fun l => l)
              (fun l => map (fun _ => 1) l)
              (fun x1 x2 _ rng => (Some x1, 50, rng))
              (fun x1 _ _ _ _ _ _ rng => (Some x1, 0, 0, rng))
              (fun x1 _ _ rng => (Some x1, 0, rng))
              (fun _ => true)
              CheckXtal.example_settings 3%nat ["seed.cif"] "GULP" false []
              (fun _ => None) "host" "user" 22%nat unit
              (fun _ w => (None, w)) (fun _ _ w => (true, w))
              (fun _ w => (true, w)) (fun _ w => (None, w))
              20%nat (SSHManager.SSHManager_new 2) ssh' tt w' 0%nat rng'
              runningEngine e' E)
    as (Hrng & Hor).
  exists ssh', w', rng', e'.
  exact (conj eq_refl (conj Hrng Hor)).
Defined.

(** A session directory with three structures: the first stored with
    index 1 and waiting for its optimization; the second, of index 0,
    in a directory written by an older version ([xtal.state]); the third
    without data that the optimizer could load. *)
Definition example_readSettings (file : string) (x : Xtal) : Xtal :=
  if file =? "/tmp/session//00001x00001/structure.state"
  then setFileName (fileName x) (setIndex 1 (CheckXtal.example_xtal 4 4 4))
  else if file =? "/tmp/session//00003x00007/xtal.state"
  then setFileName (fileName x) failedXtal
  else x.

Definition example_optimizerLoad (filename : string) (x : Xtal)
  : bool * Xtal :=
  if State_eqb (status x) Empty then (false, x)
  else (true, setStatus StepOptimized x).

Definition example_load
  : gmap string (gmap string QVariant) -> string -> bool -> Engine
    -> bool * Engine :=
  load (fun _ _ e => e) (fun _ => "/tmp/session/")
       (fun _ => ["00001x00001"; "00003x00007"; "00002x00001"])
       (fun file =>
          negb (file =? "/tmp/session//00003x00007/structure.state"))
       (setStatus Empty (CheckXtal.example_xtal 0 0 0))
       example_readSettings example_optimizerLoad (fun _ => "VASP")
       (fun _ => true).

(** A session file whose last save did not complete. *)
Definition interruptedSettings : gmap string QVariant :=
  {[ "xtalopt/version" := QInt 1;
     "xtalopt/saveSuccessful" := QText "false" ]}.

Definition interruptedSession : gmap string (gmap string QVariant) :=
  {[ "/tmp/session/xtalopt.state" := interruptedSettings ]}.

Lemma load_refuses_unsuccessful_save_witness :
  let r := example_load interruptedSession "/tmp/session/xtalopt.state"
                        false idleEngine in
  r.1 = false
  /\ tracker r.2 = []
  /\ jobStartTracker r.2 = []
  /\ scans r.2 = 0%nat
  /\ messages r.2 = [incompleteMessage "/tmp/session/xtalopt.state"].
Proof.
  apply (load_refuses_unsuccessful_save
           (fun _ _ e => e) (fun _ => "/tmp/session/")
           (fun _ => ["00001x00001"; "00003x00007"; "00002x00001"])
           (fun file =>
              negb (file =? "/tmp/session//00003x00007/structure.state"))
           (setStatus Empty (CheckXtal.example_xtal 0 0 0))
           example_readSettings example_optimizerLoad (fun _ => "VASP")
           (fun _ => true)
           interruptedSession "/tmp/session/xtalopt.state" false idleEngine
           interruptedSettings).
  - reflexivity.
  - right. exists (QText "false"). split; reflexivity.
Defined.

(** A session file whose last save completed. *)
Definition completeSettings : gmap string QVariant :=
  {[ "xtalopt/saveSuccessful" := QText "true" ]}.

Definition completeSession : gmap string (gmap string QVariant) :=
  {[ "/tmp/session/xtalopt.state" := completeSettings ]}.

(** The same directory once the flag is set is loaded: two structures
    reach the tracker, in the order of their indices and with the
    status of their state files, and the third is reported. *)
Example load_successful_save :
  let r := example_load completeSession "/tmp/session/xtalopt.state"
                        false idleEngine in
  r.1 = true
  /\ map (fun x => (generation x, idNumber x, index x, status x, fileName x))
         (tracker r.2)
     = [(3%nat, 7%nat, 0%nat, Error, "/tmp/session//00003x00007/");
        (1%nat, 1%nat, 1%nat, WaitingForOptimization,
         "/tmp/session//00001x00001/")]
  /\ messages r.2 = [noDataMessage "VASP" "/tmp/session//00002x00001/"].
Proof. vm_compute. repeat split; reflexivity. Qed.

Lemma load_republishes_structures_witness :
  let r := example_load completeSession "/tmp/session/xtalopt.state"
                        false idleEngine in
  r.1 = true
  /\ map index (tracker r.2) = [0%nat; 1%nat]
  /\ jobStartTracker r.2 = [1%nat]
  /\ messages r.2 = [noDataMessage "VASP" "/tmp/session//00002x00001/"].
Proof.
  destruct (load_republishes_structures
              (fun _ _ e => e) (fun _ => "/tmp/session/")
              (fun _ => ["00001x00001"; "00003x00007"; "00002x00001"])
              (fun file =>
                 negb (file =? "/tmp/session//00003x00007/structure.state"))
              (setStatus Empty (CheckXtal.example_xtal 0 0 0))
              example_readSettings example_optimizerLoad (fun _ => "VASP")
              (fun _ => true)
              completeSession "/tmp/session/xtalopt.state" false idleEngine
              completeSettings
              ltac:(vm_compute; reflexivity) ltac:(vm_compute; reflexivity))
    as (H1 & _ & H2 & H3 & _ & H5 & H6 & _).
  cbv zeta. unfold example_load. split; [exact H1|]. split.
  - rewrite H2. cbn [tracker idleEngine app]. rewrite H3.
    vm_compute. reflexivity.
  - split; [rewrite H5|rewrite H6]; vm_compute; reflexivity.
Defined.

End Engine.
